(** * Mython: a shallow embedding of the lexer, the runtime and the AST

    The development follows the layout of the C++ sources:
    - [parse]   : lexer.h / lexer.cpp  (token alphabet, stream model, [ParseTokens]);
    - [ast]     : the syntax of statements together with the runtime values
                  they mention (runtime.h / statement.h);
    - [runtime] : runtime.cpp and statement.cpp ([Execute], [Call], [Equal], ...).
*)

From Stdlib Require Import ZArith Ascii String List Lia Bool.
From stdpp Require Import gmap strings list fin_maps pretty.
Import ListNotations.
Open Scope string_scope.
Open Scope list_scope.
Open Scope Z_scope.

(* ===================================================================== *)
(** * Lexer (lexer.h, lexer.cpp)                                          *)
(* ===================================================================== *)

Module parse.

(** ** Token alphabet: [std::variant] over the structs of [token_type] *)
Module token_type.
Inductive Token : Type :=
| Number (value : Z)
| Id (value : string)
| Char (value : ascii)
| String (value : string)
| Class | Return | If | Else | Def | Newline | Print | Indent | Dedent
| And | Or | Not | Eq | NotEq | LessOrEq | GreaterOrEq
| None | True | False | Eof.
End token_type.
Abbreviation Token := token_type.Token.

Definition is_Newline (t : Token) : bool :=
  match t with token_type.Newline => true | _ => false end.
Definition is_Dedent (t : Token) : bool :=
  match t with token_type.Dedent => true | _ => false end.
Definition is_Indent (t : Token) : bool :=
  match t with token_type.Indent => true | _ => false end.

(** ** <cctype> in the "C" locale; bytes above 127 belong to no class *)
Definition code (c : ascii) : N := N_of_ascii c.
Definition in_range (lo hi : N) (c : ascii) : bool :=
  ((lo <=? code c) && (code c <=? hi))%N.
Definition isdigit (c : ascii) : bool := in_range 48 57 c.
Definition isalpha (c : ascii) : bool := in_range 65 90 c || in_range 97 122 c.
Definition isalnum (c : ascii) : bool := isalpha c || isdigit c.
Definition ispunct (c : ascii) : bool :=
  in_range 33 47 c || in_range 58 64 c || in_range 91 96 c || in_range 123 126 c.

Definition char_eqb (a b : ascii) : bool := Ascii.eqb a b.

Definition LF : ascii := "010"%char.
Definition CR : ascii := "013"%char.
Definition TAB : ascii := "009"%char.
Definition SPACE : ascii := " "%char.
Definition QUOTE : ascii := "034"%char.

(** ** [std::istream]: the unread characters and the three state bits.

    Every unformatted input function first builds a sentry, which sets
    [failbit] when the stream is not [good()].  [peek] at the end of the data
    sets [eofbit] only; [get] at the end sets [eofbit] and [failbit];
    [putback] first clears [eofbit].  [operator bool] is [!fail()]. *)
Record istream : Type := mk_istream {
  rdbuf : string;
  eofbit : bool;
  failbit : bool;
  badbit : bool
}.

Definition good (s : istream) : bool := negb (eofbit s || failbit s || badbit s).
Definition fail (s : istream) : bool := failbit s || badbit s.

Definition set_eof (s : istream) : istream :=
  mk_istream (rdbuf s) true (failbit s) (badbit s).
Definition set_fail (s : istream) : istream :=
  mk_istream (rdbuf s) (eofbit s) true (badbit s).
Definition clear_eof (s : istream) : istream :=
  mk_istream (rdbuf s) false (failbit s) (badbit s).
Definition with_buf (s : istream) (b : string) : istream :=
  mk_istream b (eofbit s) (failbit s) (badbit s).

(** [traits::eof()] is [None] *)
Definition peek (s : istream) : option ascii * istream :=
  if good s then
    match rdbuf s with
    | EmptyString => (None, set_eof s)
    | String.String c _ => (Some c, s)
    end
  else (None, set_fail s).

Definition get (s : istream) : option ascii * istream :=
  if good s then
    match rdbuf s with
    | EmptyString => (None, set_fail (set_eof s))
    | String.String c r => (Some c, with_buf s r)
    end
  else (None, set_fail s).

(** The lexer only ever puts back the character it has just extracted, so
    the stream buffer always accepts it. *)
Definition putback (c : ascii) (s : istream) : istream :=
  let s' := clear_eof s in
  if good s' then with_buf s' (String.String c (rdbuf s')) else set_fail s'.

(** [std::getline(is, str)]: extracts up to and including the next '\n' *)
Fixpoint skip_line (b : string) : option string :=
  match b with
  | EmptyString => None
  | String.String c r => if char_eqb c LF then Some r else skip_line r
  end.

Definition getline (s : istream) : istream :=
  if good s then
    match rdbuf s with
    | EmptyString => set_fail (set_eof s)
    | _ => match skip_line (rdbuf s) with
           | Some r => with_buf s r
           | None => set_eof (with_buf s EmptyString)
           end
    end
  else set_fail s.

(** The value of [char c = is.get()] when the result is [traits::eof()] *)
Definition to_char (o : option ascii) : ascii :=
  match o with Some c => c | None => "255"%char end.

Definition peek_is (c : ascii) (o : option ascii) : bool :=
  match o with Some d => char_eqb d c | None => false end.

(** ** Exceptions and the error monad of the lexer *)
Inductive exception : Type :=
| LexerError (what : string)
| out_of_range (what : string)
| assertion_failed (what : string).

Inductive result (A : Type) : Type :=
| Ok (a : A)
| Throw (e : exception).
Arguments Ok {A} a.
Arguments Throw {A} e.

Definition bind {A B : Type} (m : result A) (k : A -> result B) : result B :=
  match m with Ok a => k a | Throw e => Throw e end.
Notation "'do' x <- m ; k" := (bind m (fun x => k))
  (at level 10, x name, m at level 100, k at level 200).

(** ** The lexer object *)
Record Lexer : Type := mk_Lexer {
  input_tokens_ : istream;
  tokens_ : list Token;
  current_dent_ : Z          (* uint16_t *)
}.

Definition num_space_dent_ : Z := 2.

Definition uint16 (z : Z) : Z := z mod 65536.
Definition int16 (z : Z) : Z := (z + 32768) mod 65536 - 32768.

Definition with_input (l : Lexer) (s : istream) : Lexer :=
  mk_Lexer s (tokens_ l) (current_dent_ l).
Definition emplace_back (t : Token) (l : Lexer) : Lexer :=
  mk_Lexer (input_tokens_ l) (tokens_ l ++ [t]) (current_dent_ l).
Definition with_dent (l : Lexer) (d : Z) : Lexer :=
  mk_Lexer (input_tokens_ l) (tokens_ l) d.

(** [!tokens_.empty() && !tokens_.back().Is<Newline>()] *)
Definition nonempty_and_back_not_Newline (ts : list Token) : bool :=
  match last ts with Some t => negb (is_Newline t) | Datatypes.None => false end.
Definition nonempty_and_back_not_Newline_nor_Dedent (ts : list Token) : bool :=
  match last ts with
  | Some t => negb (is_Newline t) && negb (is_Dedent t)
  | Datatypes.None => false
  end.

Definition IsEof (l : Lexer) : bool * Lexer :=
  let (c, s) := peek (input_tokens_ l) in
  (match c with Some _ => false | Datatypes.None => true end, with_input l s).

(** [while (input.peek() == ' ') input.get();]  Each round extracts one
    character, so [String.length buffer + 1] rounds always reach the exit. *)
Fixpoint skip_spaces (rounds : nat) (s : istream) : istream :=
  match rounds with
  | O => s
  | S n =>
      let (c, s1) := peek s in
      if peek_is SPACE c then skip_spaces n (snd (get s1)) else s1
  end.

Definition RemovingSpacesBeforeTokens (l : Lexer) : Lexer :=
  let s := input_tokens_ l in
  with_input l (skip_spaces (S (String.length (rdbuf s))) s).

(** [detail::ReadWord] *)
Fixpoint ReadWord_loop (rounds : nat) (s : istream) (parsed_word : string)
  : string * istream :=
  match rounds with
  | O => (parsed_word, s)
  | S n =>
      match get s with
      | (Some symbol, s1) =>
          if isalnum symbol || char_eqb symbol "_"%char
          then ReadWord_loop n s1 (parsed_word +:+ String.String symbol EmptyString)
          else (parsed_word, putback symbol s1)
      | (Datatypes.None, s1) => (parsed_word, s1)
      end
  end.

Definition ReadWord (s : istream) : string * istream :=
  ReadWord_loop (S (String.length (rdbuf s))) s EmptyString.

Definition add_if (word key : string) (t : Token) (ts : list Token) : list Token :=
  if String.eqb word key then ts ++ [t] else ts.

Definition AddKeyword (word : string) (l : Lexer) : bool * Lexer :=
  let old_size := length (tokens_ l) in
  let ts := tokens_ l in
  let ts := add_if word "class" token_type.Class ts in
  let ts := add_if word "return" token_type.Return ts in
  let ts := add_if word "if" token_type.If ts in
  let ts := add_if word "else" token_type.Else ts in
  let ts := add_if word "def" token_type.Def ts in
  let ts := add_if word "print" token_type.Print ts in
  let ts := add_if word "or" token_type.Or ts in
  let ts := add_if word "None" token_type.None ts in
  let ts := add_if word "and" token_type.And ts in
  let ts := add_if word "not" token_type.Not ts in
  let ts := add_if word "True" token_type.True ts in
  let ts := add_if word "False" token_type.False ts in
  (negb (Nat.eqb old_size (length ts)),
   mk_Lexer (input_tokens_ l) ts (current_dent_ l)).

Definition ExtractKeywordOrId (l : Lexer) : Lexer :=
  let (e, l) := IsEof l in
  if e then l else
  let (c, s) := peek (input_tokens_ l) in
  let symbol := to_char c in
  let l := with_input l s in
  if negb (isalpha symbol) && negb (char_eqb symbol "_"%char) then l else
  let (parsed_word, s) := ReadWord (input_tokens_ l) in
  let (added, l) := AddKeyword parsed_word (with_input l s) in
  if added then l else emplace_back (token_type.Id parsed_word) l.

(** One arm [first_symbol == ch && input.peek() == '='] of the chain in
    [ExtractOperatorEqOrSymbol]; [&&] evaluates [peek] only after the first
    test succeeded. *)
Definition two_char_or (first_symbol ch : ascii) (t : Token)
    (otherwise : Lexer -> Lexer) (l : Lexer) : Lexer :=
  if char_eqb first_symbol ch then
    let (n, s1) := peek (input_tokens_ l) in
    if peek_is "="%char n
    then emplace_back t (with_input l (snd (get s1)))
    else otherwise (with_input l s1)
  else otherwise l.

Definition ExtractOperatorEqOrSymbol (l : Lexer) : Lexer :=
  let (e, l) := IsEof l in
  if e then l else
  let (c, s) := peek (input_tokens_ l) in
  let l := with_input l s in
  if peek_is "#"%char c then l else
  let (g, s) := get (input_tokens_ l) in
  let first_symbol := to_char g in
  if negb (ispunct first_symbol) || char_eqb first_symbol QUOTE
     || char_eqb first_symbol "'"%char
  then with_input l (putback first_symbol s)
  else
    let l := with_input l s in
    two_char_or first_symbol "!"%char token_type.NotEq
      (two_char_or first_symbol "="%char token_type.Eq
        (two_char_or first_symbol ">"%char token_type.GreaterOrEq
          (two_char_or first_symbol "<"%char token_type.LessOrEq
            (emplace_back (token_type.Char first_symbol))))) l.

(** [std::stoi] on a run of decimal digits: [std::out_of_range] above INT_MAX *)
Fixpoint digits_value (acc : Z) (s : string) : Z :=
  match s with
  | EmptyString => acc
  | String.String c r => digits_value (10 * acc + (Z.of_N (code c) - 48)) r
  end.

Definition stoi (s : string) : result Z :=
  let v := digits_value 0 s in
  if v <=? 2147483647 then Ok v else Throw (out_of_range "stoi").

Fixpoint read_digits (rounds : nat) (s : istream) (parsed_num : string)
  : string * istream :=
  match rounds with
  | O => (parsed_num, s)
  | S n =>
      match get s with
      | (Some symbol, s1) =>
          if isdigit symbol
          then read_digits n s1 (parsed_num +:+ String.String symbol EmptyString)
          else (parsed_num, putback symbol s1)
      | (Datatypes.None, s1) => (parsed_num, s1)
      end
  end.

Definition ExtractIntValue (l : Lexer) : result Lexer :=
  let (e, l) := IsEof l in
  if e then Ok l else
  let (g, s) := get (input_tokens_ l) in
  let symbol := to_char g in
  if isdigit symbol then
    let (parsed_num, s) :=
      read_digits (S (String.length (rdbuf s))) s (String.String symbol EmptyString) in
    do num <- stoi parsed_num;
    Ok (emplace_back (token_type.Number num) (with_input l s))
  else Ok (with_input l (putback symbol s)).

(** The [switch] over the character that follows a backslash *)
Definition escape (special_symbol : ascii) : option ascii :=
  if char_eqb special_symbol "n"%char then Some LF
  else if char_eqb special_symbol "t"%char then Some TAB
  else if char_eqb special_symbol "r"%char then Some CR
  else if char_eqb special_symbol QUOTE then Some QUOTE
  else if char_eqb special_symbol "\"%char then Some "\"%char
  else if char_eqb special_symbol "'"%char then Some "'"%char
  else Datatypes.None.

Definition push_back (str : string) (c : ascii) : string :=
  str +:+ String.String c EmptyString.

Fixpoint ExtractString_loop (rounds : nat) (begin_symbol : ascii) (s : istream)
    (str : string) : result (string * istream) :=
  match rounds with
  | O => Ok (str, s)
  | S n =>
      match get s with
      | (Datatypes.None, s1) => Ok (str, s1)
      | (Some symbol, s1) =>
          if char_eqb symbol begin_symbol then Ok (str, s1)
          else if char_eqb symbol "\"%char then
            match get s1 with
            | (Datatypes.None, _) => Throw (LexerError "The line was not closed")
            | (Some special_symbol, s2) =>
                match escape special_symbol with
                | Some c => ExtractString_loop n begin_symbol s2 (push_back str c)
                | Datatypes.None =>
                    Throw (LexerError
                             (push_back "Unrecognized escape sequence \" special_symbol))
                end
            end
          else if char_eqb symbol LF || char_eqb symbol CR then
            Throw (LexerError "Unexpected end of line")
          else ExtractString_loop n begin_symbol s1 (push_back str symbol)
      end
  end.

Definition ExtractString (l : Lexer) : result Lexer :=
  let (e, l) := IsEof l in
  if e then Ok l else
  let (g, s) := get (input_tokens_ l) in
  let begin_symbol := to_char g in
  if negb (char_eqb begin_symbol "'"%char) && negb (char_eqb begin_symbol QUOTE)
  then Ok (with_input l (putback begin_symbol s))
  else
    do r <- ExtractString_loop (S (String.length (rdbuf s))) begin_symbol s EmptyString;
    Ok (emplace_back (token_type.String (fst r)) (with_input l (snd r))).

Definition ExtractComments (l : Lexer) : Lexer :=
  let (c, s) := peek (input_tokens_ l) in
  let l := with_input l s in
  if negb (peek_is "#"%char c) then l else
  let l := with_input l (getline (input_tokens_ l)) in
  if nonempty_and_back_not_Newline_nor_Dedent (tokens_ l)
  then emplace_back token_type.Newline l else l.

Definition ExtractNewLine (l : Lexer) : Lexer :=
  let (e, l) := IsEof l in
  if e then l else
  let (c, s) := peek (input_tokens_ l) in
  let l := with_input l s in
  if negb (peek_is LF c) then l else
  let l := with_input l (snd (get (input_tokens_ l))) in
  if nonempty_and_back_not_Newline (tokens_ l)
  then emplace_back token_type.Newline l else l.

(** [while (input.peek() == ' ') { input.get(); ++count_space; }] with
    [uint16_t count_space] *)
Fixpoint count_spaces (rounds : nat) (s : istream) (count_space : Z) : Z * istream :=
  match rounds with
  | O => (count_space, s)
  | S n =>
      let (c, s1) := peek s in
      if peek_is SPACE c
      then count_spaces n (snd (get s1)) (uint16 (count_space + 1))
      else (count_space, s1)
  end.

(** [while (delta_dent > 0) { Indent; ++current_dent_; --delta_dent; }] *)
Fixpoint indent_loop (delta_dent : nat) (l : Lexer) : Lexer :=
  match delta_dent with
  | O => l
  | S n =>
      let l := emplace_back token_type.Indent l in
      indent_loop n (with_dent l (uint16 (current_dent_ l + 1)))
  end.

(** [while (delta_dent < 0) { Dedent; assert(current_dent_ != 0);
    --current_dent_; delta_dent++; }] *)
Fixpoint dedent_loop (minus_delta_dent : nat) (l : Lexer) : result Lexer :=
  match minus_delta_dent with
  | O => Ok l
  | S n =>
      let l := emplace_back token_type.Dedent l in
      if current_dent_ l =? 0 then Throw (assertion_failed "current_dent_ != 0")
      else dedent_loop n (with_dent l (uint16 (current_dent_ l - 1)))
  end.

Definition odd_indent_message (count_space : Z) : string :=
  "One of the indents contains an odd number of spaces. Num space = "
    +:+ pretty count_space.

Definition ExtractDent (l : Lexer) : result Lexer :=
  if nonempty_and_back_not_Newline (tokens_ l) then Ok l else
  let (c, s) := peek (input_tokens_ l) in
  let l := with_input l s in
  if peek_is LF c then Ok l else
  let (count_space, s) := count_spaces (S (String.length (rdbuf s))) s 0 in
  let l := with_input l s in
  if negb (count_space mod num_space_dent_ =? 0)
  then Throw (LexerError (odd_indent_message count_space))
  else
    let delta_dent := int16 (count_space / num_space_dent_ - current_dent_ l) in
    if 0 <? delta_dent then Ok (indent_loop (Z.to_nat delta_dent) l)
    else dedent_loop (Z.to_nat (- delta_dent)) l.

(** The body of the [while (input_tokens_)] loop of [ParseTokens] *)
Definition scan_step (l : Lexer) : result Lexer :=
  let l := ExtractKeywordOrId l in
  let l := ExtractOperatorEqOrSymbol l in
  do l <- ExtractIntValue l;
  do l <- ExtractString l;
  let l := RemovingSpacesBeforeTokens l in
  let l := ExtractComments l in
  let l := ExtractNewLine l in
  ExtractDent l.

(** The loop itself.  It does not terminate on every input (a tab, for
    instance, is extracted by no alternative), hence the fuel: [None] means
    that [fuel] rounds did not reach the exit. *)
Fixpoint ParseTokens_loop (fuel : nat) (l : Lexer) : option (result Lexer) :=
  match fuel with
  | O => Datatypes.None
  | S n =>
      if fail (input_tokens_ l) then Some (Ok l)
      else match scan_step l with
           | Ok l' => ParseTokens_loop n l'
           | Throw e => Some (Throw e)
           end
  end.

Definition finish (l : Lexer) : list Token :=
  let ts := if nonempty_and_back_not_Newline_nor_Dedent (tokens_ l)
            then tokens_ l ++ [token_type.Newline] else tokens_ l in
  ts ++ [token_type.Eof].

Definition ParseTokens_from (fuel : nat) (l : Lexer) : option (result (list Token)) :=
  match ParseTokens_loop fuel (RemovingSpacesBeforeTokens l) with
  | Some (Ok l') => Some (Ok (finish l'))
  | Some (Throw e) => Some (Throw e)
  | Datatypes.None => Datatypes.None
  end.

(** [Lexer::Lexer(std::istream& input)] on a fresh stream holding [input] *)
Definition new_Lexer (input : string) : Lexer :=
  mk_Lexer (mk_istream input false false false) [] 0.

Definition ParseTokens (fuel : nat) (input : string) : option (result (list Token)) :=
  ParseTokens_from fuel (new_Lexer input).

Definition count_tokens (p : Token -> bool) (ts : list Token) : nat :=
  length (filter (fun t => p t = true) ts).

(** ** Vocabulary for statements about the stream loops *)

Fixpoint spaces (n : nat) : string :=
  match n with O => EmptyString | S k => String.String SPACE (spaces k) end.

Definition starts_with_space (b : string) : bool :=
  match b with String.String c _ => char_eqb c SPACE | EmptyString => false end.

(** What a good stream looks like after [peek] found no further space *)
Definition after_peek (s : istream) (rest : string) : istream :=
  match rest with
  | EmptyString => set_eof (with_buf s EmptyString)
  | _ => with_buf s rest
  end.

(** The nesting level that a token list leaves open: [Indent]s minus
    [Dedent]s *)
Definition dents (ts : list Token) : Z :=
  Z.of_nat (count_tokens is_Indent ts) - Z.of_nat (count_tokens is_Dedent ts).

(** No prefix closes more levels than it opened *)
Definition prefixes_balanced (ts : list Token) : Prop :=
  forall k : nat, 0 <= dents (take k ts).

Definition nondent (t : Token) : Prop :=
  is_Indent t = false /\ is_Dedent t = false.

(** [appended ts ts']: [ts'] is [ts] followed by tokens other than [Indent]
    and [Dedent] *)
Inductive appended (ts : list Token) : list Token -> Prop :=
| appended_refl : appended ts ts
| appended_snoc ts' t : appended ts ts' -> nondent t -> appended ts (ts' ++ [t]).

(** [quiet l l']: from [l] to [l'] the indentation state is untouched *)
Definition quiet (l l' : Lexer) : Prop :=
  current_dent_ l' = current_dent_ l /\ appended (tokens_ l) (tokens_ l').

(** [current_dent_] is the level left open by the tokens produced so far *)
Definition dent_invariant (l : Lexer) : Prop :=
  prefixes_balanced (tokens_ l)
  /\ current_dent_ l = dents (tokens_ l)
  /\ 0 <= current_dent_ l <= 32767.

(** [line s rest] is the text [s], a line feed, then [rest] *)
Definition line (s rest : string) : string := s +:+ String.String LF rest.

(** ** Token comparison and the token cursor (lexer.cpp, lines 13-36 and
    101-110) *)

(** [Token::index()]: the position of the alternative in [TokenBase] *)
Definition index (t : Token) : nat :=
  match t with
  | token_type.Number _ => 0 | token_type.Id _ => 1
  | token_type.Char _ => 2 | token_type.String _ => 3
  | token_type.Class => 4 | token_type.Return => 5
  | token_type.If => 6 | token_type.Else => 7
  | token_type.Def => 8 | token_type.Newline => 9
  | token_type.Print => 10 | token_type.Indent => 11
  | token_type.Dedent => 12 | token_type.And => 13
  | token_type.Or => 14 | token_type.Not => 15
  | token_type.Eq => 16 | token_type.NotEq => 17
  | token_type.LessOrEq => 18 | token_type.GreaterOrEq => 19
  | token_type.None => 20 | token_type.True => 21
  | token_type.False => 22 | token_type.Eof => 23
  end%nat.

(** [operator==(const Token&, const Token&)]; once the indices agree,
    [rhs.As<T>()] is on the alternative that [lhs] holds *)
Definition operator_eq (lhs rhs : Token) : bool :=
  if negb (Nat.eqb (index lhs) (index rhs)) then false else
  match lhs, rhs with
  | token_type.Char a, token_type.Char b => char_eqb a b
  | token_type.Number a, token_type.Number b => a =? b
  | token_type.String a, token_type.String b => String.eqb a b
  | token_type.Id a, token_type.Id b => String.eqb a b
  | _, _ => true
  end.

Definition operator_ne (lhs rhs : Token) : bool := negb (operator_eq lhs rhs).

(** The lexer once built: the parsed tokens and [index_current_token_].
    Reading [tokens_[i]] outside the vector has no defined result: [None]. *)
Record Cursor : Type := mk_Cursor {
  parsed_tokens_ : list Token;
  index_current_token_ : nat
}.

Definition CurrentToken (c : Cursor) : option Token :=
  parsed_tokens_ c !! index_current_token_ c.

Definition NextToken (c : Cursor) : option Token * Cursor :=
  if negb (Nat.eqb (index_current_token_ c + 1) (length (parsed_tokens_ c)))
  then
    let c' := mk_Cursor (parsed_tokens_ c) (S (index_current_token_ c)) in
    (CurrentToken c', c')
  else (CurrentToken c, c).

(** [k] calls of [NextToken] in a row *)
Fixpoint advance (k : nat) (c : Cursor) : Cursor :=
  match k with
  | O => c
  | S n => advance n (snd (NextToken c))
  end.

(** ** Vocabulary for the shape of the token list *)

Definition keywords : list string :=
  ["class"; "return"; "if"; "else"; "def"; "print"; "or"; "None"; "and";
   "not"; "True"; "False"].

Definition is_word_char (c : ascii) : bool := isalnum c || char_eqb c "_"%char.

Fixpoint all_chars (p : ascii -> bool) (s : string) : bool :=
  match s with
  | EmptyString => true
  | String.String c r => p c && all_chars p r
  end.

(** What holds of a token by itself, wherever it stands *)
Definition token_shape (t : Token) : Prop :=
  match t with
  | token_type.Eof => False
  | token_type.Number v => 0 <= v <= 2147483647
  | token_type.Id w =>
      ~ In w keywords /\ w <> EmptyString /\ all_chars is_word_char w = true
  | token_type.Char c =>
      ispunct c = true /\ c <> QUOTE /\ c <> "'"%char /\ c <> "#"%char
  | _ => True
  end.

(** What holds of a token given the tokens [ts] before it *)
Definition token_place (ts : list Token) (t : Token) : Prop :=
  match t with
  | token_type.Newline => nonempty_and_back_not_Newline ts = true
  | token_type.Indent =>
      match last ts with
      | Some p => is_Newline p || is_Indent p = true
      | Datatypes.None => True
      end
  | token_type.Dedent =>
      match last ts with
      | Some p => is_Newline p || is_Dedent p = true
      | Datatypes.None => True
      end
  | _ => True
  end.

(** Token lists built from the left by tokens that respect both *)
Inductive well_formed : list Token -> Prop :=
| well_formed_nil : well_formed []
| well_formed_snoc ts t :
    well_formed ts -> token_shape t -> token_place ts t ->
    well_formed (ts ++ [t]).

(** A literal body that the string loop copies character by character *)
Definition is_plain (quote c : ascii) : bool :=
  negb (char_eqb c quote) && negb (char_eqb c "\"%char)
  && negb (char_eqb c LF) && negb (char_eqb c CR).

Definition starts_with (c : ascii) (b : string) : bool :=
  match b with String.String d _ => char_eqb d c | EmptyString => false end.

(** The [Indent]s or [Dedent]s that lead from level [from] to level [to] *)
Definition dent_tokens (from to : Z) : list Token :=
  if from <=? to then replicate (Z.to_nat (to - from)) token_type.Indent
  else replicate (Z.to_nat (from - to)) token_type.Dedent.

(** ** Vocabulary for the lines of the input *)

Definition not_LF (c : ascii) : bool := negb (char_eqb c LF).

(** The lines [earlier], each with its line feed, followed by [rest] *)
Definition lines (earlier : list string) (rest : string) : string :=
  fold_right line rest earlier.

(** [ahead s a c]: the stream is good and holds [a], the rest of the line
    that is being read, then a line feed, then [c] *)
Definition ahead (s : istream) (a c : string) : Prop :=
  good s = true /\ rdbuf s = line a c /\ all_chars not_LF a = true.








End parse.

(* ===================================================================== *)
(** * Syntax and values (statement.h, runtime.h)                          *)
(* ===================================================================== *)

(** Modelled from the spec: the class declarations of statement.h and
    runtime.h are absent from the sources.  The members of each node are
    those that its constructor in statement.cpp initialises; the values, the
    holder, [Class] and [Method] are those of the data model of the
    specification.

    A method body is a statement and a statement may hold a class, so the
    statements of namespace [ast] and the values of namespace [runtime] form
    one family of types.

    Classes are immutable once built and are referred to through
    [const Class&]; they are embedded by value.  A [ClassInstance] is mutable
    and is reached through pointers, so the value is the object's address
    together with its class; its field table lives in the store of the
    [runtime] module. *)
Module ast.

(** Modelled from the spec: [Comparison] applies one of the six comparators
    of runtime.cpp. *)
Inductive Comparator : Type :=
| Equal | NotEqual | Less | Greater | LessOrEqual | GreaterOrEqual.

Unset Elimination Schemes.
Inductive Statement : Type :=
| VariableValue (dotted_ids_ : list string)
| Assignment (variable_name_ : string) (r_value_ : Statement)
| FieldAssignment (object_ : list string) (field_name_ : string)
                  (r_value_ : Statement)
| None
| Print (args_ : list Statement)
| MethodCall (object_ : Statement) (method_ : string) (args_ : list Statement)
| NewInstance (class_instance_ : nat) (class_ : Class) (args_ : list Statement)
| Stringify (argument_ : Statement)
| Add (lhs_ rhs_ : Statement)
| Sub (lhs_ rhs_ : Statement)
| Mult (lhs_ rhs_ : Statement)
| Div (lhs_ rhs_ : Statement)
| Or (lhs_ rhs_ : Statement)
| And (lhs_ rhs_ : Statement)
| Not (argument_ : Statement)
| Compound (statements_ : list Statement)
| MethodBody (body_ : Statement)
| Return (statement_ : Statement)
| ClassDefinition (class_ : ObjectHolder)
| IfElse (condition_ if_body_ : Statement) (else_body_ : option Statement)
| Comparison (cmp_ : Comparator) (lhs_ rhs_ : Statement)

with Class : Type :=
| mk_Class (name_ : string) (methods_ : list Method) (parent_ : option Class)

with Method : Type :=
| mk_Method (name : string) (formal_params : list string) (body : Statement)

with Object : Type :=
| Number (value : Z)
| String (value : string)
| Bool (value : bool)
| ClassObject (cls : Class)
| ClassInstance (address : nat) (class_ : Class)

(** [ObjectHolder]: empty, or a [shared_ptr] that owns its object ([Own]),
    or one whose deleter does nothing ([Share]).  The copies of an owning
    holder share one allocation, and the object is destroyed with the last
    of them; [allocation] tells the allocations apart. *)
with ObjectHolder : Type :=
| NoneHolder
| Own (allocation : nat) (object : Object)
| Share (object : Object).
Set Elimination Schemes.

End ast.

Abbreviation Statement := ast.Statement.
Abbreviation Class := ast.Class.
Abbreviation Method := ast.Method.
Abbreviation Object := ast.Object.
Abbreviation ObjectHolder := ast.ObjectHolder.

(* ===================================================================== *)
(** * Runtime and evaluator (runtime.cpp, statement.cpp)                  *)
(* ===================================================================== *)

Module runtime.

Definition QUOTE : string := String.String "034"%char EmptyString.

(** ** The machine: current closure, instance field tables, output sink

    Modelled from the spec: [Closure] (runtime.h, absent from the sources)
    is a mapping from identifier to holder, and [Context] gives access to
    the output sink.

    [closure] is the [Closure&] that [Execute] receives (the activation frame
    in force), [fields] maps the address of each [ClassInstance] to its
    [fields_] table, and [output] is what has been written to
    [context.GetOutputStream()].  The closure passed to [Execute] is a frame
    of its own: it is never the field table of an instance.

    [held] lists the allocations that the C++ calls in progress own besides:
    through the holders that are locals of the functions waiting for a
    nested call to return, and through the closures of the callers.
    [allocated] counts the objects that [ObjectHolder::Own] has built; it is
    the allocation of the next one. *)
Record Machine : Type := mk_Machine {
  closure : gmap string ObjectHolder;
  fields : gmap nat (gmap string ObjectHolder);
  output : string;
  held : list nat;
  allocated : nat
}.

Definition with_closure (m : Machine) (c : gmap string ObjectHolder) : Machine :=
  mk_Machine c (fields m) (output m) (held m) (allocated m).
Definition with_fields (m : Machine) (f : gmap nat (gmap string ObjectHolder))
  : Machine := mk_Machine (closure m) f (output m) (held m) (allocated m).
Definition with_output (m : Machine) (o : string) : Machine :=
  mk_Machine (closure m) (fields m) o (held m) (allocated m).
Definition with_held (m : Machine) (h : list nat) : Machine :=
  mk_Machine (closure m) (fields m) (output m) h (allocated m).
Definition with_allocated (m : Machine) (a : nat) : Machine :=
  mk_Machine (closure m) (fields m) (output m) (held m) a.

(** [ClassInstance::Fields()] of the instance at [address] *)
Definition Fields (m : Machine) (address : nat) : gmap string ObjectHolder :=
  default ∅ (fields m !! address).

(** ** Outcomes: a C++ call returns, or leaves by an exception *)
Inductive abrupt : Type :=
| ReturnSignal (result : ObjectHolder)   (* [throw ObjectHolder], see [Return] *)
| runtime_error (what : string)          (* [std::runtime_error] *)
| undefined_behaviour (what : string)    (* a null or dangling pointer
                                            dereferenced, [INT_MIN / -1] *)
| out_of_fuel.                           (* the model's bound was reached *)

Inductive outcome (A : Type) : Type :=
| Normal (a : A)
| Abrupt (e : abrupt).
Arguments Normal {A} a.
Arguments Abrupt {A} e.

Definition M (A : Type) : Type := Machine -> outcome A * Machine.

Definition ret {A : Type} (a : A) : M A := fun m => (Normal a, m).
Definition throw {A : Type} (e : abrupt) : M A := fun m => (Abrupt e, m).
Definition bind {A B : Type} (x : M A) (k : A -> M B) : M B :=
  fun m => match x m with
           | (Normal a, m') => k a m'
           | (Abrupt e, m') => (Abrupt e, m')
           end.
Notation "'let*' x := c 'in' k" := (bind c (fun x => k))
  (at level 10, x name, c at level 100, k at level 200).
Notation "c ;; k" := (bind c (fun _ => k))
  (at level 100, k at level 200, right associativity).

Definition modify (f : Machine -> Machine) : M unit := fun m => (Normal tt, f m).

(** ** Holders *)

(** [ObjectHolder::Get()]: the object, or the null pointer *)
Definition Get (h : ObjectHolder) : option Object :=
  match h with
  | ast.NoneHolder => None
  | ast.Own _ o | ast.Share o => Some o
  end.

(** [operator bool] *)
Definition is_set (h : ObjectHolder) : bool :=
  match Get h with Some _ => true | None => false end.

(** Modelled from the spec: [TryAs<T>()] (runtime.h, absent from the
    sources) is the downcast attempt, which yields the object when it is a
    [T] and the null pointer otherwise. *)
Definition TryAs_Bool (h : ObjectHolder) : option bool :=
  match Get h with Some (ast.Bool v) => Some v | _ => None end.
Definition TryAs_Number (h : ObjectHolder) : option Z :=
  match Get h with Some (ast.Number v) => Some v | _ => None end.
Definition TryAs_String (h : ObjectHolder) : option string :=
  match Get h with Some (ast.String v) => Some v | _ => None end.
Definition TryAs_Class (h : ObjectHolder) : option Class :=
  match Get h with Some (ast.ClassObject c) => Some c | _ => None end.
Definition TryAs_ClassInstance (h : ObjectHolder) : option (nat * Class) :=
  match Get h with Some (ast.ClassInstance a c) => Some (a, c) | _ => None end.

Definition IsTrue (object : ObjectHolder) : bool :=
  if negb (is_set object) then false else
  match TryAs_Bool object with
  | Some v => v
  | None =>
    match TryAs_Number object with
    | Some v => negb (v =? 0)
    | None =>
      match TryAs_String object with
      | Some v => negb (String.eqb v EmptyString)
      | None => false
      end
    end
  end.

(** ** Ownership

    Modelled from the spec: an owning holder and its copies jointly own
    their object, which lives as long as any of them ([std::shared_ptr]); a
    [Share] holder destroys nothing.  The objects that the evaluator builds
    with [ObjectHolder::Own] are numbers, strings and booleans.  Classes and
    instances belong to the program -- an instance is a member of its
    [NewInstance] node -- and outlive the evaluation, whichever holder
    refers to them. *)

(** [ObjectHolder::Own(T&&)]: a new object, owned by the holder returned *)
Definition Own (object : Object) : M ObjectHolder :=
  fun m => (Normal (ast.Own (allocated m) object),
            with_allocated m (S (allocated m))).

(** The allocation of the value that [h] owns, if it owns one *)
Definition allocation (h : ObjectHolder) : option nat :=
  match h with
  | ast.Own a (ast.Number _ | ast.String _ | ast.Bool _) => Some a
  | _ => None
  end.

Definition allocations (holders : list ObjectHolder) : list nat :=
  omap allocation holders.

(** The holders that a closure stores *)
Definition stored (c : gmap string ObjectHolder) : list ObjectHolder :=
  snd <$> map_to_list c.

Definition Closure_owns (c : gmap string ObjectHolder) (a : nat) : bool :=
  existsb (Nat.eqb a) (allocations (stored c)).

(** Some holder other than a temporary owns the allocation [a]: a local of
    a call in progress or the closure of a caller, the closure in force, or
    a field of an instance. *)
Definition owned (m : Machine) (a : nat) : bool :=
  existsb (Nat.eqb a) (held m)
  || Closure_owns (closure m) a
  || existsb (fun instance => Closure_owns (snd instance) a)
             (map_to_list (fields m)).

(** The object of the temporary [holder] is destroyed together with it: it
    is a number, a string or a boolean that no other holder owns. *)
Definition destroyed_with (holder : ObjectHolder) (m : Machine) : bool :=
  match allocation holder with
  | Some a => negb (owned m a)
  | None => false
  end.

(** What a call through a dangling pointer ends in *)
Definition read_after_destruction : abrupt :=
  undefined_behaviour "the object was destroyed with its holder".

(** A member function called through the pointer that [Get()] or
    [TryAs<T>()] took out of the temporary [holder]; the temporary is
    destroyed at the end of the full expression that took the pointer. *)
Definition through_pointer_of {A : Type} (holder : ObjectHolder) (member : M A)
  : M A :=
  fun m =>
    if destroyed_with holder m
    then (Abrupt read_after_destruction, m)
    else member m.

(** Run [x] while the holders [locals] of the calling function are alive *)
Definition holding {A : Type} (locals : list ObjectHolder) (x : M A) : M A :=
  fun m =>
    let (r, m') := x (with_held m (allocations locals ++ held m)) in
    (r, with_held m' (held m)).

(** ** Classes *)

Definition name (m : Method) : string :=
  match m with ast.mk_Method n _ _ => n end.
Definition formal_params (m : Method) : list string :=
  match m with ast.mk_Method _ ps _ => ps end.
Definition body (m : Method) : Statement :=
  match m with ast.mk_Method _ _ b => b end.
Definition name_ (c : Class) : string :=
  match c with ast.mk_Class n _ _ => n end.

(** The constructor's loop [table_methods_[method.name] = &method]: a later
    method replaces an earlier one of the same name. *)
Definition table_methods_ (methods : list Method) : gmap string Method :=
  foldl (fun table method => <[name method := method]> table) ∅ methods.

Fixpoint GetMethod (c : Class) (name : string) : option Method :=
  match c with
  | ast.mk_Class _ methods parent =>
      match table_methods_ methods !! name with
      | Some method => Some method
      | None =>
          match parent with
          | Some p => GetMethod p name
          | None => None
          end
      end
  end.

Definition GetName (c : Class) : M string :=
  if String.eqb (name_ c) EmptyString
  then throw (runtime_error "Name class is empty")
  else ret (name_ c).

(** [ClassInstance::HasMethod] *)
Definition HasMethod (class_ : Class) (method : string) (argument_count : nat) : bool :=
  match GetMethod class_ method with
  | Some method_ptr => Nat.eqb argument_count (length (formal_params method_ptr))
  | None => false
  end.

(** [current_obj_and_his_methods[formal_params[i]] = actual_args[i]] *)
Fixpoint bind_formal_params (params : list string) (actual_args : list ObjectHolder)
    (frame : gmap string ObjectHolder) : gmap string ObjectHolder :=
  match params, actual_args with
  | p :: params', a :: actual_args' =>
      bind_formal_params params' actual_args' (<[p := a]> frame)
  | _, _ => frame
  end.

(** Run [x] against a closure of its own; the caller's closure, which
    goes on owning what it stores, is in force again afterwards, also when
    [x] leaves by an exception. *)
Definition in_frame {A : Type} (frame : gmap string ObjectHolder) (x : M A) : M A :=
  fun m =>
    let (r, m') :=
      x (with_held (with_closure m frame)
                   (allocations (stored (closure m)) ++ held m)) in
    (r, with_held (with_closure m' (closure m)) (held m)).

Section Evaluator.

(** [Executable::Execute] of the bodies that are called, and [Object::Print]
    of the values that are printed: the two recursive entry points, tied by
    [Execute] and [ObjectPrint] below. *)
Variable exec : Statement -> M ObjectHolder.
Variable print : Object -> M string.

(** [ClassInstance::Call] on the instance at [address] *)
Definition Call (address : nat) (class_ : Class) (method : string)
    (actual_args : list ObjectHolder) : M ObjectHolder :=
  if negb (HasMethod class_ method (length actual_args)) then
    throw (runtime_error
             ("The " +:+ QUOTE +:+ method +:+ QUOTE +:+ " method was not found"))
  else
    let current_obj_and_his_methods : gmap string ObjectHolder :=
      <["self" := ast.Share (ast.ClassInstance address class_)]> ∅ in
    match GetMethod class_ method with
    | None => throw (undefined_behaviour "method_ptr is null")
    | Some method_ptr =>
        if (length actual_args <? length (formal_params method_ptr))%nat then
          throw (runtime_error "More arguments are expected")
        else
          in_frame (bind_formal_params (formal_params method_ptr) actual_args
                                       current_obj_and_his_methods)
                   (exec (body method_ptr))
    end.

(** The text that [os << this] writes is implementation defined; the model
    writes the address in decimal after [0x]. *)
Definition pointer_text (address : nat) : string := "0x" +:+ pretty (N.of_nat address).

(** Modelled from the spec: [Number::Print] and [String::Print] (the
    [ValueObject<T>::Print] of runtime.h, absent from the sources) write the
    payload; [Bool::Print], [Class::Print] and [ClassInstance::Print] are
    those of runtime.cpp. *)
Definition Object_Print (o : Object) : M string :=
  match o with
  | ast.Number v => ret (pretty v)
  | ast.String v => ret v
  | ast.Bool v => ret (if v then "True" else "False")
  | ast.ClassObject c => ret ("Class " +:+ name_ c)
  | ast.ClassInstance address class_ =>
      if HasMethod class_ "__str__" 0 then
        let* r := Call address class_ "__str__" [] in
        match Get r with
        | Some o' => holding [r] (print o')
        | None => throw (undefined_behaviour "AssertIsValid")
        end
      else ret (pointer_text address)
  end.

(** ** Comparison (runtime.cpp) *)

Definition Equal (lhs rhs : ObjectHolder) : M bool :=
  if negb (is_set lhs) && negb (is_set rhs) then ret true else
  match TryAs_Bool lhs, TryAs_Bool rhs with
  | Some a, Some b => ret (Bool.eqb a b)
  | _, _ =>
  match TryAs_Number lhs, TryAs_Number rhs with
  | Some a, Some b => ret (a =? b)
  | _, _ =>
  match TryAs_String lhs, TryAs_String rhs with
  | Some a, Some b => ret (String.eqb a b)
  | _, _ =>
  match TryAs_ClassInstance lhs with
  | Some (address, class_) =>
      if HasMethod class_ "__eq__" 1 then
        let* r := Call address class_ "__eq__" [rhs] in
        match TryAs_Bool r with
        | Some v => ret v
        | None => throw (undefined_behaviour "TryAs<Bool>() is null")
        end
      else throw (runtime_error "Cannot compare objects for equality")
  | None => throw (runtime_error "Cannot compare objects for equality")
  end end end end.

Definition Less (lhs rhs : ObjectHolder) : M bool :=
  match TryAs_Bool lhs, TryAs_Bool rhs with
  | Some a, Some b => ret (negb a && b)
  | _, _ =>
  match TryAs_Number lhs, TryAs_Number rhs with
  | Some a, Some b => ret (a <? b)
  | _, _ =>
  match TryAs_String lhs, TryAs_String rhs with
  | Some a, Some b => ret (String.ltb a b)
  | _, _ =>
  match TryAs_ClassInstance lhs with
  | Some (address, class_) =>
      if HasMethod class_ "__lt__" 1 then
        let* r := Call address class_ "__lt__" [rhs] in
        match TryAs_Bool r with
        | Some v => ret v
        | None => throw (undefined_behaviour "TryAs<Bool>() is null")
        end
      else throw (runtime_error "Cannot compare objects for less")
  | None => throw (runtime_error "Cannot compare objects for less")
  end end end end.

Definition NotEqual (lhs rhs : ObjectHolder) : M bool :=
  let* e := Equal lhs rhs in ret (negb e).

Definition Greater (lhs rhs : ObjectHolder) : M bool :=
  let* l := Less lhs rhs in
  if l then ret false else NotEqual lhs rhs.

Definition LessOrEqual (lhs rhs : ObjectHolder) : M bool :=
  let* l := Less lhs rhs in
  if l then ret true else Equal lhs rhs.

Definition GreaterOrEqual (lhs rhs : ObjectHolder) : M bool :=
  let* l := Less lhs rhs in ret (negb l).

Definition apply_Comparator (cmp : ast.Comparator) : ObjectHolder -> ObjectHolder -> M bool :=
  match cmp with
  | ast.Equal => Equal
  | ast.NotEqual => NotEqual
  | ast.Less => Less
  | ast.Greater => Greater
  | ast.LessOrEqual => LessOrEqual
  | ast.GreaterOrEqual => GreaterOrEqual
  end.

(** ** Statements (statement.cpp) *)

(** The loop of [VariableValue::Execute] over the identifiers that remain;
    [rest = []] is the test [i == ids_count - 1].  Nothing happens for an
    identifier that [new_closure] does not hold, nor is [new_closure]
    replaced when the value found is not an instance. *)
Fixpoint VariableValue_loop (m : Machine) (dotted_ids : list string)
    (new_closure : gmap string ObjectHolder) : outcome ObjectHolder :=
  match dotted_ids with
  | [] => Abrupt (runtime_error
      ("Unexpected error of the " +:+ QUOTE +:+ "VariableValue::Execute"
         +:+ QUOTE +:+ " method"))   (* the [throw] after the loop *)
  | id :: rest =>
      match new_closure !! id with
      | Some holder =>
          match rest with
          | [] => Normal holder
          | _ =>
              match TryAs_ClassInstance holder with
              | Some (address, _) => VariableValue_loop m rest (Fields m address)
              | None => VariableValue_loop m rest new_closure
              end
          end
      | None => VariableValue_loop m rest new_closure
      end
  end.

Definition VariableValue_Execute (dotted_ids_ : list string) : M ObjectHolder :=
  fun m => (VariableValue_loop m dotted_ids_ (closure m), m).

Definition closure_assign (key : string) (value : ObjectHolder) : M unit :=
  modify (fun m => with_closure m (<[key := value]> (closure m))).

Definition Assignment_Execute (variable_name_ : string) (r_value_ : Statement)
  : M ObjectHolder :=
  let* value := exec r_value_ in
  closure_assign variable_name_ value ;;
  ret value.

(** [Fields()[field_name_]]: [operator[]] inserts an empty holder when the
    key is missing *)
Definition Fields_subscript (address : nat) (field_name_ : string) : M unit :=
  modify (fun m =>
    match Fields m address !! field_name_ with
    | Some _ => m
    | None => with_fields m
        (<[address := <[field_name_ := ast.NoneHolder]> (Fields m address)]> (fields m))
    end).

Definition Fields_assign (address : nat) (field_name_ : string)
    (value : ObjectHolder) : M unit :=
  modify (fun m => with_fields m
    (<[address := <[field_name_ := value]> (Fields m address)]> (fields m))).

Definition FieldAssignment_Execute (object_ : list string) (field_name_ : string)
    (r_value_ : Statement) : M ObjectHolder :=
  let* obj := VariableValue_Execute object_ in
  match TryAs_ClassInstance obj with
  | None =>
      throw (runtime_error "FieldAssignment::Execute. The object is not a custom type")
  | Some (address, _) =>
      Fields_subscript address field_name_ ;;
      let* field := holding [obj] (exec r_value_) in
      Fields_assign address field_name_ field ;;
      closure_assign field_name_ field ;;
      ret field
  end.

Definition None_Execute : M ObjectHolder := ret ast.NoneHolder.

(** The loop of [Print::Execute]; [os] is the local [ostringstream] *)
Fixpoint Print_loop (args : list Statement) (first : bool) (os : string) : M string :=
  match args with
  | [] => ret os
  | arg :: rest =>
      let os := if first then os else os +:+ " " in
      let* oh := exec arg in
      let* text := match Get oh with
                   | Some obj => holding [oh] (print obj)
                   | None => ret "None"
                   end in
      Print_loop rest false (os +:+ text)
  end.

Definition endl : string := String.String "010"%char EmptyString.

Definition Print_Execute (args_ : list Statement) : M ObjectHolder :=
  let* os := Print_loop args_ true EmptyString in
  modify (fun m => with_output m (output m +:+ os +:+ endl)) ;;
  Own (ast.String os).

(** [for (arg : args_) actual_args.push_back(arg->Execute(closure, context))]:
    the values pushed so far are held while the next argument is executed *)
Fixpoint Execute_args (args : list Statement) : M (list ObjectHolder) :=
  match args with
  | [] => ret []
  | arg :: rest =>
      let* v := exec arg in
      let* vs := holding [v] (Execute_args rest) in
      ret (v :: vs)
  end.

(** [class_instance] is taken out of the temporary that [object_->Execute]
    returns; an instance outlives its holders. *)
Definition MethodCall_Execute (object_ : Statement) (method_ : string)
    (args_ : list Statement) : M ObjectHolder :=
  let* oh := exec object_ in
  match TryAs_ClassInstance oh with
  | None => throw (runtime_error "MethodCall::Execute. The object is not a custom type")
  | Some (address, class_) =>
      if negb (HasMethod class_ method_ (length args_)) then
        throw (runtime_error
          ("MethodCall::Execute. The class does not have a " +:+ QUOTE +:+ method_
             +:+ QUOTE +:+ " method with " +:+ pretty (N.of_nat (length args_))
             +:+ " arguments"))
      else
        let* actual_args := Execute_args args_ in
        holding actual_args (Call address class_ method_ actual_args)
  end.

Definition INIT_METHOD : string := "__init__".
Definition ADD_METHOD : string := "__add__".

(** [class_instance_] is a member of the node: the instance at the node's
    own address, built with an empty field table when the node is built *)
Definition NewInstance_Execute (class_instance_ : nat) (class_ : Class)
    (args_ : list Statement) : M ObjectHolder :=
  (if HasMethod class_ INIT_METHOD (length args_) then
     let* actual_args := Execute_args args_ in
     holding actual_args (Call class_instance_ class_ INIT_METHOD actual_args) ;;
     ret tt
   else ret tt) ;;
  ret (ast.Share (ast.ClassInstance class_instance_ class_)).

(** [obj_ptr] is taken out of the temporary that [argument_->Execute]
    returns, and [Print] is called through it in a later statement. *)
Definition Stringify_Execute (argument_ : Statement) : M ObjectHolder :=
  let* oh := exec argument_ in
  let* out := match Get oh with
              | None => ret "None"
              | Some obj => through_pointer_of oh (print obj)
              end in
  Own (ast.String out).

(** [int] arithmetic, wrapping around at 32 bits *)
Definition int32 (z : Z) : Z := (z + 2147483648) mod 4294967296 - 2147483648.

(** [lhs_oh] and [rhs_oh] are locals of [Execute]: the first is alive
    while the right operand is executed, and both while [__add__] runs. *)
Definition Add_Execute (lhs_ rhs_ : Statement) : M ObjectHolder :=
  let* lhs_oh := exec lhs_ in
  let* rhs_oh := holding [lhs_oh] (exec rhs_) in
  let failed := throw (runtime_error "Add::Execute is failed") in
  match TryAs_Number lhs_oh with
  | Some lhs_n =>
      match TryAs_Number rhs_oh with
      | Some rhs_n => Own (ast.Number (int32 (lhs_n + rhs_n)))
      | None => failed
      end
  | None =>
    match TryAs_String lhs_oh with
    | Some lhs_s =>
        match TryAs_String rhs_oh with
        | Some rhs_s => Own (ast.String (lhs_s +:+ rhs_s))
        | None => failed
        end
    | None =>
      match TryAs_ClassInstance lhs_oh with
      | Some (address, class_) =>
          if HasMethod class_ ADD_METHOD 1
          then holding [lhs_oh; rhs_oh] (Call address class_ ADD_METHOD [rhs_oh])
          else failed
      | None => failed
      end
    end
  end.

(** [Sub], [Mult] and [Div]: [op] is the statement that computes [val] from
    the two numbers; for a zero divisor [Div] falls through to the [throw]
    at the end of the function. *)
Definition arithmetic (what : string) (op : Z -> Z -> M Z)
    (lhs_ rhs_ : Statement) : M ObjectHolder :=
  let* lhs_oh := exec lhs_ in
  let* rhs_oh := holding [lhs_oh] (exec rhs_) in
  match TryAs_Number lhs_oh, TryAs_Number rhs_oh with
  | Some lhs_n, Some rhs_n =>
      let* val := op lhs_n rhs_n in
      Own (ast.Number val)
  | _, _ => throw (runtime_error what)
  end.

Definition Sub_Execute : Statement -> Statement -> M ObjectHolder :=
  arithmetic "Sub::Execute is failed" (fun a b => ret (int32 (a - b))).
Definition Mult_Execute : Statement -> Statement -> M ObjectHolder :=
  arithmetic "Mult::Execute is failed" (fun a b => ret (int32 (a * b))).

(** [lhs / rhs_val] on [int]: the quotient of [INT_MIN] by -1 is not
    representable, and the division traps. *)
Definition Div_Execute : Statement -> Statement -> M ObjectHolder :=
  arithmetic "Div::Execute is failed"
    (fun a b =>
       if b =? 0 then throw (runtime_error "Div::Execute is failed")
       else if (a =? -2147483648) && (b =? -1)
       then throw (undefined_behaviour "INT_MIN / -1")
       else ret (int32 (Z.quot a b))).

(** [ptr && ptr->GetValue()] on the result of [TryAs<runtime::Bool>()] *)
Definition is_true_Bool (h : ObjectHolder) : bool :=
  match TryAs_Bool h with Some v => v | None => false end.

(** The same test in [Or] and [And], where [ptr] was taken out of the
    temporary [holder] that [Execute] returned: [GetValue] is called only
    when [ptr] is not null. *)
Definition is_true_Bool_of_temporary (holder : ObjectHolder) : M bool :=
  match TryAs_Bool holder with
  | Some v => through_pointer_of holder (ret v)
  | None => ret false
  end.

Definition Or_Execute (lhs_ rhs_ : Statement) : M ObjectHolder :=
  let* lhs := exec lhs_ in
  let* lhs_true := is_true_Bool_of_temporary lhs in
  if lhs_true then Own (ast.Bool true) else
  let* rhs := exec rhs_ in
  let* rhs_true := is_true_Bool_of_temporary rhs in
  if rhs_true then Own (ast.Bool true) else
  Own (ast.Bool false).

Definition And_Execute (lhs_ rhs_ : Statement) : M ObjectHolder :=
  let* lhs := exec lhs_ in
  let* lhs_true := is_true_Bool_of_temporary lhs in
  if negb lhs_true then Own (ast.Bool false) else
  let* rhs := exec rhs_ in
  let* rhs_true := is_true_Bool_of_temporary rhs in
  if negb rhs_true then Own (ast.Bool false) else
  Own (ast.Bool true).

Definition Not_Execute (argument_ : Statement) : M ObjectHolder :=
  let* arg := exec argument_ in
  match TryAs_Bool arg with
  | None => throw (runtime_error
      ("Not::Execute. The argument cannot be cast to the " +:+ QUOTE
         +:+ "runtime::Bool" +:+ QUOTE +:+ " type"))
  | Some v => through_pointer_of arg (Own (ast.Bool (negb v)))
  end.

Fixpoint Compound_Execute (statements_ : list Statement) : M ObjectHolder :=
  match statements_ with
  | [] => ret ast.NoneHolder
  | statement :: rest => exec statement ;; Compound_Execute rest
  end.

(** [try { return body_->Execute(..); } catch (ObjectHolder result) { return result; }] *)
Definition MethodBody_Execute (body_ : Statement) : M ObjectHolder :=
  fun m =>
    match exec body_ m with
    | (Abrupt (ReturnSignal result), m') => (Normal result, m')
    | other => other
    end.

(** [throw statement_->Execute(closure, context);] *)
Definition Return_Execute (statement_ : Statement) : M ObjectHolder :=
  let* result := exec statement_ in
  throw (ReturnSignal result).

Definition ClassDefinition_Execute (class_ : ObjectHolder) : M ObjectHolder :=
  match TryAs_Class class_ with
  | None => throw (undefined_behaviour "TryAs<Class>() is null")
  | Some cls =>
      let* key := GetName cls in
      closure_assign key class_ ;;
      ret class_
  end.

Definition IfElse_Execute (condition_ if_body_ : Statement)
    (else_body_ : option Statement) : M ObjectHolder :=
  let* condition := exec condition_ in
  match TryAs_Bool condition with
  | Some b =>
      if b then holding [condition] (exec if_body_)
      else match else_body_ with
           | Some else_body => holding [condition] (exec else_body)
           | None => ret ast.NoneHolder
           end
  | None => throw (runtime_error "Execute is failed")
  end.

Definition Comparison_Execute (cmp_ : ast.Comparator) (lhs_ rhs_ : Statement)
  : M ObjectHolder :=
  let* lhs := exec lhs_ in
  let* rhs := holding [lhs] (exec rhs_) in
  let* result := holding [lhs; rhs] (apply_Comparator cmp_ lhs rhs) in
  Own (ast.Bool result).

(** Dispatch on the dynamic type of the node *)
Definition Execute_node (s : Statement) : M ObjectHolder :=
  match s with
  | ast.VariableValue ids => VariableValue_Execute ids
  | ast.Assignment var rv => Assignment_Execute var rv
  | ast.FieldAssignment object field rv => FieldAssignment_Execute object field rv
  | ast.None => None_Execute
  | ast.Print args => Print_Execute args
  | ast.MethodCall object method args => MethodCall_Execute object method args
  | ast.NewInstance address class_ args => NewInstance_Execute address class_ args
  | ast.Stringify arg => Stringify_Execute arg
  | ast.Add l r => Add_Execute l r
  | ast.Sub l r => Sub_Execute l r
  | ast.Mult l r => Mult_Execute l r
  | ast.Div l r => Div_Execute l r
  | ast.Or l r => Or_Execute l r
  | ast.And l r => And_Execute l r
  | ast.Not arg => Not_Execute arg
  | ast.Compound statements => Compound_Execute statements
  | ast.MethodBody body_ => MethodBody_Execute body_
  | ast.Return statement => Return_Execute statement
  | ast.ClassDefinition class_ => ClassDefinition_Execute class_
  | ast.IfElse condition if_body else_body => IfElse_Execute condition if_body else_body
  | ast.Comparison cmp l r => Comparison_Execute cmp l r
  end.

End Evaluator.

(** ** Tying the knot

    A guest program need not terminate (a method may call itself), so the
    two entry points recurse on [fuel], the depth of nested [Execute] and
    [Print] calls that is allowed; [out_of_fuel] reports that it was used up. *)
Fixpoint Execute (fuel : nat) (s : Statement) {struct fuel} : M ObjectHolder :=
  match fuel with
  | O => throw out_of_fuel
  | S n => Execute_node (Execute n) (ObjectPrint n) s
  end
with ObjectPrint (fuel : nat) (o : Object) {struct fuel} : M string :=
  match fuel with
  | O => throw out_of_fuel
  | S n => Object_Print (Execute n) (ObjectPrint n) o
  end.

(** ** Vocabulary for the statements about the evaluator *)

Definition unexpected_VariableValue : string :=
  "Unexpected error of the " +:+ QUOTE +:+ "VariableValue::Execute"
    +:+ QUOTE +:+ " method".

(** [resolves m c ids h]: every identifier of the chain [ids] is bound at
    its lookup point -- the first one in [c], each later one in the field
    table of the instance that the one before it is bound to -- and the
    last one is bound to [h]. *)
Inductive resolves (m : Machine)
  : gmap string ObjectHolder -> list string -> ObjectHolder -> Prop :=
| resolves_last (c : gmap string ObjectHolder) id h :
    c !! id = Some h ->
    resolves m c [id] h
| resolves_field (c : gmap string ObjectHolder) id holder address class_ id' rest h :
    c !! id = Some holder ->
    TryAs_ClassInstance holder = Some (address, class_) ->
    resolves m (Fields m address) (id' :: rest) h ->
    resolves m c (id :: id' :: rest) h.

(** [refines x y]: whatever [x] computes without running out of fuel, [y]
    computes as well. *)
Definition refines {A : Type} (x y : M A) : Prop :=
  forall m r m', x m = (r, m') -> r <> Abrupt out_of_fuel -> y m = (r, m').

(** Two holders of the same primitive kind *)
Definition same_primitive_kind (a b : ObjectHolder) : bool :=
  match Get a, Get b with
  | Some (ast.Number _), Some (ast.Number _)
  | Some (ast.String _), Some (ast.String _)
  | Some (ast.Bool _), Some (ast.Bool _) => true
  | _, _ => false
  end.

(** Objects whose [Print] runs no method, and what it writes for them *)
Definition prints_plainly (o : Object) : bool :=
  match o with
  | ast.ClassInstance _ class_ => negb (HasMethod class_ "__str__" 0)
  | _ => true
  end.

Definition plain_text (o : Object) : string :=
  match o with
  | ast.Number v => pretty v
  | ast.String v => v
  | ast.Bool v => if v then "True" else "False"
  | ast.ClassObject c => "Class " +:+ name_ c
  | ast.ClassInstance address _ => pointer_text address
  end.

(** An empty machine: no binding, no field, nothing written *)
Definition empty_Machine : Machine := mk_Machine ∅ ∅ EmptyString [] 0.

(** ** Vocabulary for what the evaluator leaves in place *)

(** From [m] to [m'] the output has only been appended to, and no binding
    of the closure and no field of any instance has disappeared. *)
Definition extends_output (m m' : Machine) : Prop :=
  exists suffix, output m' = output m +:+ suffix.
Definition keeps_bindings (m m' : Machine) : Prop :=
  forall x, is_Some (closure m !! x) -> is_Some (closure m' !! x).
Definition keeps_fields (m m' : Machine) : Prop :=
  forall address f, is_Some (Fields m address !! f) ->
                    is_Some (Fields m' address !! f).
Definition grows (m m' : Machine) : Prop :=
  extends_output m m' /\ keeps_bindings m m' /\ keeps_fields m m'.

Definition growing {A : Type} (x : M A) : Prop :=
  forall m r m', x m = (r, m') -> grows m m'.

(** The frame that [Call] builds for a method *)
Definition method_frame (address : nat) (class_ : Class) (method_ptr : Method)
    (actual_args : list ObjectHolder) : gmap string ObjectHolder :=
  bind_formal_params (formal_params method_ptr) actual_args
    (<["self" := ast.Share (ast.ClassInstance address class_)]> ∅).

(** ** Vocabulary for ownership *)

(** The allocation of [h], if it has one, was made by [Own]; and so was
    every allocation that some holder of the machine owns. *)
Definition allocated_in (m : Machine) (h : ObjectHolder) : Prop :=
  forall a, allocation h = Some a -> (a < allocated m)%nat.

Definition well_allocated (m : Machine) : Prop :=
  forall a, owned m a = true -> (a < allocated m)%nat.

(** The holders that an outcome carries *)
Definition outcome_allocated {A : Type} (holders_in : A -> list ObjectHolder)
    (r : outcome A) (m : Machine) : Prop :=
  match r with
  | Normal a => Forall (allocated_in m) (holders_in a)
  | Abrupt (ReturnSignal result) => allocated_in m result
  | Abrupt _ => True
  end.

(** [keeps_allocation holders_in known x]: run from a well allocated machine
    in which the holders [known] are allocated, [x] leaves a well allocated
    machine, with the same [held] and a counter that has not gone down, and
    the holders of its outcome are allocated. *)
Definition keeps_allocation {A : Type} (holders_in : A -> list ObjectHolder)
    (known : list ObjectHolder) (x : M A) : Prop :=
  forall m r m',
    x m = (r, m') -> well_allocated m -> Forall (allocated_in m) known ->
    well_allocated m' /\ held m' = held m
    /\ (allocated m <= allocated m')%nat
    /\ outcome_allocated holders_in r m'.

(** [h] is allocated wherever the holders [known] are *)
Definition follows (known : list ObjectHolder) (h : ObjectHolder) : Prop :=
  forall m, Forall (allocated_in m) known -> allocated_in m h.

Definition the_holder (h : ObjectHolder) : list ObjectHolder := [h].
Definition no_holder {A : Type} (_ : A) : list ObjectHolder := [].
Definition the_holders (hs : list ObjectHolder) : list ObjectHolder := hs.

(** [x] returns nothing but a [Bool] that it has just built and that no
    holder of the machine owns *)
Definition builds_unowned_Bool (known : list ObjectHolder) (x : M ObjectHolder)
  : Prop :=
  forall m h m',
    x m = (Normal h, m') -> well_allocated m -> Forall (allocated_in m) known ->
    exists a v, h = ast.Own a (ast.Bool v) /\ owned m' a = false.

(** The nodes whose result is a [Bool] built by the node itself *)
Definition builds_Bool (s : Statement) : bool :=
  match s with
  | ast.Comparison _ _ _ | ast.Or _ _ | ast.And _ _ | ast.Not _ => true
  | _ => false
  end.

End runtime.

(* ===================================================================== *)
(** * Programs and machines used in the examples                          *)
(* ===================================================================== *)

Module scenario.
Import runtime.

(** A class without methods, and an instance of it at address 0 *)
Definition Empty : Class := ast.mk_Class "Empty" [] None.
Definition object : ObjectHolder := ast.Share (ast.ClassInstance 0 Empty).

(** [self.v = w] in a frame that already has a local [v] *)
Definition assign_v : Statement :=
  ast.FieldAssignment ["self"] "v" (ast.VariableValue ["w"]).
Definition frame_v_w : Machine :=
  mk_Machine (<["self" := object]>
               (<["v" := ast.Own 0 (ast.Number 1)]>
                 (<["w" := ast.Own 1 (ast.Number 2)]> ∅)))
             ∅ EmptyString [] 2.

(** [x.y] in a closure that binds [y] but not [x] *)
Definition x_dot_y : Statement := ast.VariableValue ["x"; "y"].
Definition only_y : Machine :=
  mk_Machine (<["y" := ast.Own 0 (ast.Number 5)]> ∅) ∅ EmptyString [] 1.

(** [class E: def __eq__(self, other): return other] *)
Definition E : Class :=
  ast.mk_Class "E"
    [ast.mk_Method "__eq__" ["other"]
       (ast.MethodBody (ast.Return (ast.VariableValue ["other"])))]
    None.
Definition e : ObjectHolder := ast.Share (ast.ClassInstance 0 E).

(** [class Loud: def __str__(self): return print] -- the method writes an
    empty line and returns the text it printed *)
Definition Loud : Class :=
  ast.mk_Class "Loud"
    [ast.mk_Method "__str__" [] (ast.MethodBody (ast.Return (ast.Print [])))]
    None.
Definition loud_x : Machine :=
  mk_Machine (<["x" := ast.Share (ast.ClassInstance 0 Loud)]> ∅) ∅ EmptyString
             [] 0.
Definition str_x : Statement := ast.Stringify (ast.VariableValue ["x"]).

(** [class Maker: def make(self): return Empty()] where the node [Empty()]
    owns the instance at address 7, and the program
    [p = a.make(); p.v = a; q = a.make()] run with [a] bound to a [Maker] *)
Definition new_Empty : Statement := ast.NewInstance 7 Empty [].
Definition Maker : Class :=
  ast.mk_Class "Maker"
    [ast.mk_Method "make" [] (ast.MethodBody (ast.Return new_Empty))]
    None.
Definition call_make : Statement :=
  ast.MethodCall (ast.VariableValue ["a"]) "make" [].
Definition make_twice_before : Statement :=
  ast.Compound
    [ast.Assignment "p" call_make;
     ast.FieldAssignment ["p"] "v" (ast.VariableValue ["a"])].
Definition maker_a : Machine :=
  mk_Machine (<["a" := ast.Share (ast.ClassInstance 1 Maker)]> ∅) ∅ EmptyString
             [] 0.
Definition after_first_make : Machine :=
  snd (Execute 6 make_twice_before maker_a).
Definition second_make : Statement := ast.Assignment "q" call_make.

(** [class Init0: def __init__(self): ...], built with one argument that
    would print if it were evaluated *)
Definition Init0 : Class :=
  ast.mk_Class "Init0" [ast.mk_Method "__init__" [] (ast.MethodBody ast.None)] None.
Definition new_Init0_with_arg : Statement :=
  ast.NewInstance 3 Init0 [ast.Print []].

(** A method body that returns from inside a nested [if] *)
Definition nested_return : Statement :=
  ast.MethodBody
    (ast.Compound
       [ast.IfElse (ast.VariableValue ["t"])
                   (ast.Compound [ast.Return (ast.VariableValue ["r"])])
                   None;
        ast.Assignment "after" (ast.VariableValue ["t"])]).
Definition frame_t_r : Machine :=
  mk_Machine (<["t" := ast.Own 0 (ast.Bool true)]>
               (<["r" := ast.Own 1 (ast.Number 7)]> ∅))
             ∅ EmptyString [] 2.

(** [x < y or f] and [str(x + y)] in a frame where [x], [y] and [f] are
    bound to 1, 2 and [False] *)
Definition x_y_f : Machine :=
  mk_Machine (<["x" := ast.Own 0 (ast.Number 1)]>
               (<["y" := ast.Own 1 (ast.Number 2)]>
                 (<["f" := ast.Own 2 (ast.Bool false)]> ∅)))
             ∅ EmptyString [] 3.
Definition x_lt_y : Statement :=
  ast.Comparison ast.Less (ast.VariableValue ["x"]) (ast.VariableValue ["y"]).
Definition x_lt_y_or_f : Statement := ast.Or x_lt_y (ast.VariableValue ["f"]).
Definition x_plus_y : Statement :=
  ast.Add (ast.VariableValue ["x"]) (ast.VariableValue ["y"]).


End scenario.
(* ===================================================================== *)
(** * Facts about the lexer                                               *)
(* ===================================================================== *)

Section LexerFacts.
Import parse.

Lemma length_spaces_app n rest :
  String.length (spaces n +:+ rest) = (n + String.length rest)%nat.
Proof. induction n; simpl; [reflexivity | now rewrite IHn]. Qed.

Lemma count_spaces_spec n : forall rounds s rest c,
  good s = true ->
  rdbuf s = spaces n +:+ rest ->
  starts_with_space rest = false ->
  (n < rounds)%nat ->
  0 <= c < 65536 ->
  count_spaces rounds s c = ((c + Z.of_nat n) mod 65536, after_peek s rest).
Proof.
  induction n as [|n IH]; intros rounds s rest c Hg Hb Hr Hlt Hc.
  - destruct rounds as [|k]; [lia|]. simpl in Hb. simpl.
    unfold peek. rewrite Hg, Hb.
    destruct rest as [|d r]; simpl.
    + rewrite Z.add_0_r, Z.mod_small by lia.
      destruct s; simpl in *; subst; reflexivity.
    + simpl in Hr. unfold peek_is. rewrite Hr.
      rewrite Z.add_0_r, Z.mod_small by lia.
      destruct s; simpl in *; subst; reflexivity.
  - destruct rounds as [|k]; [lia|]. simpl in Hb. simpl.
    unfold peek. rewrite Hg, Hb. simpl.
    unfold get. rewrite Hg, Hb. simpl.
    assert (Hu : 0 <= uint16 (c + 1) < 65536)
      by (unfold uint16; apply Z.mod_pos_bound; lia).
    rewrite (IH k (with_buf s (spaces n +:+ rest)) rest (uint16 (c + 1))
               Hg eq_refl Hr ltac:(lia) Hu).
    unfold uint16. f_equal.
    rewrite Zplus_mod_idemp_l. f_equal. lia.
Qed.

Lemma skip_spaces_spec n : forall rounds s rest,
  good s = true ->
  rdbuf s = spaces n +:+ rest ->
  starts_with_space rest = false ->
  (n < rounds)%nat ->
  skip_spaces rounds s = after_peek s rest.
Proof.
  induction n as [|n IH]; intros rounds s rest Hg Hb Hr Hlt.
  - destruct rounds as [|k]; [lia|]. simpl in Hb. simpl.
    unfold peek. rewrite Hg, Hb.
    destruct rest as [|d r]; simpl.
    + destruct s; simpl in *; subst; reflexivity.
    + simpl in Hr. unfold peek_is. rewrite Hr.
      destruct s; simpl in *; subst; reflexivity.
  - destruct rounds as [|k]; [lia|]. simpl in Hb. simpl.
    unfold peek. rewrite Hg, Hb. simpl.
    unfold get. rewrite Hg, Hb. simpl.
    rewrite (IH k (with_buf s (spaces n +:+ rest)) rest Hg eq_refl Hr ltac:(lia)).
    destruct rest; reflexivity.
Qed.

(** Every buffer splits into its leading spaces and a rest that starts
    with something else. *)
Lemma split_leading_spaces (b : string) :
  exists n rest, b = spaces n +:+ rest /\ starts_with_space rest = false.
Proof.
  induction b as [|c b IH].
  - exists O, EmptyString. split; reflexivity.
  - destruct (char_eqb c SPACE) eqn:E.
    + destruct IH as (n & rest & -> & Hr).
      apply Ascii.eqb_eq in E. subst c.
      exists (S n), rest. split; [reflexivity | assumption].
    + exists O, (String.String c b). split; [reflexivity | exact E].
Qed.

Lemma spaces_add n m rest : spaces n +:+ (spaces m +:+ rest) = spaces (n + m) +:+ rest.
Proof.
  induction n as [|n IH]; [reflexivity|].
  change (String.String SPACE (spaces n +:+ (spaces m +:+ rest))
          = String.String SPACE (spaces (n + m) +:+ rest)).
  now rewrite IH.
Qed.

Lemma RemovingSpaces_leading n (input : string) :
  RemovingSpacesBeforeTokens (new_Lexer (spaces n +:+ input))
  = RemovingSpacesBeforeTokens (new_Lexer input).
Proof.
  destruct (split_leading_spaces input) as (m & rest & -> & Hr).
  unfold RemovingSpacesBeforeTokens, new_Lexer, with_input.
  cbn [input_tokens_ rdbuf tokens_ current_dent_].
  rewrite spaces_add.
  assert (E : forall k,
    skip_spaces (S (String.length (spaces k +:+ rest)))
      (mk_istream (spaces k +:+ rest) false false false)
    = after_peek (mk_istream (spaces k +:+ rest) false false false) rest).
  { intros k. apply (skip_spaces_spec k); try reflexivity; try assumption.
    rewrite length_spaces_app. lia. }
  rewrite (E (n + m)%nat), (E m).
  destruct rest; reflexivity.
Qed.




Lemma peek_good (s : istream) c r :
  good s = true -> rdbuf s = String.String c r -> peek s = (Some c, s).
Proof. intros Hg Hb. unfold peek. now rewrite Hg, Hb. Qed.

Lemma get_good (s : istream) c r :
  good s = true -> rdbuf s = String.String c r -> get s = (Some c, with_buf s r).
Proof. intros Hg Hb. unfold get. now rewrite Hg, Hb. Qed.


(** More fuel never changes a result that was reached. *)
Lemma ParseTokens_loop_mono (n : nat) : forall m l r,
  (n <= m)%nat ->
  ParseTokens_loop n l = Some r -> ParseTokens_loop m l = Some r.
Proof.
  induction n as [|n IH]; intros m l r Hle H; [discriminate|].
  destruct m as [|m]; [lia|].
  simpl in *. destruct (fail (input_tokens_ l)); [assumption|].
  destruct (scan_step l); [|assumption].
  apply IH; [lia | assumption].
Qed.

Lemma ParseTokens_mono (n m : nat) (input : string) r :
  (n <= m)%nat ->
  ParseTokens n input = Some r -> ParseTokens m input = Some r.
Proof.
  unfold ParseTokens, ParseTokens_from. intros Hle H.
  destruct (ParseTokens_loop n _) as [x|] eqn:E; [|discriminate].
  rewrite (ParseTokens_loop_mono n m _ x Hle E). exact H.
Qed.

(** ** The indentation level never goes below zero *)

Lemma count_tokens_app p (a b : list Token) :
  count_tokens p (a ++ b) = (count_tokens p a + count_tokens p b)%nat.
Proof. unfold count_tokens. now rewrite filter_app, length_app. Qed.

Lemma dents_app (a b : list Token) : dents (a ++ b) = dents a + dents b.
Proof. unfold dents. rewrite !count_tokens_app. lia. Qed.

Lemma dents_nondent (t : Token) : nondent t -> dents [t] = 0.
Proof.
  intros [Hi Hd]. unfold dents, count_tokens. cbn.
  rewrite !decide_False by (rewrite ?Hi, ?Hd; discriminate). reflexivity.
Qed.

Lemma prefixes_balanced_nil : prefixes_balanced [].
Proof. intros k. now rewrite take_nil. Qed.

Lemma prefixes_balanced_snoc (ts : list Token) (t : Token) :
  prefixes_balanced ts -> 0 <= dents ts + dents [t] ->
  prefixes_balanced (ts ++ [t]).
Proof.
  intros H Ht k. destruct (Nat.le_gt_cases k (length ts)) as [Hk|Hk].
  - rewrite take_app_le by assumption. apply H.
  - rewrite take_ge by (rewrite length_app; cbn; lia).
    now rewrite dents_app.
Qed.

Lemma dents_balanced (ts : list Token) : prefixes_balanced ts -> 0 <= dents ts.
Proof. intros H. specialize (H (length ts)). now rewrite take_ge in H. Qed.

Lemma appended_trans (a b c : list Token) :
  appended a b -> appended b c -> appended a c.
Proof. intros Hab Hbc. induction Hbc; [assumption | now constructor]. Qed.

Lemma appended_keeps (ts ts' : list Token) :
  appended ts ts' ->
  dents ts' = dents ts /\ (prefixes_balanced ts -> prefixes_balanced ts').
Proof.
  induction 1 as [|ts' t _ [IHd IHp] Ht].
  - split; [reflexivity | trivial].
  - rewrite dents_app, (dents_nondent t Ht), IHd. split; [lia|].
    intros Hb. apply prefixes_balanced_snoc; [auto|].
    rewrite (dents_nondent t Ht), IHd. pose proof (dents_balanced ts Hb). lia.
Qed.

Lemma quiet_refl (l : Lexer) : quiet l l.
Proof. split; [reflexivity | constructor]. Qed.

Lemma quiet_trans (a b c : Lexer) : quiet a b -> quiet b c -> quiet a c.
Proof.
  intros [Hd Ht] [Hd' Ht']. split; [congruence | eapply appended_trans; eauto].
Qed.

Lemma quiet_with_input (l : Lexer) s : quiet l (with_input l s).
Proof. split; [reflexivity | constructor]. Qed.

Lemma quiet_emplace_back (l : Lexer) (t : Token) :
  nondent t -> quiet l (emplace_back t l).
Proof.
  intros H. split; [reflexivity|]. cbn.
  apply appended_snoc; [constructor | assumption].
Qed.

Lemma quiet_keeps (l l' : Lexer) : quiet l l' -> dent_invariant l -> dent_invariant l'.
Proof.
  intros [Hd Ht] (Hb & Hc & Hr). destruct (appended_keeps _ _ Ht) as [Hd' Hb'].
  unfold dent_invariant. rewrite Hd, Hd'. auto.
Qed.

Ltac quiet_chain :=
  repeat first
    [ apply quiet_refl
    | match goal with
      | |- quiet ?l (with_input ?l' _) =>
          apply (quiet_trans l l'); [|apply quiet_with_input]
      | |- quiet ?l (emplace_back ?t ?l') =>
          apply (quiet_trans l l');
          [|apply quiet_emplace_back; first [assumption | split; reflexivity]]
      end ].

Lemma quiet_IsEof (l : Lexer) : quiet l (snd (IsEof l)).
Proof. unfold IsEof. destruct (peek _). cbn. quiet_chain. Qed.

Lemma quiet_RemovingSpaces (l : Lexer) : quiet l (RemovingSpacesBeforeTokens l).
Proof. unfold RemovingSpacesBeforeTokens. quiet_chain. Qed.

Lemma appended_add_if word key t ts ts' :
  nondent t -> appended ts ts' -> appended ts (add_if word key t ts').
Proof.
  intros Ht H. unfold add_if. destruct (String.eqb word key);
    [now constructor | assumption].
Qed.

Lemma quiet_AddKeyword word (l : Lexer) : quiet l (snd (AddKeyword word l)).
Proof.
  unfold AddKeyword. split; [reflexivity|]. cbn [snd tokens_].
  repeat (apply appended_add_if; [split; reflexivity|]). constructor.
Qed.

Lemma quiet_ExtractKeywordOrId (l : Lexer) : quiet l (ExtractKeywordOrId l).
Proof.
  unfold ExtractKeywordOrId.
  pose proof (quiet_IsEof l) as H0. destruct (IsEof l) as [e l0]. cbn in H0.
  destruct e; [assumption|].
  destruct (peek (input_tokens_ l0)) as [c s].
  destruct (_ && _); [eapply quiet_trans; [eassumption|quiet_chain]|].
  destruct (ReadWord _) as [w s'].
  match goal with
  | |- context [AddKeyword ?w ?x] =>
      pose proof (quiet_AddKeyword w x) as H1; destruct (AddKeyword w x) as [b l1]
  end.
  cbn in H1.
  assert (quiet l l1) by (eapply quiet_trans; [eassumption|];
                          eapply quiet_trans; [|eassumption]; quiet_chain).
  destruct b; [assumption|]. quiet_chain. assumption.
Qed.

Lemma quiet_two_char_or first_symbol ch t otherwise :
  nondent t -> (forall l, quiet l (otherwise l)) ->
  forall l, quiet l (two_char_or first_symbol ch t otherwise l).
Proof.
  intros Ht Ho l. unfold two_char_or.
  destruct (char_eqb first_symbol ch); [|apply Ho].
  destruct (peek _) as [c s]. destruct (peek_is _ c).
  - quiet_chain.
  - eapply quiet_trans; [|apply Ho]. quiet_chain.
Qed.

Lemma quiet_ExtractOperatorEqOrSymbol (l : Lexer) :
  quiet l (ExtractOperatorEqOrSymbol l).
Proof.
  unfold ExtractOperatorEqOrSymbol.
  pose proof (quiet_IsEof l) as H0. destruct (IsEof l) as [e l0]. cbn in H0.
  destruct e; [assumption|].
  eapply quiet_trans; [eassumption|].
  destruct (peek (input_tokens_ l0)) as [c s].
  destruct (peek_is _ c); [quiet_chain|].
  destruct (get _) as [g s'].
  destruct (_ || _); [quiet_chain|].
  eapply quiet_trans; [|repeat (apply quiet_two_char_or;
                                [split; reflexivity|]); intros x; quiet_chain].
  quiet_chain.
Qed.

Lemma quiet_ExtractIntValue (l l' : Lexer) :
  ExtractIntValue l = Ok l' -> quiet l l'.
Proof.
  unfold ExtractIntValue.
  pose proof (quiet_IsEof l) as H0. destruct (IsEof l) as [e l0]. cbn in H0.
  destruct e; [intros [= <-]; assumption|].
  destruct (get _) as [g s]. destruct (isdigit _).
  - destruct (read_digits _ _ _) as [p s']. destruct (stoi p); cbn; [|discriminate].
    intros [= <-]. eapply quiet_trans; [eassumption|quiet_chain].
  - intros [= <-]. eapply quiet_trans; [eassumption|quiet_chain].
Qed.

Lemma quiet_ExtractString (l l' : Lexer) :
  ExtractString l = Ok l' -> quiet l l'.
Proof.
  unfold ExtractString.
  pose proof (quiet_IsEof l) as H0. destruct (IsEof l) as [e l0]. cbn in H0.
  destruct e; [intros [= <-]; assumption|].
  destruct (get _) as [g s]. destruct (_ && _).
  - intros [= <-]. eapply quiet_trans; [eassumption|quiet_chain].
  - destruct (ExtractString_loop _ _ _ _) as [r|]; cbn; [|discriminate].
    intros [= <-]. eapply quiet_trans; [eassumption|quiet_chain].
Qed.

Lemma quiet_ExtractComments (l : Lexer) : quiet l (ExtractComments l).
Proof.
  unfold ExtractComments. destruct (peek _) as [c s].
  destruct (negb _); [quiet_chain|].
  destruct (nonempty_and_back_not_Newline_nor_Dedent _); quiet_chain.
Qed.

Lemma quiet_ExtractNewLine (l : Lexer) : quiet l (ExtractNewLine l).
Proof.
  unfold ExtractNewLine.
  pose proof (quiet_IsEof l) as H0. destruct (IsEof l) as [e l0]. cbn in H0.
  destruct e; [assumption|].
  eapply quiet_trans; [eassumption|].
  destruct (peek _) as [c s]. destruct (negb _); [quiet_chain|].
  destruct (nonempty_and_back_not_Newline _); quiet_chain.
Qed.

Lemma count_spaces_range rounds : forall s c,
  0 <= c < 65536 -> 0 <= fst (count_spaces rounds s c) < 65536.
Proof.
  induction rounds as [|n IH]; intros s c Hc; cbn [count_spaces].
  - assumption.
  - destruct (peek s) as [ch s1]. destruct (peek_is SPACE ch); [|assumption].
    apply IH. unfold uint16. apply Z.mod_pos_bound. lia.
Qed.

Lemma int16_small (z : Z) : -32768 <= z < 32768 -> int16 z = z.
Proof. intros H. unfold int16. rewrite Z.mod_small; lia. Qed.

Lemma dent_invariant_Indent (l : Lexer) :
  dent_invariant l -> current_dent_ l < 32767 ->
  dent_invariant (with_dent (emplace_back token_type.Indent l)
                            (uint16 (current_dent_ l + 1))).
Proof.
  intros (Hb & Hc & Hr) Hlt. unfold dent_invariant, uint16. cbn.
  rewrite Z.mod_small by lia. rewrite dents_app.
  change (dents [token_type.Indent]) with 1.
  split; [|lia].
  apply prefixes_balanced_snoc; [assumption|].
  change (dents [token_type.Indent]) with 1. lia.
Qed.

Lemma dent_invariant_Dedent (l : Lexer) :
  dent_invariant l -> current_dent_ l <> 0 ->
  dent_invariant (with_dent (emplace_back token_type.Dedent l)
                            (uint16 (current_dent_ l - 1))).
Proof.
  intros (Hb & Hc & Hr) Hne. unfold dent_invariant, uint16. cbn.
  rewrite Z.mod_small by lia. rewrite dents_app.
  change (dents [token_type.Dedent]) with (-1).
  split; [|lia].
  apply prefixes_balanced_snoc; [assumption|].
  change (dents [token_type.Dedent]) with (-1). lia.
Qed.

Lemma indent_loop_keeps (k : nat) : forall l,
  dent_invariant l -> current_dent_ l + Z.of_nat k <= 32767 ->
  dent_invariant (indent_loop k l)
  /\ current_dent_ (indent_loop k l) = current_dent_ l + Z.of_nat k.
Proof.
  induction k as [|k IH]; intros l Hinv Hle; cbn [indent_loop].
  - split; [assumption | lia].
  - pose proof Hinv as (_ & _ & Hr).
    assert (Hs : uint16 (current_dent_ l + 1) = current_dent_ l + 1)
      by (unfold uint16; rewrite Z.mod_small; lia).
    destruct (IH (with_dent (emplace_back token_type.Indent l)
                            (uint16 (current_dent_ l + 1)))) as [H1 H2].
    + apply dent_invariant_Indent; [assumption | lia].
    + cbn. rewrite Hs. lia.
    + cbn in *. split; [exact H1 | rewrite H2, Hs; lia].
Qed.

Lemma dedent_loop_keeps (k : nat) : forall l l',
  dedent_loop k l = Ok l' -> dent_invariant l -> dent_invariant l'.
Proof.
  induction k as [|k IH]; intros l l'; cbn [dedent_loop].
  - intros [= <-]. trivial.
  - cbn [current_dent_ emplace_back].
    destruct (current_dent_ l =? 0) eqn:E; [discriminate|].
    intros H Hinv. apply (IH _ _ H).
    apply dent_invariant_Dedent; [assumption|]. now apply Z.eqb_neq.
Qed.

Lemma ExtractDent_keeps (l l' : Lexer) :
  ExtractDent l = Ok l' -> dent_invariant l -> dent_invariant l'.
Proof.
  unfold ExtractDent. intros H Hinv.
  destruct (nonempty_and_back_not_Newline _); [now inversion H; subst|].
  destruct (peek _) as [c s].
  destruct (peek_is LF c).
  { inversion H; subst. eapply quiet_keeps; [apply quiet_with_input | assumption]. }
  pose proof (count_spaces_range (S (String.length (rdbuf s))) s 0 ltac:(lia)) as Hc.
  destruct (count_spaces _ s 0) as [count_space s']. cbn [fst] in Hc.
  destruct (negb _); [discriminate|].
  cbn [current_dent_ with_input] in H.
  assert (Hq : dent_invariant (with_input (with_input l s) s'))
    by (eapply quiet_keeps; [|exact Hinv]; quiet_chain).
  pose proof Hinv as (_ & _ & Hr).
  assert (Hdiv : 0 <= count_space / num_space_dent_ <= 32767).
  { unfold num_space_dent_. split.
    - apply Z.div_pos; lia.
    - apply Z.lt_succ_r. apply Z.div_lt_upper_bound; lia. }
  rewrite int16_small in H by lia.
  destruct (0 <? _) eqn:E.
  - inversion H; subst. apply indent_loop_keeps; [assumption|].
    cbn. apply Z.ltb_lt in E. lia.
  - eapply dedent_loop_keeps; eassumption.
Qed.

Lemma scan_step_keeps (l l' : Lexer) :
  scan_step l = Ok l' -> dent_invariant l -> dent_invariant l'.
Proof.
  unfold scan_step. intros H Hinv.
  destruct (ExtractIntValue _) as [l1|] eqn:E1; [|discriminate].
  cbn [parse.bind] in H.
  destruct (ExtractString l1) as [l2|] eqn:E2; [|discriminate].
  cbn [parse.bind] in H.
  apply (ExtractDent_keeps _ _ H).
  eapply quiet_keeps; [|exact Hinv].
  eapply quiet_trans; [apply quiet_ExtractKeywordOrId|].
  eapply quiet_trans; [apply quiet_ExtractOperatorEqOrSymbol|].
  eapply quiet_trans; [apply (quiet_ExtractIntValue _ _ E1)|].
  eapply quiet_trans; [apply (quiet_ExtractString _ _ E2)|].
  eapply quiet_trans; [apply quiet_RemovingSpaces|].
  eapply quiet_trans; [apply quiet_ExtractComments|].
  apply quiet_ExtractNewLine.
Qed.

Lemma ParseTokens_loop_keeps (fuel : nat) : forall l l',
  ParseTokens_loop fuel l = Some (Ok l') -> dent_invariant l -> dent_invariant l'.
Proof.
  induction fuel as [|n IH]; intros l l'; cbn [ParseTokens_loop]; [discriminate|].
  destruct (fail _); [now intros [= <-]|].
  destruct (scan_step l) as [l1|] eqn:E; [|discriminate].
  intros H Hinv. apply (IH _ _ H). exact (scan_step_keeps _ _ E Hinv).
Qed.

Lemma finish_balanced (l : Lexer) :
  dent_invariant l -> prefixes_balanced (finish l).
Proof.
  intros (Hb & _ & _). unfold finish.
  assert (Hn : forall t, nondent t -> forall ts,
             prefixes_balanced ts -> prefixes_balanced (ts ++ [t])).
  { intros t Ht ts Hts. apply prefixes_balanced_snoc; [assumption|].
    rewrite (dents_nondent t Ht). pose proof (dents_balanced ts Hts). lia. }
  apply Hn; [split; reflexivity|].
  destruct (nonempty_and_back_not_Newline_nor_Dedent _); [|assumption].
  apply Hn; [split; reflexivity | assumption].
Qed.

(** The part of the balance property that holds on every input: whenever
    the lexer returns a token list, no prefix of it has more [Dedent]s than
    [Indent]s. *)
Lemma ParseTokens_prefixes_balanced (fuel : nat) (input : string) (ts : list Token) :
  ParseTokens fuel input = Some (Ok ts) ->
  forall k : nat,
    (count_tokens is_Dedent (take k ts) <= count_tokens is_Indent (take k ts))%nat.
Proof.
  unfold ParseTokens, ParseTokens_from. intros H k.
  destruct (ParseTokens_loop _ _) as [[l'|e]|] eqn:E; try discriminate.
  inversion H; subst; clear H.
  assert (Hinv : dent_invariant l').
  { apply (ParseTokens_loop_keeps _ _ _ E).
    eapply quiet_keeps; [apply quiet_RemovingSpaces|].
    split; [apply prefixes_balanced_nil|]. cbn. unfold dents. cbn. lia. }
  pose proof (finish_balanced l' Hinv k) as Hk. unfold dents in Hk. lia.
Qed.

(** Sanity checks: the two lexer-only scenarios of the specification. *)
Example lexer_scenario_indent :
  ParseTokens 10 (line "  a" (line "    b" ""))
  = Some (Ok [token_type.Id "a"; token_type.Newline;
              token_type.Indent; token_type.Indent;
              token_type.Id "b"; token_type.Newline;
              token_type.Dedent; token_type.Dedent; token_type.Eof]).
Proof. vm_compute. reflexivity. Qed.

Example lexer_scenario_comment :
  ParseTokens 10 (line "a # c" (line "b" ""))
  = Some (Ok [token_type.Id "a"; token_type.Newline;
              token_type.Id "b"; token_type.Newline; token_type.Eof]).
Proof. vm_compute. reflexivity. Qed.

Example lexer_odd_indent_second_line :
  ParseTokens 10 (line "a" "   b")
  = Some (Throw (LexerError
      "One of the indents contains an odd number of spaces. Num space = 3")).
Proof. vm_compute. reflexivity. Qed.

(** A tab is extracted by no alternative: the loop makes no progress. *)
Example lexer_tab_makes_no_progress :
  let l := RemovingSpacesBeforeTokens (new_Lexer (String.String TAB EmptyString)) in
  scan_step l = Ok l /\ fail (input_tokens_ l) = false.
Proof. vm_compute. split; reflexivity. Qed.

(** ** Indentation *)

(** C2.  The input [a], line feed, two spaces, [b], with no line feed at the
    end: the lexer opens one level with [Indent], and at the end of the
    stream it appends [Newline] and [Eof] without closing the level. *)
Theorem Indent_left_open_without_final_newline (n : nat) :
  let tokens := [token_type.Id "a"; token_type.Newline; token_type.Indent;
                 token_type.Id "b"; token_type.Newline; token_type.Eof] in
  ParseTokens (3 + n) (line "a" "  b") = Some (Ok tokens)
  /\ count_tokens is_Indent tokens = 1%nat
  /\ count_tokens is_Dedent tokens = 0%nat.
Proof.
  cbv zeta. split; [|split; vm_compute; reflexivity].
  apply (ParseTokens_mono 3); [lia | vm_compute; reflexivity].
Qed.

(** With the line feed at the end the level is closed on the way out. *)
Example Indent_closed_after_final_newline :
  ParseTokens 10 (line "a" (line "  b" ""))
  = Some (Ok [token_type.Id "a"; token_type.Newline; token_type.Indent;
              token_type.Id "b"; token_type.Newline; token_type.Dedent;
              token_type.Eof]).
Proof. vm_compute. reflexivity. Qed.


End LexerFacts.

(* ===================================================================== *)
(** * Facts about the runtime and the evaluator                           *)
(* ===================================================================== *)

Section RuntimeFacts.
Import runtime.

(** One unfolding of the knot *)
Lemma Execute_S (n : nat) (s : Statement) :
  Execute (S n) s = Execute_node (Execute n) (ObjectPrint n) s.
Proof. reflexivity. Qed.

Lemma ObjectPrint_S (n : nat) (o : Object) :
  ObjectPrint (S n) o = Object_Print (Execute n) (ObjectPrint n) o.
Proof. reflexivity. Qed.

(** ** More fuel changes no result that was reached *)

Section Refinement.
Variables exec exec' : Statement -> M ObjectHolder.
Variables print print' : Object -> M string.
Hypothesis exec_refines : forall s, refines (exec s) (exec' s).
Hypothesis print_refines : forall o, refines (print o) (print' o).

Lemma refines_refl {A : Type} (x : M A) : refines x x.
Proof. intros m r m' H _. exact H. Qed.

Lemma refines_bind {A B : Type} (x x' : M A) (k k' : A -> M B) :
  refines x x' -> (forall a, refines (k a) (k' a)) ->
  refines (bind x k) (bind x' k').
Proof.
  intros Hx Hk m r m'. unfold bind.
  destruct (x m) as [[a|e] m1] eqn:E; intros H Hr.
  - rewrite (Hx _ _ _ E) by discriminate. now apply Hk.
  - inversion H; subst.
    rewrite (Hx _ _ _ E) by (intros [= ->]; now apply Hr). reflexivity.
Qed.

Lemma refines_in_frame {A : Type} frame (x x' : M A) :
  refines x x' -> refines (in_frame frame x) (in_frame frame x').
Proof.
  intros Hx m r m'. unfold in_frame.
  destruct (x _) as [r1 m1] eqn:E. intros H Hr.
  inversion H; subst. rewrite (Hx _ _ _ E Hr). reflexivity.
Qed.

Lemma refines_holding {A : Type} locals (x x' : M A) :
  refines x x' -> refines (holding locals x) (holding locals x').
Proof.
  intros Hx m r m'. unfold holding.
  destruct (x _) as [r1 m1] eqn:E. intros H Hr.
  inversion H; subst. rewrite (Hx _ _ _ E Hr). reflexivity.
Qed.

Lemma refines_through_pointer_of {A : Type} holder (x x' : M A) :
  refines x x' ->
  refines (through_pointer_of holder x) (through_pointer_of holder x').
Proof.
  intros Hx m r m'. unfold through_pointer_of.
  destruct (destroyed_with holder m); [tauto | apply Hx].
Qed.

Ltac refine_step :=
  first [ apply refines_refl
        | apply exec_refines
        | apply print_refines
        | apply refines_in_frame
        | apply refines_holding
        | apply refines_through_pointer_of
        | apply refines_bind; [|intros ?]
        | match goal with
          | |- refines (if ?b then _ else _) _ => destruct b
          | |- refines (match ?o with _ => _ end) _ => destruct o
          | |- refines (let (_, _) := ?p in _) _ => destruct p
          end ].

Lemma refines_Call address class_ method actual_args :
  refines (Call exec address class_ method actual_args)
          (Call exec' address class_ method actual_args).
Proof. unfold Call. repeat refine_step. Qed.

Lemma refines_Object_Print o :
  refines (Object_Print exec print o) (Object_Print exec' print' o).
Proof.
  unfold Object_Print. destruct o; try apply refines_refl.
  destruct (HasMethod _ _ _); [|apply refines_refl].
  apply refines_bind; [apply refines_Call|intros r].
  destruct (Get r); [apply refines_holding, print_refines | apply refines_refl].
Qed.

Lemma refines_Equal lhs rhs : refines (Equal exec lhs rhs) (Equal exec' lhs rhs).
Proof.
  unfold Equal.
  repeat first [apply refines_Call | refine_step].
Qed.

Lemma refines_Less lhs rhs : refines (Less exec lhs rhs) (Less exec' lhs rhs).
Proof.
  unfold Less.
  repeat first [apply refines_Call | refine_step].
Qed.

Lemma refines_Comparator cmp lhs rhs :
  refines (apply_Comparator exec cmp lhs rhs) (apply_Comparator exec' cmp lhs rhs).
Proof.
  destruct cmp; cbn [apply_Comparator];
    unfold NotEqual, Greater, LessOrEqual, GreaterOrEqual, NotEqual;
    repeat first [apply refines_Equal | apply refines_Less | refine_step].
Qed.

Lemma refines_Print_loop args : forall first os,
  refines (Print_loop exec print args first os)
          (Print_loop exec' print' args first os).
Proof.
  induction args as [|arg rest IH]; intros first os; cbn [Print_loop].
  - apply refines_refl.
  - apply refines_bind; [apply exec_refines|intros oh].
    apply refines_bind; [|intros text; apply IH].
    destruct (Get oh); [apply refines_holding, print_refines | apply refines_refl].
Qed.

Lemma refines_Execute_args args :
  refines (Execute_args exec args) (Execute_args exec' args).
Proof.
  induction args as [|arg rest IH]; cbn [Execute_args].
  - apply refines_refl.
  - apply refines_bind; [apply exec_refines|intros v].
    apply refines_bind; [apply refines_holding, IH|intros vs; apply refines_refl].
Qed.

Lemma refines_Compound statements :
  refines (Compound_Execute exec statements) (Compound_Execute exec' statements).
Proof.
  induction statements as [|st rest IH]; cbn [Compound_Execute].
  - apply refines_refl.
  - apply refines_bind; [apply exec_refines|intros _; apply IH].
Qed.

Lemma refines_MethodBody body_ :
  refines (MethodBody_Execute exec body_) (MethodBody_Execute exec' body_).
Proof.
  intros m r m'. unfold MethodBody_Execute.
  destruct (exec body_ m) as [[v|[res|w|w|]] m1] eqn:E; intros H Hr;
    inversion H; subst; now rewrite (exec_refines _ _ _ _ E).
Qed.

Lemma refines_Execute_node s :
  refines (Execute_node exec print s) (Execute_node exec' print' s).
Proof.
  destruct s; cbn [Execute_node];
    unfold Assignment_Execute, FieldAssignment_Execute, None_Execute,
      Print_Execute, MethodCall_Execute, NewInstance_Execute, Stringify_Execute,
      Add_Execute, Sub_Execute, Mult_Execute, Div_Execute, arithmetic,
      Or_Execute, And_Execute, Not_Execute, Return_Execute,
      ClassDefinition_Execute, IfElse_Execute, Comparison_Execute,
      is_true_Bool_of_temporary;
    try apply refines_MethodBody; try apply refines_Compound;
    repeat first [ apply refines_Call | apply refines_Print_loop
                 | apply refines_Execute_args | apply refines_Comparator
                 | refine_step ].
Qed.

End Refinement.

Lemma Execute_fuel_step (n : nat) :
  (forall s, refines (Execute n s) (Execute (S n) s))
  /\ (forall o, refines (ObjectPrint n o) (ObjectPrint (S n) o)).
Proof.
  induction n as [|n [IHe IHp]].
  - split; intros x m r m' H Hr; inversion H; subst; congruence.
  - split.
    + intros s. rewrite !Execute_S. now apply refines_Execute_node.
    + intros o. rewrite !ObjectPrint_S. now apply refines_Object_Print.
Qed.

(** Once [Execute] has reached an outcome within [n], it reaches the same
    outcome within any larger bound. *)
Lemma Execute_fuel_mono (n k : nat) (s : Statement) (m m' : Machine) r :
  Execute n s m = (r, m') -> r <> Abrupt out_of_fuel ->
  Execute (n + k) s m = (r, m').
Proof.
  intros H Hr. induction k as [|k IH].
  - now rewrite Nat.add_0_r.
  - rewrite Nat.add_succ_r. now apply (proj1 (Execute_fuel_step (n + k))).
Qed.

Example scenario_nested_return :
  Execute 6 scenario.nested_return scenario.frame_t_r
  = (Normal (ast.Own 1 (ast.Number 7)), scenario.frame_t_r).
Proof. vm_compute. reflexivity. Qed.


(** ** Variables *)

Lemma VariableValue_one_segment (n : nat) (id : string) (m : Machine) :
  Execute (S n) (ast.VariableValue [id]) m
  = (match closure m !! id with
     | Some h => Normal h
     | None => Abrupt (runtime_error unexpected_VariableValue)
     end, m).
Proof.
  rewrite Execute_S. cbn [Execute_node]. unfold VariableValue_Execute.
  cbn [VariableValue_loop]. destruct (closure m !! id); reflexivity.
Qed.

(** A chain whose segments are all bound at their lookup points yields the
    holder of the last segment. *)
Lemma VariableValue_resolves (n : nat) (ids : list string) (m : Machine) h :
  resolves m (closure m) ids h ->
  Execute (S n) (ast.VariableValue ids) m = (Normal h, m).
Proof.
  intros H. rewrite Execute_S. cbn [Execute_node]. unfold VariableValue_Execute.
  f_equal. induction H as [c id h Hc | c id holder a cl id' rest h Hc Ht _ IH].
  - cbn [VariableValue_loop]. rewrite Hc. reflexivity.
  - cbn [VariableValue_loop] in *. rewrite Hc, Ht. exact IH.
Qed.

(** The last segment, when it is not bound where it is looked up, raises. *)
Lemma VariableValue_loop_last_unbound (m : Machine) (id : string)
    (c : gmap string ObjectHolder) :
  c !! id = None ->
  VariableValue_loop m [id] c = Abrupt (runtime_error unexpected_VariableValue).
Proof. intros H. cbn [VariableValue_loop]. rewrite H. reflexivity. Qed.

(** C4.  In a closure that binds [y] and does not bind [x], the chain [x.y]
    raises nothing: the loop passes over the unbound [x] and looks [y] up in
    the same closure. *)
Theorem VariableValue_passes_over_unbound_segment (n : nat) :
  closure scenario.only_y !! "x" = None
  /\ Execute (S n) scenario.x_dot_y scenario.only_y
     = (Normal (ast.Own 0 (ast.Number 5)), scenario.only_y).
Proof. split; reflexivity. Qed.

(** ** Field assignment *)

(** What a [FieldAssignment] that returns has done: the value is stored in
    the field table of the instance and is returned -- and it is bound under
    the field's name in the closure the statement ran in as well. *)
Lemma FieldAssignment_returns (n : nat) object_ field_name_ r_value_
    (m m' : Machine) (field : ObjectHolder) :
  Execute (S n) (ast.FieldAssignment object_ field_name_ r_value_) m
    = (Normal field, m') ->
  exists holder address class_ m0 m1,
    Execute (S n) (ast.VariableValue object_) m = (Normal holder, m)
    /\ TryAs_ClassInstance holder = Some (address, class_)
    /\ Fields_subscript address field_name_ m = (Normal tt, m0)
    /\ holding [holder] (Execute n r_value_) m0 = (Normal field, m1)
    /\ Fields m' address !! field_name_ = Some field
    /\ closure m' = <[field_name_ := field]> (closure m1)
    /\ output m' = output m1.
Proof.
  rewrite !Execute_S. cbn [Execute_node].
  unfold FieldAssignment_Execute, VariableValue_Execute, bind.
  destruct (VariableValue_loop m object_ (closure m)) as [holder|e]; [|discriminate].
  destruct (TryAs_ClassInstance holder) as [[address class_]|] eqn:Ht;
    [|discriminate].
  unfold Fields_subscript at 1. unfold modify at 1.
  set (m0 := match Fields m address !! field_name_ with
             | Some _ => m | None => _ end).
  destruct (holding [holder] (Execute n r_value_) m0) as [[v|e] m1] eqn:E;
    [|discriminate].
  cbn. intros H. inversion H; subst; clear H.
  exists holder, address, class_, m0, m1.
  split; [reflexivity|]. split; [exact Ht|]. split; [reflexivity|].
  split; [exact E|]. split; [|split; reflexivity].
  unfold Fields at 1. cbn [fields with_closure with_fields].
  rewrite lookup_insert_eq. cbn. apply lookup_insert_eq.
Qed.

(** C1.  [self.v = w], run in a frame whose local [v] is 1 and whose [w] is
    2, returns 2 and stores it in the field [v] of the instance; evaluating
    [self] and [w] leaves the frame as it is; yet after the statement the
    local [v] of the frame is 2. *)
Theorem FieldAssignment_overwrites_local (n : nat) :
  let frame := scenario.frame_v_w in
  let r := Execute (S (S n)) scenario.assign_v frame in
  fst r = Normal (ast.Own 1 (ast.Number 2))
  /\ Fields (snd r) 0 !! "v" = Some (ast.Own 1 (ast.Number 2))
  /\ snd (Execute (S n) (ast.VariableValue ["self"]) frame) = frame
  /\ snd (Execute (S n) (ast.VariableValue ["w"]) frame) = frame
  /\ closure frame !! "v" = Some (ast.Own 0 (ast.Number 1))
  /\ closure (snd r) !! "v" = Some (ast.Own 1 (ast.Number 2)).
Proof. cbv zeta. repeat split; vm_compute; reflexivity. Qed.

(** ** Comparison *)

(** The branches of [Equal] that are as the specification has them. *)
Lemma Equal_both_empty exec (m : Machine) :
  Equal exec ast.NoneHolder ast.NoneHolder m = (Normal true, m).
Proof. reflexivity. Qed.

Lemma Equal_primitive exec (a b : ObjectHolder) (m : Machine) :
  same_primitive_kind a b = true ->
  Equal exec a b m
  = (Normal match Get a, Get b with
            | Some (ast.Bool x), Some (ast.Bool y) => Bool.eqb x y
            | Some (ast.Number x), Some (ast.Number y) => x =? y
            | Some (ast.String x), Some (ast.String y) => String.eqb x y
            | _, _ => false
            end, m).
Proof.
  unfold same_primitive_kind, Equal, is_set, TryAs_Bool, TryAs_Number, TryAs_String.
  destruct (Get a) as [[x|x|x|x|x cx]|], (Get b) as [[y|y|y|y|y cy]|];
    try discriminate; reflexivity.
Qed.

Lemma Equal_without_method exec (a b : ObjectHolder) (m : Machine) :
  (is_set a || is_set b) = true ->
  same_primitive_kind a b = false ->
  match TryAs_ClassInstance a with
  | Some (_, class_) => HasMethod class_ "__eq__" 1 = false
  | None => True
  end ->
  Equal exec a b m
  = (Abrupt (runtime_error "Cannot compare objects for equality"), m).
Proof.
  unfold same_primitive_kind, Equal, is_set, TryAs_Bool, TryAs_Number,
    TryAs_String, TryAs_ClassInstance.
  destruct (Get a) as [[x|x|x|x|x cx]|], (Get b) as [[y|y|y|y|y cy]|];
    cbn; try discriminate; try reflexivity; intros _ _ ->; reflexivity.
Qed.

Lemma Equal_with_method exec address class_ (b : ObjectHolder) (m : Machine) :
  HasMethod class_ "__eq__" 1 = true ->
  Equal exec (ast.Share (ast.ClassInstance address class_)) b m
  = match Call exec address class_ "__eq__" [b] m with
    | (Normal r, m') =>
        match TryAs_Bool r with
        | Some v => (Normal v, m')
        | None => (Abrupt (undefined_behaviour "TryAs<Bool>() is null"), m')
        end
    | (Abrupt e, m') => (Abrupt e, m')
    end.
Proof.
  intros H. unfold Equal. cbn. rewrite H. unfold bind.
  destruct (Call exec address class_ "__eq__" [b] m) as [[r|e] m']; [|reflexivity].
  destruct (TryAs_Bool r); reflexivity.
Qed.

(** C5.  [e == 1], where [e] is an instance of a class whose [__eq__]
    returns its argument: the method is found with one parameter, it returns
    the number 1, which truthiness would coerce to true, and [Equal] then
    reads a [Bool] through the null pointer that [TryAs<Bool>()] gave it. *)
Theorem Equal_reads_through_null_on_non_Bool (n : nat) (m : Machine) :
  let one := ast.Own 0 (ast.Number 1) in
  HasMethod scenario.E "__eq__" 1 = true
  /\ Call (Execute (S (S (S n)))) 0 scenario.E "__eq__" [one] m = (Normal one, m)
  /\ IsTrue one = true
  /\ Equal (Execute (S (S (S n)))) scenario.e one m
     = (Abrupt (undefined_behaviour "TryAs<Bool>() is null"), m).
Proof. destruct m. cbv zeta. repeat split; vm_compute; reflexivity. Qed.

Lemma string_compare_refl (s : string) : String.compare s s = Eq.
Proof.
  pose proof (String.compare_antisym s s) as H.
  destruct (String.compare s s); [reflexivity | discriminate | discriminate].
Qed.

Lemma string_eqb_ltb (a b : string) :
  String.eqb a b = true <-> String.ltb a b = false /\ String.ltb b a = false.
Proof.
  unfold String.ltb. rewrite (String.compare_antisym b a).
  destruct (String.compare a b) eqn:C; cbn.
  - apply String.compare_eq_iff in C. subst. rewrite String.eqb_refl. tauto.
  - split; [|intros []; discriminate].
    intros H. apply String.eqb_eq in H. subst.
    rewrite string_compare_refl in C. discriminate.
  - split; [|intros []; discriminate].
    intros H. apply String.eqb_eq in H. subst.
    rewrite string_compare_refl in C. discriminate.
Qed.

(** C6.  On two holders of the same primitive kind, [Equal] and [Less]
    return without touching the machine, and [Equal] returns true exactly
    when [Less] returns false both ways round. *)
Theorem Equal_iff_neither_Less exec (a b : ObjectHolder) (m : Machine) :
  same_primitive_kind a b = true ->
  exists eq lt gt : bool,
    Equal exec a b m = (Normal eq, m)
    /\ Less exec a b m = (Normal lt, m)
    /\ Less exec b a m = (Normal gt, m)
    /\ (eq = true <-> lt = false /\ gt = false).
Proof.
  unfold same_primitive_kind, Equal, Less, is_set, TryAs_Bool, TryAs_Number,
    TryAs_String.
  destruct (Get a) as [[x|x|x|x|x cx]|], (Get b) as [[y|y|y|y|y cy]|];
    try discriminate; intros _; cbn.
  - exists (x =? y), (x <? y), (y <? x).
    do 3 (split; [reflexivity|]).
    rewrite Z.eqb_eq, !Z.ltb_ge. lia.
  - exists (String.eqb x y), (String.ltb x y), (String.ltb y x).
    do 3 (split; [reflexivity|]).
    apply string_eqb_ltb.
  - exists (Bool.eqb x y), (negb x && y), (negb y && x).
    do 3 (split; [reflexivity|]).
    destruct x, y; cbn; intuition discriminate.
Qed.

Lemma Equal_iff_neither_Less_witness :
  exists eq lt gt : bool,
    Equal (Execute 0) (ast.Own 0 (ast.String "ab")) (ast.Share (ast.String "b"))
          empty_Machine = (Normal eq, empty_Machine)
    /\ Less (Execute 0) (ast.Own 0 (ast.String "ab")) (ast.Share (ast.String "b"))
            empty_Machine = (Normal lt, empty_Machine)
    /\ Less (Execute 0) (ast.Share (ast.String "b")) (ast.Own 0 (ast.String "ab"))
            empty_Machine = (Normal gt, empty_Machine)
    /\ (eq = true <-> lt = false /\ gt = false).
Proof.
  apply (Equal_iff_neither_Less (Execute 0) (ast.Own 0 (ast.String "ab"))
           (ast.Share (ast.String "b")) empty_Machine).
  reflexivity.
Defined.

(** ** Stringify *)

Lemma ObjectPrint_plain (k : nat) (obj : Object) (m : Machine) :
  prints_plainly obj = true ->
  ObjectPrint (S k) obj m = (Normal (plain_text obj), m).
Proof.
  rewrite ObjectPrint_S. destruct obj as [v|v|v|c|address class_]; cbn;
    try reflexivity.
  intros H. apply negb_true_iff in H. rewrite H. reflexivity.
Qed.

(** For an instance with a [__str__] of no parameter, printing runs that
    method and prints what it returns. *)
Lemma ObjectPrint_instance (k : nat) address class_ (m : Machine) :
  HasMethod class_ "__str__" 0 = true ->
  ObjectPrint (S k) (ast.ClassInstance address class_) m
  = match Call (Execute k) address class_ "__str__" [] m with
    | (Normal r, m') =>
        match Get r with
        | Some o' => holding [r] (ObjectPrint k o') m'
        | None => (Abrupt (undefined_behaviour "AssertIsValid"), m')
        end
    | (Abrupt e, m') => (Abrupt e, m')
    end.
Proof.
  intros H. rewrite ObjectPrint_S. cbn [Object_Print]. rewrite H. unfold bind.
  destruct (Call _ _ _ _ _ m) as [[r|e] m']; [|reflexivity].
  destruct (Get r); reflexivity.
Qed.

(** C9.  [str(x)], where the [__str__] of [x] prints an empty line.
    Evaluating the argument [x] writes nothing; [Stringify] hands its own
    context to [Print], and the line feed that the method prints is in the
    output afterwards. *)
Theorem Stringify_sink_written_by_str_method (n : nat) :
  Execute (5 + n) (ast.VariableValue ["x"]) scenario.loud_x
    = (Normal (ast.Share (ast.ClassInstance 0 scenario.Loud)), scenario.loud_x)
  /\ output scenario.loud_x = EmptyString
  /\ Execute (6 + n) scenario.str_x scenario.loud_x
     = (Normal (ast.Own 1 (ast.String EmptyString)),
        with_allocated (with_output scenario.loud_x endl) 2).
Proof.
  split; [|split; [reflexivity|]];
    (apply Execute_fuel_mono; [vm_compute; reflexivity | discriminate]).
Qed.

(** What [Stringify] does in general: it evaluates its argument and returns
    a newly owned [String], [None] for an empty holder and otherwise the text
    that [Object::Print] produces for the object, unless the object was
    destroyed with the holder that the argument returned; it writes nothing
    itself, so the machine it leaves is the one [Print] left. *)
Lemma Stringify_returns_rendering (n : nat) (argument_ : Statement) (m : Machine) :
  Execute (S n) (ast.Stringify argument_) m
    = match Execute n argument_ m with
      | (Normal oh, m1) =>
          match Get oh with
          | None => Own (ast.String "None") m1
          | Some obj =>
              if destroyed_with oh m1
              then (Abrupt read_after_destruction, m1)
              else match ObjectPrint n obj m1 with
                   | (Normal out, m2) => Own (ast.String out) m2
                   | (Abrupt e, m2) => (Abrupt e, m2)
                   end
          end
      | (Abrupt e, m1) => (Abrupt e, m1)
      end.
Proof.
  rewrite Execute_S. cbn [Execute_node].
  unfold Stringify_Execute, through_pointer_of, bind, ret.
  destruct (Execute n argument_ m) as [[oh|e] m1]; [|reflexivity].
  destruct (Get oh) as [obj|]; [|reflexivity].
  destruct (destroyed_with oh m1); [reflexivity|].
  destruct (ObjectPrint n obj m1) as [[out|e] m2]; reflexivity.
Qed.

(** ** NewInstance *)

(** C10, refuted as stated: after [p = a.make(); p.v = a], the node
    [Empty()] inside [make] is executed again.  [Empty] has no [__init__];
    the holder returned is onto the same instance, whose field table now
    holds [v]. *)
Lemma NewInstance_returns_instance_with_fields :
  let m := scenario.after_first_make in
  Execute 6 scenario.make_twice_before scenario.maker_a = (Normal ast.NoneHolder, m)
  /\ HasMethod scenario.Empty INIT_METHOD 0 = false
  /\ Execute 1 scenario.new_Empty m
     = (Normal (ast.Share (ast.ClassInstance 7 scenario.Empty)), m)
  /\ Fields m 7 !! "v" = Some (ast.Share (ast.ClassInstance 1 scenario.Maker))
  /\ Fields m 7 <> ∅
  /\ closure (snd (Execute 6 scenario.second_make m)) !! "q"
     = Some (ast.Share (ast.ClassInstance 7 scenario.Empty)).
Proof.
  cbv zeta. repeat split; try (vm_compute; reflexivity).
  intros H. apply (f_equal (fun c : gmap string ObjectHolder => c !! "v")) in H.
  vm_compute in H. discriminate.
Qed.

(** C10, amended.  When the class has no [__init__] with as many parameters
    as there are arguments, [NewInstance] returns a non-owning holder onto
    the instance of the node and leaves the whole machine as it was: no
    argument is executed, nothing is raised, and the field table of the
    instance is what it was before. *)
Theorem NewInstance_without_matching_init (n : nat) (class_instance_ : nat)
    (class_ : Class) (args_ : list Statement) (m : Machine) :
  HasMethod class_ INIT_METHOD (length args_) = false ->
  Execute (S n) (ast.NewInstance class_instance_ class_ args_) m
  = (Normal (ast.Share (ast.ClassInstance class_instance_ class_)), m).
Proof.
  intros H. rewrite Execute_S. cbn [Execute_node].
  unfold NewInstance_Execute. rewrite H. reflexivity.
Qed.

(** An [__init__] of no parameter does not match one argument: the argument,
    a [print], is not executed. *)
Lemma NewInstance_without_matching_init_witness :
  Execute 1 scenario.new_Init0_with_arg empty_Machine
  = (Normal (ast.Share (ast.ClassInstance 3 scenario.Init0)), empty_Machine).
Proof.
  apply (NewInstance_without_matching_init 0 3 scenario.Init0 [ast.Print []]
           empty_Machine).
  reflexivity.
Defined.

End RuntimeFacts.

(* ===================================================================== *)
(** * Further facts about the lexer                                       *)
(* ===================================================================== *)

Section LexerShape.
Import parse.

(** ** Token comparison *)

(** X1.  [operator==] on tokens holds exactly of equal tokens -- same
    alternative and, for [Number], [Id], [Char] and [String], same payload --
    and [operator!=] exactly of different ones. *)
Theorem operator_eq_decides_equality (lhs rhs : Token) :
  (operator_eq lhs rhs = true <-> lhs = rhs)
  /\ (operator_ne lhs rhs = true <-> lhs <> rhs).
Proof.
  assert (H : operator_eq lhs rhs = true <-> lhs = rhs).
  { unfold operator_eq.
    destruct lhs, rhs; cbn;
      try (split; [discriminate | intros [=]]);
      try (split; reflexivity);
      try (rewrite Z.eqb_eq; split; [intros ->; reflexivity | intros [=]; assumption]);
      try (rewrite String.eqb_eq; split; [intros ->; reflexivity | intros [=]; assumption]).
    unfold char_eqb. rewrite Ascii.eqb_eq.
    split; [intros ->; reflexivity | intros [=]; assumption]. }
  split; [exact H|].
  unfold operator_ne. destruct (operator_eq lhs rhs).
  - split; [discriminate | intros Hne; exfalso; apply Hne, H; reflexivity].
  - split; [intros _ Heq; apply H in Heq; discriminate | reflexivity].
Qed.

(** ** The token cursor *)

Lemma NextToken_in_range (c : Cursor) :
  (index_current_token_ c < length (parsed_tokens_ c))%nat ->
  parsed_tokens_ (snd (NextToken c)) = parsed_tokens_ c
  /\ index_current_token_ (snd (NextToken c))
     = Nat.min (index_current_token_ c + 1) (length (parsed_tokens_ c) - 1)
  /\ fst (NextToken c) = CurrentToken (snd (NextToken c)).
Proof.
  intros H. unfold NextToken.
  destruct (Nat.eqb_spec (index_current_token_ c + 1) (length (parsed_tokens_ c)));
    cbn; repeat split; lia.
Qed.

Lemma advance_in_range (k : nat) : forall c,
  (index_current_token_ c < length (parsed_tokens_ c))%nat ->
  parsed_tokens_ (advance k c) = parsed_tokens_ c
  /\ index_current_token_ (advance k c)
     = Nat.min (index_current_token_ c + k) (length (parsed_tokens_ c) - 1).
Proof.
  induction k as [|k IH]; intros c H; cbn [advance].
  - split; [reflexivity | lia].
  - destruct (NextToken_in_range c H) as (Ht & Hi & _).
    destruct (IH (snd (NextToken c))) as [IHt IHi]; [rewrite Ht, Hi; lia|].
    rewrite IHt, IHi, Ht, Hi. split; [reflexivity | lia].
Qed.

(** X2.  On a cursor that stands inside its token list, [NextToken] returns
    the token it then stands on, and [k] calls move it forward by [k]
    positions but never beyond the last token: from there on every call
    returns that last token again. *)
Theorem NextToken_never_passes_the_last_token (c : Cursor) (k : nat) :
  (index_current_token_ c < length (parsed_tokens_ c))%nat ->
  let c' := advance k c in
  parsed_tokens_ c' = parsed_tokens_ c
  /\ index_current_token_ c'
     = Nat.min (index_current_token_ c + k) (length (parsed_tokens_ c) - 1)
  /\ fst (NextToken c') = CurrentToken (advance (S k) c)
  /\ is_Some (fst (NextToken c'))
  /\ ((length (parsed_tokens_ c) - 1 <= index_current_token_ c + k)%nat ->
      fst (NextToken c') = last (parsed_tokens_ c)).
Proof.
  intros H. cbv zeta.
  destruct (advance_in_range k c H) as [Ht Hi].
  assert (H' : (index_current_token_ (advance k c)
                < length (parsed_tokens_ (advance k c)))%nat)
    by (rewrite Ht, Hi; lia).
  destruct (NextToken_in_range _ H') as (Ht1 & Hi1 & Hr).
  assert (Hs : advance (S k) c = snd (NextToken (advance k c))).
  { clear. revert c. induction k as [|k IH]; intros c; [reflexivity|].
    cbn [advance] in *. apply IH. }
  split; [exact Ht|]. split; [exact Hi|]. split; [now rewrite Hs|].
  rewrite Hr. unfold CurrentToken. rewrite Ht1, Hi1, Ht, Hi. split.
  - apply lookup_lt_is_Some. lia.
  - intros Hk. rewrite last_lookup. f_equal. lia.
Qed.

Lemma NextToken_never_passes_the_last_token_witness :
  fst (NextToken (advance 5 (mk_Cursor [token_type.Id "a"; token_type.Newline;
                                        token_type.Eof] 0)))
  = Some token_type.Eof.
Proof.
  apply (NextToken_never_passes_the_last_token
           (mk_Cursor [token_type.Id "a"; token_type.Newline; token_type.Eof] 0) 5);
    cbn; lia.
Defined.

(** ** What the stream functions tell about the next character *)

Lemma peek_Some (s s1 : istream) (c : ascii) :
  peek s = (Some c, s1) ->
  s1 = s /\ exists r, get s = (Some c, with_buf s r).
Proof.
  unfold peek, get. destruct (good s); [|discriminate].
  destruct (rdbuf s) as [|d r]; [discriminate|].
  intros [= -> <-]. split; [reflexivity | now exists r].
Qed.

Lemma peek_None (s s1 : istream) :
  peek s = (Datatypes.None, s1) -> fst (get s1) = Datatypes.None.
Proof.
  unfold peek. destruct (good s) eqn:Hg.
  - destruct (rdbuf s); [|discriminate]. intros [= <-]. reflexivity.
  - intros [= <-]. unfold get, good, set_fail in *. cbn.
    now rewrite orb_true_r.
Qed.

Lemma with_input_same (l : Lexer) : with_input l (input_tokens_ l) = l.
Proof. now destruct l. Qed.

Lemma IsEof_false (l l0 : Lexer) :
  IsEof l = (false, l0) ->
  l0 = l /\ exists c, peek (input_tokens_ l) = (Some c, input_tokens_ l).
Proof.
  unfold IsEof. destruct (peek (input_tokens_ l)) as [[c|] s] eqn:E;
    [|discriminate].
  intros [= <-]. destruct (peek_Some _ _ _ E) as [-> _].
  split; [apply with_input_same | now exists c].
Qed.

Lemma IsEof_tokens (l : Lexer) : tokens_ (snd (IsEof l)) = tokens_ l.
Proof. unfold IsEof. now destruct (peek _). Qed.

(** ** Words and keywords *)

Lemma all_chars_app p (a b : string) :
  all_chars p (a +:+ b) = all_chars p a && all_chars p b.
Proof.
  induction a as [|c a IH]; [reflexivity|].
  change (String.String c a +:+ b) with (String.String c (a +:+ b)).
  cbn [all_chars]. now rewrite IH, andb_assoc.
Qed.

Lemma length_app_string (a b : string) :
  String.length (a +:+ b) = (String.length a + String.length b)%nat.
Proof.
  induction a as [|c a IH]; [reflexivity|].
  change (String.String c a +:+ b) with (String.String c (a +:+ b)).
  cbn [String.length]. now rewrite IH.
Qed.

Lemma ReadWord_loop_word (rounds : nat) : forall s acc,
  all_chars is_word_char acc = true ->
  all_chars is_word_char (fst (ReadWord_loop rounds s acc)) = true
  /\ (String.length acc <= String.length (fst (ReadWord_loop rounds s acc)))%nat.
Proof.
  induction rounds as [|n IH]; intros s acc Hacc; cbn [ReadWord_loop].
  - cbn [fst]. split; [assumption | lia].
  - destruct (get s) as [[symbol|] s1]; [|cbn [fst]; split; [assumption | lia]].
    fold (is_word_char symbol). destruct (is_word_char symbol) eqn:E.
    + destruct (IH s1 (acc +:+ String.String symbol EmptyString)) as [H1 H2].
      { rewrite all_chars_app, Hacc. cbn. now rewrite E. }
      split; [assumption|]. rewrite length_app_string in H2. cbn in H2. lia.
    + cbn [fst]. split; [assumption | lia].
Qed.

Lemma ReadWord_starts (s : istream) (c : ascii) :
  peek s = (Some c, s) -> is_word_char c = true ->
  all_chars is_word_char (fst (ReadWord s)) = true
  /\ fst (ReadWord s) <> EmptyString.
Proof.
  intros Hp Hc. destruct (peek_Some _ _ _ Hp) as [_ [r Hg]].
  unfold ReadWord. cbn [ReadWord_loop]. rewrite Hg.
  fold (is_word_char c). rewrite Hc.
  destruct (ReadWord_loop_word (String.length (rdbuf s)) (with_buf s r)
              (EmptyString +:+ String.String c EmptyString)) as [H1 H2].
  { rewrite all_chars_app. cbn. now rewrite Hc. }
  split; [assumption|]. intros E. rewrite E, length_app_string in H2.
  cbn in H2. lia.
Qed.

Lemma length_add_if word key t (ts : list Token) :
  length (add_if word key t ts)
  = (length ts + if String.eqb word key then 1 else 0)%nat.
Proof.
  unfold add_if. destruct (String.eqb word key);
    [rewrite length_app; reflexivity | lia].
Qed.

Lemma AddKeyword_false (word : string) (l l' : Lexer) :
  AddKeyword word l = (false, l') ->
  tokens_ l' = tokens_ l /\ ~ In word keywords.
Proof.
  unfold AddKeyword. intros [= H <-]. cbn [tokens_].
  apply negb_false_iff, Nat.eqb_eq in H. rewrite !length_add_if in H.
  destruct (String.eqb word "class") eqn:E1; [lia|].
  destruct (String.eqb word "return") eqn:E2; [lia|].
  destruct (String.eqb word "if") eqn:E3; [lia|].
  destruct (String.eqb word "else") eqn:E4; [lia|].
  destruct (String.eqb word "def") eqn:E5; [lia|].
  destruct (String.eqb word "print") eqn:E6; [lia|].
  destruct (String.eqb word "or") eqn:E7; [lia|].
  destruct (String.eqb word "None") eqn:E8; [lia|].
  destruct (String.eqb word "and") eqn:E9; [lia|].
  destruct (String.eqb word "not") eqn:E10; [lia|].
  destruct (String.eqb word "True") eqn:E11; [lia|].
  destruct (String.eqb word "False") eqn:E12; [lia|].
  unfold add_if.
  rewrite E1, E2, E3, E4, E5, E6, E7, E8, E9, E10, E11, E12.
  split; [reflexivity|].
  unfold keywords. cbn [In].
  intros H'; repeat (destruct H' as [<-|H']; [rewrite String.eqb_refl in *; discriminate|]).
  exact H'.
Qed.

(** ** Every step of the lexer keeps the token list well formed *)

Lemma well_formed_emplace_back (l : Lexer) (t : Token) :
  well_formed (tokens_ l) -> token_shape t -> token_place (tokens_ l) t ->
  well_formed (tokens_ (emplace_back t l)).
Proof. intros. cbn. now constructor. Qed.

Lemma well_formed_add_if word key t (ts : list Token) :
  token_shape t -> (forall ts', token_place ts' t) ->
  well_formed ts -> well_formed (add_if word key t ts).
Proof.
  intros Hs Hp H. unfold add_if. destruct (String.eqb word key);
    [constructor; auto | assumption].
Qed.

Lemma well_formed_AddKeyword word (l : Lexer) :
  well_formed (tokens_ l) -> well_formed (tokens_ (snd (AddKeyword word l))).
Proof.
  intros H. unfold AddKeyword. cbn [snd tokens_].
  repeat (apply well_formed_add_if; [exact I | intros ?; exact I |]).
  exact H.
Qed.

Lemma is_word_char_of_start (c : ascii) :
  negb (isalpha c) && negb (char_eqb c "_"%char) = false -> is_word_char c = true.
Proof.
  unfold is_word_char, isalnum.
  destruct (isalpha c), (char_eqb c "_"%char), (isdigit c); cbn; congruence.
Qed.

Lemma well_formed_ExtractKeywordOrId (l : Lexer) :
  well_formed (tokens_ l) -> well_formed (tokens_ (ExtractKeywordOrId l)).
Proof.
  intros H. unfold ExtractKeywordOrId.
  destruct (IsEof l) as [[|] l0] eqn:E0.
  - change l0 with (snd (true, l0)). rewrite <- E0. now rewrite IsEof_tokens.
  - destruct (IsEof_false _ _ E0) as [-> [c Hp]]. rewrite Hp.
    cbn [to_char]. rewrite with_input_same.
    destruct (negb (isalpha c) && negb (char_eqb c "_"%char)) eqn:Ec;
      [assumption|].
    apply is_word_char_of_start in Ec.
    destruct (ReadWord_starts _ _ Hp Ec) as [Hw Hne].
    destruct (ReadWord (input_tokens_ l)) as [w s'].
    cbn [fst] in Hw, Hne.
    destruct (AddKeyword w (with_input l s')) as [[|] l1] eqn:Ea.
    + change l1 with (snd (true, l1)). rewrite <- Ea.
      now apply well_formed_AddKeyword.
    + destruct (AddKeyword_false _ _ _ Ea) as [Ht Hk].
      apply well_formed_emplace_back; rewrite ?Ht; cbn; auto.
Qed.

Lemma well_formed_two_char_or first_symbol ch t otherwise :
  token_shape t -> (forall ts, token_place ts t) ->
  (forall l, well_formed (tokens_ l) -> well_formed (tokens_ (otherwise l))) ->
  forall l, well_formed (tokens_ l) ->
            well_formed (tokens_ (two_char_or first_symbol ch t otherwise l)).
Proof.
  intros Hs Hp Ho l H. unfold two_char_or.
  destruct (char_eqb first_symbol ch); [|now apply Ho].
  destruct (peek _) as [c s]. destruct (peek_is _ c).
  - apply well_formed_emplace_back; cbn; auto.
  - now apply Ho.
Qed.

Lemma well_formed_ExtractOperatorEqOrSymbol (l : Lexer) :
  well_formed (tokens_ l) -> well_formed (tokens_ (ExtractOperatorEqOrSymbol l)).
Proof.
  intros H. unfold ExtractOperatorEqOrSymbol.
  destruct (IsEof l) as [[|] l0] eqn:E0.
  - change l0 with (snd (true, l0)). rewrite <- E0. now rewrite IsEof_tokens.
  - destruct (IsEof_false _ _ E0) as [-> [c Hp]]. rewrite Hp.
    rewrite with_input_same. cbn [peek_is].
    destruct (char_eqb c "#"%char) eqn:Eh; [assumption|].
    destruct (peek_Some _ _ _ Hp) as [_ [r Hg]]. rewrite Hg. cbn [to_char].
    destruct (negb (ispunct c) || char_eqb c QUOTE || char_eqb c "'"%char) eqn:Ec;
      [assumption|].
    apply orb_false_iff in Ec as [Ec E2]. apply orb_false_iff in Ec as [E0' E1].
    apply negb_false_iff in E0'.
    assert (Hshape : token_shape (token_type.Char c)).
    { cbn. unfold char_eqb in *.
      repeat split; try assumption; intros ->;
        rewrite Ascii.eqb_refl in *; discriminate. }
    cbn [tokens_ with_input].
    apply well_formed_two_char_or; [exact I | intros ?; exact I | | assumption].
    do 3 (apply well_formed_two_char_or; [exact I | intros ?; exact I |]).
    intros l0 H0. apply well_formed_emplace_back; cbn; auto.
Qed.

Lemma read_digits_digits (rounds : nat) : forall s acc,
  all_chars isdigit acc = true ->
  all_chars isdigit (fst (read_digits rounds s acc)) = true.
Proof.
  induction rounds as [|n IH]; intros s acc Hacc; cbn [read_digits];
    [assumption|].
  destruct (get s) as [[symbol|] s1]; [|assumption].
  destruct (isdigit symbol) eqn:E; [|assumption].
  apply IH. rewrite all_chars_app, Hacc. cbn. now rewrite E.
Qed.

Lemma digits_value_nonneg (s : string) : forall acc,
  all_chars isdigit s = true -> 0 <= acc -> 0 <= digits_value acc s.
Proof.
  induction s as [|c s IH]; intros acc Hs Hacc; cbn [digits_value];
    [assumption|].
  cbn [all_chars] in Hs. apply andb_true_iff in Hs as [Hc Hs].
  apply IH; [assumption|].
  unfold isdigit, in_range in Hc. apply andb_true_iff in Hc as [Hc _].
  apply N.leb_le in Hc. lia.
Qed.

Lemma well_formed_ExtractIntValue (l l' : Lexer) :
  ExtractIntValue l = Ok l' ->
  well_formed (tokens_ l) -> well_formed (tokens_ l').
Proof.
  unfold ExtractIntValue. intros E H.
  destruct (IsEof l) as [[|] l0] eqn:E0.
  - inversion E; subst. change l' with (snd (true, l')). rewrite <- E0.
    now rewrite IsEof_tokens.
  - destruct (IsEof_false _ _ E0) as [-> _].
    destruct (get _) as [g s]. destruct (isdigit (to_char g)) eqn:Ed.
    + pose proof (read_digits_digits (S (String.length (rdbuf s))) s
                    (String.String (to_char g) EmptyString)) as Hd.
      destruct (read_digits _ _ _) as [p s']. cbn [fst] in Hd.
      unfold stoi in E.
      destruct (digits_value 0 p <=? 2147483647) eqn:Eb; [|discriminate].
      cbn in E. inversion E; subst.
      apply well_formed_emplace_back; cbn; auto.
      split; [|now apply Z.leb_le].
      apply digits_value_nonneg; [|lia]. apply Hd. cbn. now rewrite Ed.
    + inversion E; subst. assumption.
Qed.

Lemma well_formed_ExtractString (l l' : Lexer) :
  ExtractString l = Ok l' ->
  well_formed (tokens_ l) -> well_formed (tokens_ l').
Proof.
  unfold ExtractString. intros E H.
  destruct (IsEof l) as [[|] l0] eqn:E0.
  - inversion E; subst. change l' with (snd (true, l')). rewrite <- E0.
    now rewrite IsEof_tokens.
  - destruct (IsEof_false _ _ E0) as [-> _].
    destruct (get _) as [g s]. destruct (_ && _).
    + inversion E; subst. assumption.
    + destruct (ExtractString_loop _ _ _ _) as [r|]; cbn in E; [|discriminate].
      inversion E; subst. apply well_formed_emplace_back; cbn; auto.
Qed.

Lemma back_not_Newline_nor_Dedent (ts : list Token) :
  nonempty_and_back_not_Newline_nor_Dedent ts = true ->
  nonempty_and_back_not_Newline ts = true.
Proof.
  unfold nonempty_and_back_not_Newline_nor_Dedent, nonempty_and_back_not_Newline.
  destruct (last ts); [|discriminate]. now intros [H _]%andb_true_iff.
Qed.

Lemma well_formed_ExtractComments (l : Lexer) :
  well_formed (tokens_ l) -> well_formed (tokens_ (ExtractComments l)).
Proof.
  intros H. unfold ExtractComments. destruct (peek _) as [c s].
  destruct (negb _); [assumption|].
  cbn [tokens_ with_input].
  destruct (nonempty_and_back_not_Newline_nor_Dedent (tokens_ l)) eqn:E;
    [|assumption].
  apply well_formed_emplace_back; cbn; auto.
  now apply back_not_Newline_nor_Dedent.
Qed.

Lemma well_formed_ExtractNewLine (l : Lexer) :
  well_formed (tokens_ l) -> well_formed (tokens_ (ExtractNewLine l)).
Proof.
  intros H. unfold ExtractNewLine.
  destruct (IsEof l) as [[|] l0] eqn:E0.
  - change l0 with (snd (true, l0)). rewrite <- E0. now rewrite IsEof_tokens.
  - destruct (IsEof_false _ _ E0) as [-> _].
    destruct (peek _) as [c s]. destruct (negb _); [assumption|].
    cbn [tokens_ with_input].
    destruct (nonempty_and_back_not_Newline (tokens_ l)) eqn:E; [|assumption].
    apply well_formed_emplace_back; cbn; auto.
Qed.

Lemma well_formed_indent_loop (k : nat) : forall l,
  well_formed (tokens_ l) ->
  match last (tokens_ l) with
  | Some p => is_Newline p || is_Indent p = true
  | Datatypes.None => True
  end ->
  well_formed (tokens_ (indent_loop k l)).
Proof.
  induction k as [|k IH]; intros l H Hl; cbn [indent_loop]; [assumption|].
  apply IH; cbn [tokens_ with_dent emplace_back].
  - constructor; [assumption | exact I | exact Hl].
  - now rewrite last_snoc.
Qed.

Lemma well_formed_dedent_loop (k : nat) : forall l l',
  dedent_loop k l = Ok l' ->
  well_formed (tokens_ l) ->
  match last (tokens_ l) with
  | Some p => is_Newline p || is_Dedent p = true
  | Datatypes.None => True
  end ->
  well_formed (tokens_ l').
Proof.
  induction k as [|k IH]; intros l l' E H Hl; cbn [dedent_loop] in E.
  - now inversion E; subst.
  - destruct (_ =? 0); [discriminate|].
    apply (IH _ _ E); cbn [tokens_ with_dent emplace_back].
    + constructor; [assumption | exact I | exact Hl].
    + now rewrite last_snoc.
Qed.

Lemma well_formed_ExtractDent (l l' : Lexer) :
  ExtractDent l = Ok l' ->
  well_formed (tokens_ l) -> well_formed (tokens_ l').
Proof.
  unfold ExtractDent. intros E H.
  destruct (nonempty_and_back_not_Newline (tokens_ l)) eqn:En;
    [now inversion E; subst|].
  destruct (peek _) as [c s]. destruct (peek_is LF c);
    [now inversion E; subst|].
  destruct (count_spaces _ s 0) as [count_space s'].
  destruct (negb _); [discriminate|].
  unfold nonempty_and_back_not_Newline in En.
  destruct (0 <? _).
  - inversion E; subst. apply well_formed_indent_loop; cbn [tokens_ with_input];
      [assumption|].
    destruct (last (tokens_ l)); [|exact I].
    apply negb_false_iff in En. now rewrite En.
  - apply (well_formed_dedent_loop _ _ _ E); cbn [tokens_ with_input];
      [assumption|].
    destruct (last (tokens_ l)); [|exact I].
    apply negb_false_iff in En. now rewrite En.
Qed.

Lemma well_formed_scan_step (l l' : Lexer) :
  scan_step l = Ok l' -> well_formed (tokens_ l) -> well_formed (tokens_ l').
Proof.
  unfold scan_step. intros E H.
  destruct (ExtractIntValue _) as [l1|] eqn:E1; [|discriminate].
  cbn [parse.bind] in E.
  destruct (ExtractString l1) as [l2|] eqn:E2; [|discriminate].
  cbn [parse.bind] in E.
  apply (well_formed_ExtractDent _ _ E).
  apply well_formed_ExtractNewLine, well_formed_ExtractComments.
  unfold RemovingSpacesBeforeTokens. cbn [tokens_ with_input].
  apply (well_formed_ExtractString _ _ E2).
  apply (well_formed_ExtractIntValue _ _ E1).
  now apply well_formed_ExtractOperatorEqOrSymbol, well_formed_ExtractKeywordOrId.
Qed.

Lemma well_formed_ParseTokens_loop (fuel : nat) : forall l l',
  ParseTokens_loop fuel l = Some (Ok l') ->
  well_formed (tokens_ l) -> well_formed (tokens_ l').
Proof.
  induction fuel as [|n IH]; intros l l'; cbn [ParseTokens_loop]; [discriminate|].
  destruct (fail _); [now intros [= <-]|].
  destruct (scan_step l) as [l1|] eqn:E; [|discriminate].
  intros H Hw. apply (IH _ _ H). exact (well_formed_scan_step _ _ E Hw).
Qed.

(** The token list that [ParseTokens] returns: a well-formed list, closed
    by [Newline] unless it is empty or ends in [Newline] or [Dedent], and
    then [Eof]. *)
Lemma ParseTokens_shape (fuel : nat) (input : string) (ts : list Token) :
  ParseTokens fuel input = Some (Ok ts) ->
  exists body,
    ts = body ++ [token_type.Eof]
    /\ well_formed body
    /\ nonempty_and_back_not_Newline_nor_Dedent body = false.
Proof.
  unfold ParseTokens, ParseTokens_from. intros H.
  destruct (ParseTokens_loop _ _) as [[l'|e]|] eqn:E; try discriminate.
  inversion H; subst; clear H.
  assert (Hw : well_formed (tokens_ l')).
  { apply (well_formed_ParseTokens_loop _ _ _ E). cbn. constructor. }
  unfold finish.
  destruct (nonempty_and_back_not_Newline_nor_Dedent (tokens_ l')) eqn:En.
  - exists (tokens_ l' ++ [token_type.Newline]). split; [reflexivity|]. split.
    + constructor; [assumption | exact I |].
      now apply back_not_Newline_nor_Dedent.
    + unfold nonempty_and_back_not_Newline_nor_Dedent. now rewrite last_snoc.
  - exists (tokens_ l'). auto.
Qed.

(** Each token of a well-formed list has its shape and respects the
    tokens before it. *)
Lemma well_formed_lookup (ts : list Token) :
  well_formed ts ->
  forall i t, ts !! i = Some t -> token_shape t /\ token_place (take i ts) t.
Proof.
  induction 1 as [|ts t0 _ IH Hs Hp]; intros i t Hi; [discriminate|].
  destruct (Nat.lt_ge_cases i (length ts)) as [Hlt|Hge].
  - rewrite lookup_app_l in Hi by assumption.
    rewrite take_app_le by lia. now apply IH.
  - rewrite lookup_app_r in Hi by assumption.
    destruct (i - length ts)%nat eqn:E; [|destruct n; discriminate].
    cbn in Hi. inversion Hi; subst.
    assert (i = length ts) as -> by lia.
    rewrite take_app_length. auto.
Qed.

Lemma last_take_S (ts : list Token) (i : nat) :
  (i < length ts)%nat -> last (take (S i) ts) = ts !! i.
Proof.
  intros H. rewrite last_lookup, length_take.
  replace (Nat.pred (S i `min` length ts)) with i by lia.
  apply lookup_take_lt. lia.
Qed.

(** The same, for the list that [ParseTokens] returns *)
Lemma ParseTokens_lookup (fuel : nat) (input : string) (ts : list Token) :
  ParseTokens fuel input = Some (Ok ts) ->
  forall i t, ts !! i = Some t ->
    t = token_type.Eof /\ S i = length ts
    \/ t <> token_type.Eof /\ (S i < length ts)%nat
       /\ token_shape t /\ token_place (take i ts) t.
Proof.
  intros H i t Hi. destruct (ParseTokens_shape _ _ _ H) as (body & -> & Hw & _).
  rewrite length_app. cbn [length].
  destruct (Nat.lt_ge_cases i (length body)) as [Hlt|Hge].
  - right. rewrite lookup_app_l in Hi by assumption.
    rewrite take_app_le by lia.
    destruct (well_formed_lookup _ Hw _ _ Hi) as [Hs Hp].
    repeat split; try assumption; try lia. intros ->. exact Hs.
  - left. rewrite lookup_app_r in Hi by assumption.
    destruct (i - length body)%nat eqn:E; [|destruct n; discriminate].
    cbn in Hi. inversion Hi. split; [reflexivity | lia].
Qed.

(** ** The shape of the token list *)

(** X3.  Whenever the lexer returns, the list is some tokens followed by
    [Eof]; [Eof] occurs nowhere else; and what precedes it is empty or ends in
    [Newline] or [Dedent]. *)
Theorem ParseTokens_ends_with_Eof (fuel : nat) (input : string) (ts : list Token) :
  ParseTokens fuel input = Some (Ok ts) ->
  exists body,
    ts = body ++ [token_type.Eof]
    /\ ~ In token_type.Eof body
    /\ (body = [] \/ last body = Some token_type.Newline
        \/ last body = Some token_type.Dedent).
Proof.
  intros H. destruct (ParseTokens_shape _ _ _ H) as (body & -> & Hw & Hb).
  exists body. split; [reflexivity|]. split.
  - intros Hin. apply list_elem_of_In, list_elem_of_lookup in Hin as [i Hi].
    now destruct (well_formed_lookup _ Hw _ _ Hi) as [Hs _].
  - unfold nonempty_and_back_not_Newline_nor_Dedent in Hb.
    destruct (last body) as [p|] eqn:El.
    + right. destruct p; cbn in Hb; try discriminate; auto.
    + left. now apply last_None.
Qed.

Lemma ParseTokens_ends_with_Eof_witness :
  exists body,
    [token_type.Id "a"; token_type.Newline; token_type.Eof]
    = body ++ [token_type.Eof]
    /\ ~ In token_type.Eof body
    /\ (body = [] \/ last body = Some token_type.Newline
        \/ last body = Some token_type.Dedent).
Proof.
  apply (ParseTokens_ends_with_Eof 10 "a"). vm_compute. reflexivity.
Defined.

(** X4.  The list never starts with [Newline] and never has two [Newline]s
    in a row: blank lines, comment lines and the end of the stream add no
    second one. *)
Theorem ParseTokens_Newlines_collapsed (fuel : nat) (input : string)
    (ts : list Token) :
  ParseTokens fuel input = Some (Ok ts) ->
  ts !! 0%nat <> Some token_type.Newline
  /\ forall i, ts !! i = Some token_type.Newline ->
               ts !! S i <> Some token_type.Newline.
Proof.
  intros H. split.
  - intros H0. destruct (ParseTokens_lookup _ _ _ H _ _ H0)
      as [[? _]|(_ & _ & _ & Hp)]; [discriminate|].
    rewrite take_0 in Hp. discriminate.
  - intros i Hi Hsi.
    destruct (ParseTokens_lookup _ _ _ H _ _ Hsi)
      as [[? _]|(_ & Hlen & _ & Hp)]; [discriminate|].
    cbn in Hp. unfold nonempty_and_back_not_Newline in Hp.
    rewrite last_take_S, Hi in Hp by lia. discriminate.
Qed.

Lemma ParseTokens_Newlines_collapsed_witness :
  let ts := [token_type.Id "a"; token_type.Newline; token_type.Id "b";
             token_type.Newline; token_type.Eof] in
  ts !! 0%nat <> Some token_type.Newline
  /\ forall i, ts !! i = Some token_type.Newline ->
               ts !! S i <> Some token_type.Newline.
Proof.
  apply (ParseTokens_Newlines_collapsed 10
           (line "a" (line "" (line "# c" (line "" (line "b" "")))))).
  vm_compute. reflexivity.
Defined.

(** X5.  Every [Number] token carries a value between 0 and [INT_MAX]: a
    literal is a run of digits, and [stoi] throws on a larger one. *)
Theorem ParseTokens_Number_in_int_range (fuel : nat) (input : string)
    (ts : list Token) (v : Z) :
  ParseTokens fuel input = Some (Ok ts) ->
  In (token_type.Number v) ts -> 0 <= v <= 2147483647.
Proof.
  intros H Hin. apply list_elem_of_In, list_elem_of_lookup in Hin as [i Hi].
  destruct (ParseTokens_lookup _ _ _ H _ _ Hi) as [[? _]|(_ & _ & Hs & _)];
    [discriminate | exact Hs].
Qed.

Lemma ParseTokens_Number_in_int_range_witness : 0 <= 42 <= 2147483647.
Proof.
  apply (ParseTokens_Number_in_int_range 10 "x = 42"
           [token_type.Id "x"; token_type.Char "="%char; token_type.Number 42;
            token_type.Newline; token_type.Eof] 42).
  - vm_compute. reflexivity.
  - cbn. auto.
Defined.

(** A literal above [INT_MAX] leaves the lexer by [std::out_of_range], which
    is not a [LexerError]. *)
Example lexer_literal_out_of_range :
  ParseTokens 10 "2147483648" = Some (Throw (out_of_range "stoi")).
Proof. vm_compute. reflexivity. Qed.

(** X6.  An [Id] token never carries one of the twelve keywords; its text is
    not empty and consists of letters, digits and underscores. *)
Theorem ParseTokens_Id_is_no_keyword (fuel : nat) (input : string)
    (ts : list Token) (w : string) :
  ParseTokens fuel input = Some (Ok ts) ->
  In (token_type.Id w) ts ->
  ~ In w keywords /\ w <> EmptyString /\ all_chars is_word_char w = true.
Proof.
  intros H Hin. apply list_elem_of_In, list_elem_of_lookup in Hin as [i Hi].
  destruct (ParseTokens_lookup _ _ _ H _ _ Hi) as [[? _]|(_ & _ & Hs & _)];
    [discriminate | exact Hs].
Qed.

Lemma ParseTokens_Id_is_no_keyword_witness :
  ~ In "classes" keywords /\ "classes" <> EmptyString
  /\ all_chars is_word_char "classes" = true.
Proof.
  apply (ParseTokens_Id_is_no_keyword 10 "class classes"
           [token_type.Class; token_type.Id "classes"; token_type.Newline;
            token_type.Eof] "classes").
  - vm_compute. reflexivity.
  - cbn. auto.
Defined.

(** X7.  A [Char] token carries a punctuation character other than the two
    quotes and the number sign. *)
Theorem ParseTokens_Char_is_punctuation (fuel : nat) (input : string)
    (ts : list Token) (c : ascii) :
  ParseTokens fuel input = Some (Ok ts) ->
  In (token_type.Char c) ts ->
  ispunct c = true /\ c <> QUOTE /\ c <> "'"%char /\ c <> "#"%char.
Proof.
  intros H Hin. apply list_elem_of_In, list_elem_of_lookup in Hin as [i Hi].
  destruct (ParseTokens_lookup _ _ _ H _ _ Hi) as [[? _]|(_ & _ & Hs & _)];
    [discriminate | exact Hs].
Qed.

Lemma ParseTokens_Char_is_punctuation_witness :
  ispunct "="%char = true /\ "="%char <> QUOTE /\ "="%char <> "'"%char
  /\ "="%char <> "#"%char.
Proof.
  apply (ParseTokens_Char_is_punctuation 10 "x = 42"
           [token_type.Id "x"; token_type.Char "="%char; token_type.Number 42;
            token_type.Newline; token_type.Eof] "="%char).
  - vm_compute. reflexivity.
  - cbn. auto.
Defined.

(** X8.  An [Indent] stands at the head of the list or directly after a
    [Newline] or another [Indent]; a [Dedent] directly after a [Newline] or
    another [Dedent]. *)
Theorem ParseTokens_dents_follow_Newline (fuel : nat) (input : string)
    (ts : list Token) (i : nat) :
  ParseTokens fuel input = Some (Ok ts) ->
  (ts !! S i = Some token_type.Indent ->
   ts !! i = Some token_type.Newline \/ ts !! i = Some token_type.Indent)
  /\ (ts !! S i = Some token_type.Dedent ->
      ts !! i = Some token_type.Newline \/ ts !! i = Some token_type.Dedent)
  /\ ts !! 0%nat <> Some token_type.Dedent.
Proof.
  intros H. split; [|split].
  - intros Hsi.
    destruct (ParseTokens_lookup _ _ _ H _ _ Hsi)
      as [[? _]|(_ & Hlen & _ & Hp)]; [discriminate|].
    cbn in Hp. rewrite last_take_S in Hp by lia.
    destruct (ts !! i) as [p|] eqn:E;
      [|apply lookup_ge_None in E; lia].
    destruct p; cbn in Hp; try discriminate; auto.
  - intros Hsi.
    destruct (ParseTokens_lookup _ _ _ H _ _ Hsi)
      as [[? _]|(_ & Hlen & _ & Hp)]; [discriminate|].
    cbn in Hp. rewrite last_take_S in Hp by lia.
    destruct (ts !! i) as [p|] eqn:E;
      [|apply lookup_ge_None in E; lia].
    destruct p; cbn in Hp; try discriminate; auto.
  - intros H0. pose proof (ParseTokens_prefixes_balanced _ _ _ H 1) as Hb.
    destruct ts as [|t ts']; [discriminate|]. cbn in H0. inversion H0; subst.
    vm_compute in Hb. lia.
Qed.

Lemma ParseTokens_dents_follow_Newline_witness :
  let ts := [token_type.Id "a"; token_type.Newline; token_type.Indent;
             token_type.Id "b"; token_type.Newline; token_type.Dedent;
             token_type.Eof] in
  ParseTokens 10 (line "a" (line "  b" "")) = Some (Ok ts)
  /\ ts !! 2%nat = Some token_type.Indent
  /\ (ts !! 1%nat = Some token_type.Newline \/ ts !! 1%nat = Some token_type.Indent).
Proof.
  cbv zeta. split; [vm_compute; reflexivity|]. split; [reflexivity|].
  apply (ParseTokens_dents_follow_Newline 10 (line "a" (line "  b" "")) _ 1);
    [vm_compute; reflexivity | reflexivity].
Defined.

(** ** String literals *)

Lemma append_nil_r (a : string) : a +:+ EmptyString = a.
Proof.
  induction a as [|c a IH]; [reflexivity|].
  change (String.String c a +:+ EmptyString) with (String.String c (a +:+ EmptyString)).
  now rewrite IH.
Qed.

Lemma append_assoc (a b c : string) : (a +:+ b) +:+ c = a +:+ (b +:+ c).
Proof.
  induction a as [|d a IH]; [reflexivity|].
  change (String.String d a +:+ b) with (String.String d (a +:+ b)).
  change (String.String d (a +:+ b) +:+ c) with (String.String d ((a +:+ b) +:+ c)).
  now rewrite IH.
Qed.

Lemma get_empty (s : istream) :
  good s = true -> rdbuf s = EmptyString ->
  get s = (Datatypes.None, set_fail (set_eof s)).
Proof. intros Hg Hb. unfold get. now rewrite Hg, Hb. Qed.

(** The loop over a run of plain characters: it copies them and goes on
    with what follows. *)
Lemma ExtractString_loop_plain (body : string) : forall rounds quote s acc tail,
  good s = true ->
  rdbuf s = body +:+ tail ->
  all_chars (is_plain quote) body = true ->
  ExtractString_loop (String.length body + rounds) quote s acc
  = ExtractString_loop rounds quote (with_buf s tail) (acc +:+ body).
Proof.
  induction body as [|c body IH]; intros rounds quote s acc tail Hg Hb Hp.
  - rewrite append_nil_r. cbn [String.length Nat.add].
    change (EmptyString +:+ tail) with tail in Hb.
    destruct s; cbn in *; subst; reflexivity.
  - change (String.String c body +:+ tail)
      with (String.String c (body +:+ tail)) in Hb.
    cbn [all_chars] in Hp. apply andb_true_iff in Hp as [Hc Hp].
    unfold is_plain in Hc.
    apply andb_true_iff in Hc as [Hc H4]. apply andb_true_iff in Hc as [Hc H3].
    apply andb_true_iff in Hc as [H1 H2].
    apply negb_true_iff in H1, H2, H3, H4.
    cbn [String.length Nat.add ExtractString_loop].
    rewrite (get_good _ _ _ Hg Hb), H1, H2, H3, H4. cbn [orb].
    rewrite (IH rounds quote (with_buf s (body +:+ tail)) (push_back acc c) tail
               Hg eq_refl Hp).
    unfold push_back. rewrite append_assoc. reflexivity.
Qed.

Lemma is_quote_test (quote : ascii) :
  quote = "'"%char \/ quote = QUOTE ->
  negb (char_eqb quote "'"%char) && negb (char_eqb quote QUOTE) = false.
Proof. intros [-> | ->]; reflexivity. Qed.

Lemma ExtractString_start (l : Lexer) (quote : ascii) (r : string) :
  quote = "'"%char \/ quote = QUOTE ->
  good (input_tokens_ l) = true ->
  rdbuf (input_tokens_ l) = String.String quote r ->
  ExtractString l
  = (do res <- ExtractString_loop (S (String.length r)) quote
                 (with_buf (input_tokens_ l) r) EmptyString;
     Ok (emplace_back (token_type.String (fst res)) (with_input l (snd res)))).
Proof.
  intros Hq Hg Hb. unfold ExtractString, IsEof.
  rewrite (peek_good _ _ _ Hg Hb). rewrite with_input_same.
  rewrite (get_good _ _ _ Hg Hb). cbn [to_char].
  rewrite (is_quote_test _ Hq). reflexivity.
Qed.

(** X9.  A literal whose body holds neither its own quote, nor a backslash,
    nor a line break becomes one [String] token carrying exactly the body,
    and the stream is left just after the closing quote. *)
Theorem ExtractString_plain_literal (l : Lexer) (quote : ascii)
    (body rest : string) :
  quote = "'"%char \/ quote = QUOTE ->
  good (input_tokens_ l) = true ->
  rdbuf (input_tokens_ l)
  = String.String quote (body +:+ String.String quote rest) ->
  all_chars (is_plain quote) body = true ->
  ExtractString l
  = Ok (emplace_back (token_type.String body)
                     (with_input l (with_buf (input_tokens_ l) rest))).
Proof.
  intros Hq Hg Hb Hp. rewrite (ExtractString_start _ _ _ Hq Hg Hb).
  rewrite length_app_string. cbn [String.length].
  set (m := S (String.length rest)).
  replace (S (String.length body + m)) with (String.length body + S m)%nat by lia.
  rewrite (ExtractString_loop_plain body _ quote
             (with_buf (input_tokens_ l) (body +:+ String.String quote rest))
             EmptyString (String.String quote rest) Hg eq_refl Hp).
  cbn [ExtractString_loop].
  rewrite (get_good _ quote rest) by (try exact Hg; reflexivity).
  unfold char_eqb. rewrite Ascii.eqb_refl. reflexivity.
Qed.

Lemma ExtractString_plain_literal_witness :
  ExtractString (mk_Lexer (mk_istream "'it is' + x" false false false) [] 0)
  = Ok (mk_Lexer (mk_istream " + x" false false false)
                 [token_type.String "it is"] 0).
Proof.
  apply (ExtractString_plain_literal
           (mk_Lexer (mk_istream "'it is' + x" false false false) [] 0)
           "'"%char "it is" " + x"); auto.
Defined.

(** X10.  When the stream ends before the closing quote, nothing is raised:
    the characters read so far become the [String] token, and the stream is
    left failed. *)
Theorem ExtractString_unterminated (l : Lexer) (quote : ascii) (body : string) :
  quote = "'"%char \/ quote = QUOTE ->
  good (input_tokens_ l) = true ->
  rdbuf (input_tokens_ l) = String.String quote body ->
  all_chars (is_plain quote) body = true ->
  exists s,
    ExtractString l = Ok (emplace_back (token_type.String body) (with_input l s))
    /\ fail s = true.
Proof.
  intros Hq Hg Hb Hp. rewrite (ExtractString_start _ _ _ Hq Hg Hb).
  replace (S (String.length body)) with (String.length body + 1)%nat by lia.
  rewrite (ExtractString_loop_plain body _ quote
             (with_buf (input_tokens_ l) body) EmptyString EmptyString Hg
             (eq_sym (append_nil_r body)) Hp).
  cbn [ExtractString_loop].
  rewrite get_empty by (try exact Hg; reflexivity).
  eexists. split; [reflexivity|]. reflexivity.
Qed.

Lemma ExtractString_unterminated_witness :
  exists s,
    ExtractString (mk_Lexer (mk_istream "'abc" false false false) [] 0)
    = Ok (emplace_back (token_type.String "abc")
            (with_input (mk_Lexer (mk_istream "'abc" false false false) [] 0) s))
    /\ fail s = true.
Proof.
  apply (ExtractString_unterminated
           (mk_Lexer (mk_istream "'abc" false false false) [] 0) "'"%char "abc");
    auto.
Defined.

(** X11.  In a literal whose body so far holds neither its quote, nor a
    backslash, nor a line break, a line feed or carriage return raises
    [LexerError]: "Unexpected end of line" when it follows the body
    directly, and "Unrecognized escape sequence" when a backslash stands
    before it. *)
Theorem ExtractString_line_break_raises (l : Lexer) (quote brk : ascii)
    (body rest : string) :
  quote = "'"%char \/ quote = QUOTE ->
  brk = LF \/ brk = CR ->
  good (input_tokens_ l) = true ->
  all_chars (is_plain quote) body = true ->
  (rdbuf (input_tokens_ l)
   = String.String quote (body +:+ String.String brk rest) ->
   ExtractString l = Throw (LexerError "Unexpected end of line"))
  /\ (rdbuf (input_tokens_ l)
      = String.String quote
          (body +:+ String.String "\"%char (String.String brk rest)) ->
      ExtractString l
      = Throw (LexerError (push_back "Unrecognized escape sequence \" brk))).
Proof.
  intros Hq Hbrk Hg Hp. split; intros Hb.
  - rewrite (ExtractString_start _ _ _ Hq Hg Hb).
    rewrite length_app_string. cbn [String.length].
    set (m := S (String.length rest)).
    replace (S (String.length body + m)) with (String.length body + S m)%nat
      by lia.
    rewrite (ExtractString_loop_plain body _ quote
               (with_buf (input_tokens_ l) (body +:+ String.String brk rest))
               EmptyString (String.String brk rest) Hg eq_refl Hp).
    cbn [ExtractString_loop].
    rewrite (get_good _ brk rest) by (try exact Hg; reflexivity).
    destruct Hq as [-> | ->], Hbrk as [-> | ->]; reflexivity.
  - rewrite (ExtractString_start _ _ _ Hq Hg Hb).
    rewrite length_app_string. cbn [String.length].
    set (m := S (S (String.length rest))).
    replace (S (String.length body + m)) with (String.length body + S m)%nat
      by lia.
    rewrite (ExtractString_loop_plain body _ quote
               (with_buf (input_tokens_ l)
                  (body +:+ String.String "\"%char (String.String brk rest)))
               EmptyString (String.String "\"%char (String.String brk rest))
               Hg eq_refl Hp).
    cbn [ExtractString_loop].
    rewrite (get_good _ "\"%char (String.String brk rest))
      by (try exact Hg; reflexivity).
    rewrite (get_good _ brk rest) by (try exact Hg; reflexivity).
    destruct Hq as [-> | ->], Hbrk as [-> | ->]; reflexivity.
Qed.

Lemma ExtractString_line_break_raises_witness :
  ExtractString (mk_Lexer (mk_istream (line "'ab" "c'") false false false) [] 0)
  = Throw (LexerError "Unexpected end of line")
  /\ ExtractString (mk_Lexer (mk_istream (line "'ab\" "c'") false false false) [] 0)
     = Throw (LexerError (push_back "Unrecognized escape sequence \" LF)).
Proof.
  split.
  - apply (proj1 (ExtractString_line_break_raises
                    (mk_Lexer (mk_istream (line "'ab" "c'") false false false) [] 0)
                    "'"%char LF "ab" "c'" (or_introl eq_refl) (or_introl eq_refl)
                    eq_refl eq_refl)).
    reflexivity.
  - apply (proj2 (ExtractString_line_break_raises
                    (mk_Lexer (mk_istream (line "'ab\" "c'") false false false) [] 0)
                    "'"%char LF "ab" "c'" (or_introl eq_refl) (or_introl eq_refl)
                    eq_refl eq_refl)).
    reflexivity.
Defined.

(** ** Indentation levels *)

Lemma indent_loop_spec (k : nat) : forall l,
  0 <= current_dent_ l -> current_dent_ l + Z.of_nat k < 65536 ->
  indent_loop k l
  = mk_Lexer (input_tokens_ l) (tokens_ l ++ replicate k token_type.Indent)
             (current_dent_ l + Z.of_nat k).
Proof.
  induction k as [|k IH]; intros l H0 Hk; cbn [indent_loop replicate].
  - rewrite app_nil_r, Z.add_0_r. now destruct l.
  - rewrite IH; cbn [current_dent_ tokens_ input_tokens_ with_dent emplace_back];
      unfold uint16; rewrite ?Z.mod_small by lia; try lia.
    rewrite <- app_assoc. cbn [app]. f_equal. lia.
Qed.

Lemma dedent_loop_spec (k : nat) : forall l,
  Z.of_nat k <= current_dent_ l < 65536 ->
  dedent_loop k l
  = Ok (mk_Lexer (input_tokens_ l) (tokens_ l ++ replicate k token_type.Dedent)
                 (current_dent_ l - Z.of_nat k)).
Proof.
  induction k as [|k IH]; intros l Hk; cbn [dedent_loop replicate].
  - rewrite app_nil_r, Z.sub_0_r. now destruct l.
  - cbn [current_dent_ emplace_back].
    destruct (Z.eqb_spec (current_dent_ l) 0) as [E|E]; [lia|].
    rewrite IH; cbn [current_dent_ tokens_ input_tokens_ with_dent emplace_back];
      unfold uint16; rewrite ?Z.mod_small by lia; try lia.
    rewrite <- app_assoc. cbn [app]. do 2 f_equal. lia.
Qed.

Lemma even_mod_2 (n : nat) : Nat.Even n -> Z.of_nat n mod 2 = 0.
Proof.
  intros [k ->]. replace (Z.of_nat (2 * k)) with (Z.of_nat k * 2) by lia.
  apply Z.mod_mul. lia.
Qed.

Lemma even_mod_65536 (n : nat) : Nat.Even n -> (Z.of_nat n mod 65536) mod 2 = 0.
Proof.
  intros H. rewrite Z.mod_mod_divide by (exists 32768; lia).
  now apply even_mod_2.
Qed.

(** What [ExtractDent] counts on a line that opens with [n] spaces: [n]
    modulo 65536, the counter being a [uint16_t] *)
Lemma ExtractDent_count (l : Lexer) (n : nat) (rest : string) :
  good (input_tokens_ l) = true ->
  rdbuf (input_tokens_ l) = spaces n +:+ rest ->
  starts_with_space rest = false ->
  (n = 0%nat -> starts_with LF rest = false) ->
  exists s s',
    peek (input_tokens_ l) = (fst (peek (input_tokens_ l)), s)
    /\ peek_is LF (fst (peek (input_tokens_ l))) = false
    /\ count_spaces (S (String.length (rdbuf s))) s 0
       = (Z.of_nat n mod 65536, s').
Proof.
  intros Hg Hb Hr Hlf.
  destruct (spaces n +:+ rest) as [|c r] eqn:E.
  - (* nothing is left: [peek] sets [eofbit], the loop does not start *)
    assert (n = 0%nat) as -> by (destruct n; [reflexivity | discriminate]).
    unfold peek at 1 2 3. rewrite Hg, Hb. cbn [fst]. do 2 eexists.
    split; [reflexivity|]. split; [reflexivity|].
    cbn [count_spaces]. unfold peek, good. cbn. reflexivity.
  - rewrite (peek_good _ _ _ Hg Hb). cbn [fst]. do 2 eexists.
    split; [reflexivity|]. split.
    + cbn [peek_is]. destruct n as [|n].
      * change (spaces 0 +:+ rest) with rest in E. subst rest.
        now apply Hlf.
      * change (spaces (S n) +:+ rest)
          with (String.String SPACE (spaces n +:+ rest)) in E.
        inversion E; subst. reflexivity.
    + rewrite <- E in Hb.
      rewrite (count_spaces_spec n _ (input_tokens_ l) rest 0 Hg Hb Hr)
        by (rewrite ?Hb, ?length_spaces_app; lia).
      rewrite Z.add_0_l. reflexivity.
Qed.

(** X12.  Where [ExtractDent] counts, an even number [n] of leading spaces
    moves a level between 0 and 32767 to the half of what the [uint16_t]
    counter holds, [n] modulo 65536 -- to [n / 2] when there are fewer than
    65536 spaces: the token list grows by as many [Indent]s as the level
    rises, or as many [Dedent]s as it falls, and by nothing else. *)
Theorem ExtractDent_moves_to_level (l : Lexer) (n : nat) (rest : string) :
  nonempty_and_back_not_Newline (tokens_ l) = false ->
  good (input_tokens_ l) = true ->
  rdbuf (input_tokens_ l) = spaces n +:+ rest ->
  starts_with_space rest = false ->
  (n = 0%nat -> starts_with LF rest = false) ->
  Nat.Even n ->
  0 <= current_dent_ l <= 32767 ->
  let level := (Z.of_nat n mod 65536) / 2 in
  (Z.of_nat n < 65536 -> level = Z.of_nat n / 2)
  /\ exists s,
       ExtractDent l
       = Ok (mk_Lexer s (tokens_ l ++ dent_tokens (current_dent_ l) level) level).
Proof.
  intros Ht Hg Hb Hr Hlf Heven Hc. cbv zeta.
  split; [intros Hn; now rewrite Z.mod_small by lia|].
  destruct (ExtractDent_count l n rest Hg Hb Hr Hlf) as (s & s' & Hp & Hl & Hcount).
  unfold ExtractDent. rewrite Ht, Hp, Hl, Hcount.
  cbn [input_tokens_ with_input tokens_ current_dent_].
  unfold num_space_dent_. rewrite (even_mod_65536 n Heven). cbn [Z.eqb negb].
  set (count := Z.of_nat n mod 65536).
  assert (Hcnt : 0 <= count < 65536) by (apply Z.mod_pos_bound; lia).
  assert (Hdiv : 0 <= count / 2 <= 32767).
  { split; [apply Z.div_pos; lia|].
    apply Z.lt_succ_r, Z.div_lt_upper_bound; lia. }
  rewrite int16_small by lia. unfold dent_tokens. exists s'.
  destruct (Z.ltb_spec 0 (count / 2 - current_dent_ l)) as [Hlt|Hge].
  - rewrite indent_loop_spec; unfold with_input;
      cbn [input_tokens_ tokens_ current_dent_];
      rewrite ?Z2Nat.id by lia; try lia.
    destruct (Z.leb_spec (current_dent_ l) (count / 2)); [|lia].
    do 2 f_equal. lia.
  - rewrite dedent_loop_spec; unfold with_input;
      cbn [input_tokens_ tokens_ current_dent_];
      rewrite ?Z2Nat.id by lia; try lia.
    destruct (Z.leb_spec (current_dent_ l) (count / 2)).
    + replace (count / 2 - current_dent_ l) with 0 by lia.
      replace (- 0) with 0 by lia. cbn [Z.to_nat replicate].
      do 2 f_equal. lia.
    + do 2 f_equal; [do 2 f_equal|]; lia.
Qed.

Lemma ExtractDent_moves_to_level_witness :
  exists s,
    ExtractDent (mk_Lexer (mk_istream "  b" false false false)
                          [token_type.Id "a"; token_type.Newline] 3)
    = Ok (mk_Lexer s [token_type.Id "a"; token_type.Newline;
                      token_type.Dedent; token_type.Dedent] 1).
Proof.
  apply (ExtractDent_moves_to_level
           (mk_Lexer (mk_istream "  b" false false false)
                     [token_type.Id "a"; token_type.Newline] 3) 2 "b");
    try reflexivity; try (cbn; lia); try discriminate.
  exists 1%nat. reflexivity.
Defined.

(** ** Blank input *)

Lemma spaces_nil_r (n : nat) : spaces n +:+ EmptyString = spaces n.
Proof. apply append_nil_r. Qed.

(** X13.  An input that holds nothing but spaces -- the empty input among
    them -- gives the single token [Eof]. *)
Theorem ParseTokens_blank_input (n fuel : nat) :
  ParseTokens (2 + fuel) (spaces n) = Some (Ok [token_type.Eof]).
Proof.
  rewrite <- (spaces_nil_r n). unfold ParseTokens, ParseTokens_from.
  rewrite RemovingSpaces_leading.
  change (ParseTokens (2 + fuel) EmptyString = Some (Ok [token_type.Eof])).
  apply (ParseTokens_mono 2); [lia | vm_compute; reflexivity].
Qed.

(** ** Balance of the prefixes *)

(** X14.  Whenever the lexer returns, no prefix of the token list holds
    more [Dedent]s than [Indent]s. *)
Theorem Dedents_never_exceed_Indents (fuel : nat) (input : string)
    (ts : list Token) (k : nat) :
  ParseTokens fuel input = Some (Ok ts) ->
  (count_tokens is_Dedent (take k ts) <= count_tokens is_Indent (take k ts))%nat.
Proof. intros H. now apply (ParseTokens_prefixes_balanced fuel input). Qed.

Lemma Dedents_never_exceed_Indents_witness :
  (count_tokens is_Dedent
     (take 6 [token_type.Id "a"; token_type.Newline; token_type.Indent;
              token_type.Id "b"; token_type.Newline; token_type.Dedent;
              token_type.Eof])
   <= count_tokens is_Indent
        (take 6 [token_type.Id "a"; token_type.Newline; token_type.Indent;
                 token_type.Id "b"; token_type.Newline; token_type.Dedent;
                 token_type.Eof]))%nat.
Proof.
  apply (Dedents_never_exceed_Indents 10 (line "a" (line "  b" ""))).
  vm_compute. reflexivity.
Defined.

End LexerShape.

(* ===================================================================== *)
(** * Lines that open with an odd number of spaces                        *)
(* ===================================================================== *)

Section OddIndent.
Import parse.

(** ** The part of a line that an extractor takes *)



Lemma ahead_good (s : istream) (a c : string) : ahead s a c -> good s = true.
Proof. now intros [H _]. Qed.








(** ** The loops *)






(** ** The extractors *)












(** ** What each alternative takes

    An alternative that finds a character of its own kind at the head of the
    line extracts it. *)







(** ** Lines and loops that leave the stream alone *)





(** ** A name on the line before *)











(** ** The lexer on its way to the line *)

Section Way.
Variable p : ascii -> bool.


























End Way.



(** ** Odd indentation raises *)

(** Lines that stand in the way do not matter, but a comment does: after a
    [Dedent] and a comment line the indentation of the next line is not
    counted, and three spaces are accepted there. *)
Example odd_indent_hidden_by_comment :
  ParseTokens 10 (lines ["a"; "  b"; "# c"; "   d"] EmptyString)
  = Some (Ok [token_type.Id "a"; token_type.Newline; token_type.Indent;
              token_type.Id "b"; token_type.Newline; token_type.Dedent;
              token_type.Id "d"; token_type.Newline; token_type.Eof]).
Proof. vm_compute. reflexivity. Qed.

(** A literal above [INT_MAX] on an earlier line is what the lexer raises
    on, before it comes to the line with the odd indentation. *)
Example out_of_range_before_odd_indent :
  ParseTokens 10 (lines ["x = 2147483648"] (line "y" "   z"))
  = Some (Throw (out_of_range "stoi")).
Proof. vm_compute. reflexivity. Qed.



End OddIndent.


(* ===================================================================== *)
(** * Further facts about the runtime and the evaluator                   *)
(* ===================================================================== *)

Section RuntimeMore.
Import runtime.

(** ** Method resolution *)

Lemma table_methods_snoc (methods : list Method) (method : Method) :
  table_methods_ (methods ++ [method])
  = <[name method := method]> (table_methods_ methods).
Proof. unfold table_methods_. now rewrite foldl_app. Qed.

Lemma table_methods_lookup (methods : list Method) (n : string) (m : Method) :
  table_methods_ methods !! n = Some m -> name m = n /\ In m methods.
Proof.
  revert m. induction methods as [|x methods IH] using rev_ind; intros m H.
  - unfold table_methods_ in H. cbn in H. now rewrite lookup_empty in H.
  - rewrite table_methods_snoc in H.
    destruct (decide (name x = n)) as [<-|Hne].
    + rewrite lookup_insert_eq in H. inversion H; subst.
      split; [reflexivity | apply in_or_app; right; now left].
    + rewrite lookup_insert_ne in H by assumption.
      destruct (IH _ H) as [H1 H2]. split; [assumption|].
      apply in_or_app. now left.
Qed.

Lemma table_methods_absent (methods : list Method) (n : string) :
  Forall (fun x => name x <> n) methods -> table_methods_ methods !! n = None.
Proof.
  induction methods as [|x methods IH] using rev_ind; intros H.
  - unfold table_methods_. cbn. apply lookup_empty.
  - apply Forall_app in H as [H1 H2]. inversion H2; subst.
    rewrite table_methods_snoc, lookup_insert_ne by assumption. auto.
Qed.

Lemma table_methods_last (before after : list Method) (m : Method) :
  Forall (fun x => name x <> name m) after ->
  table_methods_ (before ++ m :: after) !! name m = Some m.
Proof.
  induction after as [|x after IH] using rev_ind; intros H.
  - rewrite table_methods_snoc. apply lookup_insert_eq.
  - apply Forall_app in H as [H1 H2]. inversion H2; subst.
    replace (before ++ m :: after ++ [x]) with ((before ++ m :: after) ++ [x])
      by (now rewrite <- app_assoc).
    rewrite table_methods_snoc, lookup_insert_ne by assumption. auto.
Qed.

(** X15.  The method that [GetMethod] finds has the name that was asked
    for, wherever in the chain of parents it was found. *)
Theorem GetMethod_has_the_name (c : Class) (n : string) (m : Method) :
  GetMethod c n = Some m -> name m = n.
Proof.
  revert c. fix IH 1. intros [nm methods parent]. cbn [GetMethod].
  destruct (table_methods_ methods !! n) as [x|] eqn:E.
  - clear IH. intros H. inversion H; subst.
    exact (proj1 (table_methods_lookup _ _ _ E)).
  - destruct parent as [p|]; [exact (IH p) | clear IH; discriminate].
Qed.

Lemma GetMethod_has_the_name_witness :
  name (ast.mk_Method "make" [] (ast.MethodBody (ast.Return scenario.new_Empty)))
  = "make".
Proof.
  apply (GetMethod_has_the_name scenario.Maker "make"). reflexivity.
Defined.

(** X16.  Of the methods of a name that a class lists itself, the last one is
    the one found, whatever its parent offers under that name; so
    [HasMethod] answers by the parameter count of that last one alone. *)
Theorem GetMethod_own_method_wins (nm : string) (before after : list Method)
    (m : Method) (parent : option Class) (argument_count : nat) :
  Forall (fun x => name x <> name m) after ->
  let c := ast.mk_Class nm (before ++ m :: after) parent in
  GetMethod c (name m) = Some m
  /\ HasMethod c (name m) argument_count
     = Nat.eqb argument_count (length (formal_params m)).
Proof.
  intros H. cbv zeta. unfold HasMethod. cbn [GetMethod].
  rewrite (table_methods_last _ _ _ H). split; reflexivity.
Qed.

Lemma GetMethod_own_method_wins_witness :
  let base := ast.mk_Class "A" [ast.mk_Method "f" [] ast.None] None in
  let c := ast.mk_Class "B" [ast.mk_Method "f" ["x"] ast.None] (Some base) in
  GetMethod c "f" = Some (ast.mk_Method "f" ["x"] ast.None)
  /\ HasMethod c "f" 0 = false.
Proof.
  apply (GetMethod_own_method_wins "B" [] [] (ast.mk_Method "f" ["x"] ast.None)
           (Some (ast.mk_Class "A" [ast.mk_Method "f" [] ast.None] None)) 0).
  constructor.
Defined.

(** X17.  A name that the class does not list itself is looked up in the
    parent; without a parent it is not found. *)
Theorem GetMethod_inherits (nm : string) (methods : list Method)
    (parent : option Class) (n : string) :
  Forall (fun x => name x <> n) methods ->
  GetMethod (ast.mk_Class nm methods parent) n
  = match parent with
    | Some p => GetMethod p n
    | None => None
    end.
Proof.
  intros H. cbn [GetMethod]. now rewrite (table_methods_absent _ _ H).
Qed.

Lemma GetMethod_inherits_witness :
  let base := ast.mk_Class "A" [ast.mk_Method "f" [] ast.None] None in
  GetMethod (ast.mk_Class "B" [ast.mk_Method "g" [] ast.None] (Some base)) "f"
  = GetMethod base "f".
Proof.
  apply (GetMethod_inherits "B" [ast.mk_Method "g" [] ast.None]
           (Some (ast.mk_Class "A" [ast.mk_Method "f" [] ast.None] None)) "f").
  repeat constructor. discriminate.
Defined.

(** ** The evaluator only adds to the machine *)

Lemma grows_refl (m : Machine) : grows m m.
Proof.
  split; [|split].
  - exists EmptyString. now rewrite append_nil_r.
  - intros x H. exact H.
  - intros a f H. exact H.
Qed.

Lemma grows_trans (a b c : Machine) : grows a b -> grows b c -> grows a c.
Proof.
  intros ([s1 H1] & Hb1 & Hf1) ([s2 H2] & Hb2 & Hf2). split; [|split].
  - exists (s1 +:+ s2). now rewrite H2, H1, append_assoc.
  - intros x H. auto.
  - intros x f H. auto.
Qed.

Lemma grows_closure (m : Machine) (key : string) (value : ObjectHolder) :
  grows m (with_closure m (<[key := value]> (closure m))).
Proof.
  split; [|split].
  - exists EmptyString. cbn. now rewrite append_nil_r.
  - intros x H. cbn. apply lookup_insert_is_Some'. now right.
  - intros a f H. exact H.
Qed.

Lemma grows_fields (m : Machine) (address : nat) (f : string) (value : ObjectHolder) :
  grows m (with_fields m
             (<[address := <[f := value]> (Fields m address)]> (fields m))).
Proof.
  split; [|split].
  - exists EmptyString. cbn. now rewrite append_nil_r.
  - intros x H. exact H.
  - intros a g H. unfold Fields in *. cbn [fields with_fields].
    destruct (decide (address = a)) as [->|Hne].
    + rewrite lookup_insert_eq. cbn. apply lookup_insert_is_Some'. now right.
    + now rewrite lookup_insert_ne.
Qed.

Lemma grows_output (m : Machine) (text : string) :
  grows m (with_output m (output m +:+ text)).
Proof.
  split; [|split].
  - now exists text.
  - intros x H. exact H.
  - intros a f H. exact H.
Qed.

Section Growth.
Variable exec : Statement -> M ObjectHolder.
Variable print : Object -> M string.
Hypothesis exec_growing : forall s, growing (exec s).
Hypothesis print_growing : forall o, growing (print o).

Lemma growing_ret {A : Type} (a : A) : growing (ret a).
Proof. intros m r m' [= _ <-]. apply grows_refl. Qed.

Lemma growing_throw {A : Type} (e : abrupt) : growing (@throw A e).
Proof. intros m r m' [= _ <-]. apply grows_refl. Qed.

Lemma growing_bind {A B : Type} (x : M A) (k : A -> M B) :
  growing x -> (forall a, growing (k a)) -> growing (bind x k).
Proof.
  intros Hx Hk m r m'. unfold bind.
  destruct (x m) as [[a|e] m1] eqn:E; intros H.
  - eapply grows_trans; [exact (Hx _ _ _ E) | exact (Hk _ _ _ _ H)].
  - inversion H; subst. exact (Hx _ _ _ E).
Qed.

Lemma growing_modify (f : Machine -> Machine) :
  (forall m, grows m (f m)) -> growing (modify f).
Proof. intros Hf m r m' [= _ <-]. apply Hf. Qed.

Lemma growing_in_frame {A : Type} frame (x : M A) :
  growing x -> growing (in_frame frame x).
Proof.
  intros Hx m r m'. unfold in_frame.
  destruct (x _) as [r1 m1] eqn:E. intros [= _ <-].
  destruct (Hx _ _ _ E) as (Ho & _ & Hf). split; [|split].
  - exact Ho.
  - intros y H. exact H.
  - exact Hf.
Qed.

Lemma growing_holding {A : Type} locals (x : M A) :
  growing x -> growing (holding locals x).
Proof.
  intros Hx m r m'. unfold holding.
  destruct (x _) as [r1 m1] eqn:E. intros [= _ <-].
  exact (Hx _ _ _ E).
Qed.

Lemma growing_through_pointer_of {A : Type} holder (x : M A) :
  growing x -> growing (through_pointer_of holder x).
Proof.
  intros Hx m r m'. unfold through_pointer_of.
  destruct (destroyed_with holder m); [|apply Hx].
  intros [= _ <-]. apply grows_refl.
Qed.

Lemma growing_Own (object : Object) : growing (Own object).
Proof.
  intros m r m' [= _ <-]. split; [|split].
  - exists EmptyString. cbn. now rewrite append_nil_r.
  - intros x H. exact H.
  - intros a f H. exact H.
Qed.

Lemma growing_closure_assign key value : growing (closure_assign key value).
Proof. apply growing_modify. intros m. apply grows_closure. Qed.

Lemma growing_Fields_subscript address f : growing (Fields_subscript address f).
Proof.
  apply growing_modify. intros m.
  destruct (Fields m address !! f); [apply grows_refl | apply grows_fields].
Qed.

Lemma growing_Fields_assign address f value :
  growing (Fields_assign address f value).
Proof. apply growing_modify. intros m. apply grows_fields. Qed.

Ltac grow_step :=
  first [ apply growing_ret
        | apply growing_throw
        | apply exec_growing
        | apply print_growing
        | apply growing_closure_assign
        | apply growing_Fields_subscript
        | apply growing_Fields_assign
        | apply growing_in_frame
        | apply growing_holding
        | apply growing_through_pointer_of
        | apply growing_Own
        | apply growing_bind; [|intros ?]
        | match goal with
          | |- growing (if ?b then _ else _) => destruct b
          | |- growing (match ?o with _ => _ end) => destruct o
          | |- growing (let (_, _) := ?p in _) => destruct p
          end ].

Lemma growing_Call address class_ method actual_args :
  growing (Call exec address class_ method actual_args).
Proof. unfold Call. repeat grow_step. Qed.

Lemma growing_Object_Print o : growing (Object_Print exec print o).
Proof.
  unfold Object_Print. destruct o; try apply growing_ret.
  destruct (HasMethod _ _ _); [|apply growing_ret].
  apply growing_bind; [apply growing_Call|intros r].
  destruct (Get r); [apply growing_holding, print_growing | apply growing_throw].
Qed.

Lemma growing_Equal lhs rhs : growing (Equal exec lhs rhs).
Proof. unfold Equal. repeat first [apply growing_Call | grow_step]. Qed.

Lemma growing_Less lhs rhs : growing (Less exec lhs rhs).
Proof. unfold Less. repeat first [apply growing_Call | grow_step]. Qed.

Lemma growing_Comparator cmp lhs rhs :
  growing (apply_Comparator exec cmp lhs rhs).
Proof.
  destruct cmp; cbn [apply_Comparator];
    unfold NotEqual, Greater, LessOrEqual, GreaterOrEqual, NotEqual;
    repeat first [apply growing_Equal | apply growing_Less | grow_step].
Qed.

Lemma growing_Print_loop args : forall first os,
  growing (Print_loop exec print args first os).
Proof.
  induction args as [|arg rest IH]; intros first os; cbn [Print_loop].
  - apply growing_ret.
  - apply growing_bind; [apply exec_growing|intros oh].
    apply growing_bind; [|intros text; apply IH].
    destruct (Get oh); [apply growing_holding, print_growing | apply growing_ret].
Qed.

Lemma growing_Execute_args args : growing (Execute_args exec args).
Proof.
  induction args as [|arg rest IH]; cbn [Execute_args].
  - apply growing_ret.
  - apply growing_bind; [apply exec_growing|intros v].
    apply growing_bind; [apply growing_holding, IH|intros vs; apply growing_ret].
Qed.

Lemma growing_Compound statements : growing (Compound_Execute exec statements).
Proof.
  induction statements as [|st rest IH]; cbn [Compound_Execute].
  - apply growing_ret.
  - apply growing_bind; [apply exec_growing|intros _; apply IH].
Qed.

Lemma growing_MethodBody body_ : growing (MethodBody_Execute exec body_).
Proof.
  intros m r m'. unfold MethodBody_Execute.
  destruct (exec body_ m) as [[v|[res|w|w|]] m1] eqn:E; intros [= _ <-];
    exact (exec_growing _ _ _ _ E).
Qed.

Lemma growing_VariableValue ids : growing (VariableValue_Execute ids).
Proof. intros m r m' [= _ <-]. apply grows_refl. Qed.

Lemma growing_Print_Execute args : growing (Print_Execute exec print args).
Proof.
  unfold Print_Execute.
  apply growing_bind; [apply growing_Print_loop|intros os].
  apply growing_bind; [|intros _; apply growing_Own].
  apply growing_modify. intros m. apply grows_output.
Qed.

Lemma growing_Execute_node s : growing (Execute_node exec print s).
Proof.
  destruct s; cbn [Execute_node];
    try apply growing_VariableValue; try apply growing_Print_Execute;
    try apply growing_MethodBody; try apply growing_Compound;
    unfold Assignment_Execute, FieldAssignment_Execute, None_Execute,
      MethodCall_Execute, NewInstance_Execute, Stringify_Execute,
      Add_Execute, Sub_Execute, Mult_Execute, Div_Execute, arithmetic,
      Or_Execute, And_Execute, Not_Execute, Return_Execute,
      ClassDefinition_Execute, IfElse_Execute, Comparison_Execute, GetName,
      is_true_Bool_of_temporary;
    repeat first [ apply growing_VariableValue | apply growing_Call
                 | apply growing_Execute_args | apply growing_Comparator
                 | grow_step ].
Qed.

End Growth.

Lemma Execute_growing (n : nat) :
  (forall s, growing (Execute n s)) /\ (forall o, growing (ObjectPrint n o)).
Proof.
  induction n as [|n [IHe IHp]].
  - split; intros x; apply growing_throw.
  - split.
    + intros s. rewrite Execute_S. now apply growing_Execute_node.
    + intros o. rewrite ObjectPrint_S. now apply growing_Object_Print.
Qed.

(** X18.  Executing a statement only appends to the output: whatever the
    outcome, what had been written before is a prefix of what is there
    afterwards. *)
Theorem Execute_only_appends_to_output (n : nat) (s : Statement)
    (m m' : Machine) (r : outcome ObjectHolder) :
  Execute n s m = (r, m') ->
  exists suffix, output m' = output m +:+ suffix.
Proof. intros H. exact (proj1 (proj1 (Execute_growing n) s m r m' H)). Qed.

Lemma Execute_only_appends_to_output_witness :
  exists suffix, endl = EmptyString +:+ suffix.
Proof.
  apply (Execute_only_appends_to_output 6 scenario.str_x scenario.loud_x
           (with_allocated (with_output scenario.loud_x endl) 2)
           (Normal (ast.Own 1 (ast.String EmptyString)))).
  vm_compute. reflexivity.
Defined.

(** X19.  Executing a statement removes no binding from the closure it runs
    in and no field from any instance, whatever the outcome: names and
    fields are only added or rebound. *)
Theorem Execute_removes_nothing (n : nat) (s : Statement)
    (m m' : Machine) (r : outcome ObjectHolder) :
  Execute n s m = (r, m') ->
  (forall x, is_Some (closure m !! x) -> is_Some (closure m' !! x))
  /\ (forall address f, is_Some (Fields m address !! f) ->
                        is_Some (Fields m' address !! f)).
Proof. intros H. exact (proj2 (proj1 (Execute_growing n) s m r m' H)). Qed.

Lemma Execute_removes_nothing_witness :
  let m' := snd (Execute 3 scenario.assign_v scenario.frame_v_w) in
  (forall x, is_Some (closure scenario.frame_v_w !! x) -> is_Some (closure m' !! x))
  /\ (forall address f, is_Some (Fields scenario.frame_v_w address !! f) ->
                        is_Some (Fields m' address !! f)).
Proof.
  apply (Execute_removes_nothing 3 scenario.assign_v scenario.frame_v_w _
           (Normal (ast.Own 1 (ast.Number 2)))).
  vm_compute. reflexivity.
Defined.

(** ** Method calls *)

(** X20.  [Call] leaves the closure of its caller as it was, whatever the
    method does and however it ends: the method runs against a frame of its
    own.  When the class resolves no method of that name with as many
    parameters as there are arguments, [Call] raises a runtime error and
    leaves the whole machine as it was. *)
Theorem Call_leaves_caller_closure exec (address : nat) (class_ : Class)
    (method : string) (actual_args : list ObjectHolder) (m : Machine) :
  closure (snd (Call exec address class_ method actual_args m)) = closure m
  /\ (HasMethod class_ method (length actual_args) = false ->
      Call exec address class_ method actual_args m
      = (Abrupt (runtime_error
           ("The " +:+ QUOTE +:+ method +:+ QUOTE +:+ " method was not found")),
         m)).
Proof.
  unfold Call. split.
  - destruct (negb _); [reflexivity|].
    destruct (GetMethod class_ method); [|reflexivity].
    destruct (_ <? _)%nat; [reflexivity|].
    unfold in_frame. destruct (exec _ _). reflexivity.
  - intros ->. reflexivity.
Qed.

Lemma Call_leaves_caller_closure_witness :
  Call (Execute 3) 0 scenario.Empty "f" [] scenario.frame_v_w
  = (Abrupt (runtime_error
       ("The " +:+ QUOTE +:+ "f" +:+ QUOTE +:+ " method was not found")),
     scenario.frame_v_w).
Proof.
  apply (Call_leaves_caller_closure (Execute 3) 0 scenario.Empty "f" []
           scenario.frame_v_w).
  reflexivity.
Defined.

Lemma bind_formal_params_other (params : list string) : forall actual_args frame x,
  ~ In x params ->
  bind_formal_params params actual_args frame !! x = frame !! x.
Proof.
  induction params as [|p params IH]; intros actual_args frame x Hx;
    cbn [bind_formal_params]; [reflexivity|].
  destruct actual_args as [|a actual_args]; [reflexivity|].
  rewrite IH by (intros H; apply Hx; now right).
  apply lookup_insert_ne. intros ->. apply Hx. now left.
Qed.

Lemma bind_formal_params_lookup (params : list string) :
  forall actual_args frame i p a,
    NoDup params ->
    params !! i = Some p -> actual_args !! i = Some a ->
    bind_formal_params params actual_args frame !! p = Some a.
Proof.
  induction params as [|q params IH]; intros actual_args frame i p a Hnd Hp Ha;
    [discriminate|].
  destruct actual_args as [|b actual_args]; [discriminate|].
  apply NoDup_cons in Hnd as [Hq Hnd]. cbn [bind_formal_params].
  destruct i as [|i]; cbn in Hp, Ha.
  - inversion Hp; inversion Ha; subst.
    rewrite bind_formal_params_other by (now rewrite <- list_elem_of_In).
    apply lookup_insert_eq.
  - now apply (IH _ _ i).
Qed.

(** [Call] runs the body of the method that [GetMethod] finds against that
    frame. *)
Lemma Call_runs_body exec (address : nat) (class_ : Class) (method : string)
    (actual_args : list ObjectHolder) (method_ptr : Method) (m : Machine) :
  GetMethod class_ method = Some method_ptr ->
  length actual_args = length (formal_params method_ptr) ->
  Call exec address class_ method actual_args m
  = in_frame (method_frame address class_ method_ptr actual_args)
             (exec (body method_ptr)) m.
Proof.
  intros Hg Hl. unfold Call, HasMethod. rewrite Hg, Hl, Nat.eqb_refl.
  cbn [negb]. now rewrite Nat.ltb_irrefl.
Qed.

(** X21.  When the method is found with as many parameters as there are
    arguments, [Call] runs its body against a fresh frame; in that frame each
    formal parameter is bound to the argument at its position and [self] to
    a non-owning holder onto the instance, and nothing else is bound --
    provided the parameter names are distinct and none of them is [self]. *)
Theorem Call_binds_parameters exec (address : nat) (class_ : Class)
    (method : string) (method_ptr : Method) (actual_args : list ObjectHolder)
    (m : Machine) :
  GetMethod class_ method = Some method_ptr ->
  length actual_args = length (formal_params method_ptr) ->
  NoDup (formal_params method_ptr) ->
  ~ In "self" (formal_params method_ptr) ->
  let frame := method_frame address class_ method_ptr actual_args in
  Call exec address class_ method actual_args m
  = in_frame frame (exec (body method_ptr)) m
  /\ frame !! "self" = Some (ast.Share (ast.ClassInstance address class_))
  /\ (forall i p a,
        formal_params method_ptr !! i = Some p -> actual_args !! i = Some a ->
        frame !! p = Some a)
  /\ (forall x, x <> "self" -> ~ In x (formal_params method_ptr) ->
                frame !! x = None).
Proof.
  intros Hg Hl Hnd Hself. cbv zeta. split; [|split; [|split]].
  - now apply Call_runs_body.
  - unfold method_frame.
    rewrite bind_formal_params_other by assumption. apply lookup_insert_eq.
  - intros i p a Hp Ha. now apply (bind_formal_params_lookup _ _ _ i).
  - intros x Hx Hin. unfold method_frame.
    rewrite bind_formal_params_other by assumption.
    rewrite lookup_insert_ne by congruence. apply lookup_empty.
Qed.

Lemma Call_binds_parameters_witness :
  let init := ast.mk_Method "__init__" ["v"; "w"] ast.None in
  let cls := ast.mk_Class "P" [init] None in
  let args := [ast.Own 0 (ast.Number 1); ast.Own 1 (ast.Number 2)] in
  let frame := method_frame 0 cls init args in
  Call (Execute 1) 0 cls "__init__" args empty_Machine
  = in_frame frame (Execute 1 ast.None) empty_Machine
  /\ frame !! "self" = Some (ast.Share (ast.ClassInstance 0 cls))
  /\ (forall i p a,
        ["v"; "w"] !! i = Some p -> args !! i = Some a -> frame !! p = Some a)
  /\ (forall x, x <> "self" -> ~ In x ["v"; "w"] -> frame !! x = None).
Proof.
  apply (Call_binds_parameters (Execute 1) 0
           (ast.mk_Class "P" [ast.mk_Method "__init__" ["v"; "w"] ast.None] None)
           "__init__" (ast.mk_Method "__init__" ["v"; "w"] ast.None)
           [ast.Own 0 (ast.Number 1); ast.Own 1 (ast.Number 2)] empty_Machine).
  - reflexivity.
  - reflexivity.
  - cbn. apply NoDup_cons. split; [|apply NoDup_singleton].
    intros H. apply list_elem_of_In in H. cbn in H. intuition discriminate.
  - cbn. intuition discriminate.
Defined.

(** X22.  [MethodCall] raises a runtime error, without executing any
    argument, when the object is no class instance and when its class
    resolves no method of that name with as many parameters as there are
    arguments: the machine is left as the evaluation of the object left it. *)
Theorem MethodCall_checks_before_arguments (n : nat) (object_ : Statement)
    (method_ : string) (args_ : list Statement) (m m1 : Machine)
    (oh : ObjectHolder) :
  Execute n object_ m = (Normal oh, m1) ->
  match TryAs_ClassInstance oh with
  | Some (_, class_) => HasMethod class_ method_ (length args_) = false
  | None => True
  end ->
  exists what,
    Execute (S n) (ast.MethodCall object_ method_ args_) m
    = (Abrupt (runtime_error what), m1).
Proof.
  intros He Hc. rewrite Execute_S. cbn [Execute_node].
  unfold MethodCall_Execute, bind. rewrite He.
  destruct (TryAs_ClassInstance oh) as [[address class_]|].
  - rewrite Hc. cbn [negb]. eexists. reflexivity.
  - eexists. reflexivity.
Qed.

Lemma MethodCall_checks_before_arguments_witness :
  exists what,
    Execute 2 (ast.MethodCall (ast.VariableValue ["v"]) "f" [ast.Print []])
            scenario.frame_v_w
    = (Abrupt (runtime_error what), scenario.frame_v_w).
Proof.
  apply (MethodCall_checks_before_arguments 1 (ast.VariableValue ["v"]) "f"
           [ast.Print []] scenario.frame_v_w scenario.frame_v_w
           (ast.Own 0 (ast.Number 1))).
  - reflexivity.
  - exact I.
Defined.

(** ** Assignment and class definition *)

(** X23.  An assignment whose right-hand side returns binds the name to that
    value in the closure it runs in and returns the value; reading the name
    afterwards gives the same holder back and changes nothing. *)
Theorem Assignment_then_read (n k : nat) (variable_name_ : string)
    (r_value_ : Statement) (m m1 : Machine) (value : ObjectHolder) :
  Execute n r_value_ m = (Normal value, m1) ->
  let m2 := with_closure m1 (<[variable_name_ := value]> (closure m1)) in
  Execute (S n) (ast.Assignment variable_name_ r_value_) m = (Normal value, m2)
  /\ Execute (S k) (ast.VariableValue [variable_name_]) m2 = (Normal value, m2).
Proof.
  intros He. cbv zeta. split.
  - rewrite Execute_S. cbn [Execute_node].
    unfold Assignment_Execute, bind. now rewrite He.
  - rewrite VariableValue_one_segment. cbn [closure with_closure].
    now rewrite lookup_insert_eq.
Qed.

Lemma Assignment_then_read_witness :
  let m2 := with_closure scenario.frame_v_w
              (<["z" := ast.Own 1 (ast.Number 2)]> (closure scenario.frame_v_w)) in
  Execute 2 (ast.Assignment "z" (ast.VariableValue ["w"])) scenario.frame_v_w
    = (Normal (ast.Own 1 (ast.Number 2)), m2)
  /\ Execute 1 (ast.VariableValue ["z"]) m2
     = (Normal (ast.Own 1 (ast.Number 2)), m2).
Proof.
  apply (Assignment_then_read 1 0 "z" (ast.VariableValue ["w"])
           scenario.frame_v_w scenario.frame_v_w (ast.Own 1 (ast.Number 2))).
  reflexivity.
Defined.

(** X24.  A class definition binds the name of its class to the holder it
    was built with and returns that holder, so that reading the name
    afterwards gives the class; a class without a name raises a runtime
    error and binds nothing. *)
Theorem ClassDefinition_then_read (n k : nat) (class_ : ObjectHolder)
    (cls : Class) (m : Machine) :
  TryAs_Class class_ = Some cls ->
  (name_ cls <> EmptyString ->
   let m' := with_closure m (<[name_ cls := class_]> (closure m)) in
   Execute (S n) (ast.ClassDefinition class_) m = (Normal class_, m')
   /\ Execute (S k) (ast.VariableValue [name_ cls]) m' = (Normal class_, m'))
  /\ (name_ cls = EmptyString ->
      Execute (S n) (ast.ClassDefinition class_) m
      = (Abrupt (runtime_error "Name class is empty"), m)).
Proof.
  intros Hc.
  assert (E : Execute (S n) (ast.ClassDefinition class_) m
              = if String.eqb (name_ cls) EmptyString
                then (Abrupt (runtime_error "Name class is empty"), m)
                else (Normal class_,
                      with_closure m (<[name_ cls := class_]> (closure m)))).
  { rewrite Execute_S. cbn [Execute_node].
    unfold ClassDefinition_Execute, GetName, bind. rewrite Hc.
    destruct (String.eqb (name_ cls) EmptyString); reflexivity. }
  rewrite E. split.
  - intros Hne. cbv zeta.
    destruct (String.eqb_spec (name_ cls) EmptyString) as [E'|_]; [contradiction|].
    split; [reflexivity|].
    rewrite VariableValue_one_segment. cbn [closure with_closure].
    now rewrite lookup_insert_eq.
  - intros ->. reflexivity.
Qed.

Lemma ClassDefinition_then_read_witness :
  let h := ast.Own 0 (ast.ClassObject scenario.Empty) in
  let m' := with_closure empty_Machine (<["Empty" := h]> (closure empty_Machine)) in
  Execute 1 (ast.ClassDefinition h) empty_Machine = (Normal h, m')
  /\ Execute 1 (ast.VariableValue ["Empty"]) m' = (Normal h, m').
Proof.
  apply (proj1 (ClassDefinition_then_read 0 0
                  (ast.Own 0 (ast.ClassObject scenario.Empty)) scenario.Empty
                  empty_Machine eq_refl)).
  discriminate.
Defined.

(** ** Sequences of statements *)




(** ** The six comparators *)

Lemma string_ltb_asym (a b : string) : String.ltb a b && String.ltb b a = false.
Proof.
  unfold String.ltb. rewrite (String.compare_antisym b a).
  destruct (String.compare a b); reflexivity.
Qed.

Lemma primitive_Less_Equal exec (a b : ObjectHolder) (m : Machine) :
  same_primitive_kind a b = true ->
  exists lt gt : bool,
    Less exec a b m = (Normal lt, m)
    /\ Less exec b a m = (Normal gt, m)
    /\ lt && gt = false
    /\ Equal exec a b m = (Normal (negb lt && negb gt), m).
Proof.
  unfold same_primitive_kind, Equal, Less, is_set, TryAs_Bool, TryAs_Number,
    TryAs_String.
  destruct (Get a) as [[x|x|x|x|x cx]|], (Get b) as [[y|y|y|y|y cy]|];
    try discriminate; intros _; cbn.
  - exists (x <? y), (y <? x). do 2 (split; [reflexivity|]). unfold ret.
    destruct (Z.ltb_spec x y), (Z.ltb_spec y x), (Z.eqb_spec x y);
      cbn; split; try reflexivity; lia.
  - exists (String.ltb x y), (String.ltb y x). do 2 (split; [reflexivity|]).
    split; [apply string_ltb_asym|]. unfold ret. do 2 f_equal.
    pose proof (string_eqb_ltb x y) as H.
    destruct (String.eqb x y), (String.ltb x y), (String.ltb y x); cbn;
      try reflexivity; intuition discriminate.
  - exists (negb x && y), (negb y && x). do 2 (split; [reflexivity|]).
    destruct x, y; split; reflexivity.
Qed.

(** X26.  On two holders of the same primitive kind the six comparators
    return without touching the machine, [Less] never holds both ways
    round, and the other five are determined by [Less]: [Greater] is [Less]
    with the operands exchanged, [LessOrEqual] its negation,
    [GreaterOrEqual] the negation of [Less], [NotEqual] holds when [Less]
    holds one way or the other, and [Equal] when it holds neither way. *)
Theorem comparators_determined_by_Less exec (a b : ObjectHolder) (m : Machine) :
  same_primitive_kind a b = true ->
  exists lt gt : bool,
    Less exec a b m = (Normal lt, m)
    /\ Less exec b a m = (Normal gt, m)
    /\ lt && gt = false
    /\ Greater exec a b m = (Normal gt, m)
    /\ LessOrEqual exec a b m = (Normal (negb gt), m)
    /\ GreaterOrEqual exec a b m = (Normal (negb lt), m)
    /\ NotEqual exec a b m = (Normal (lt || gt), m)
    /\ Equal exec a b m = (Normal (negb (lt || gt)), m).
Proof.
  intros H. destruct (primitive_Less_Equal exec a b m H)
    as (lt & gt & HL & HG & Hx & HE).
  exists lt, gt. unfold Greater, LessOrEqual, GreaterOrEqual, NotEqual, bind.
  rewrite HL, HE. split; [reflexivity|]. split; [exact HG|]. split; [exact Hx|].
  destruct lt, gt; try discriminate; cbn; rewrite ?HE; repeat split; reflexivity.
Qed.

Lemma comparators_determined_by_Less_witness :
  exists lt gt : bool,
    Less (Execute 0) (ast.Own 0 (ast.Number 3)) (ast.Own 1 (ast.Number 2))
         empty_Machine = (Normal lt, empty_Machine)
    /\ Less (Execute 0) (ast.Own 1 (ast.Number 2)) (ast.Own 0 (ast.Number 3))
            empty_Machine = (Normal gt, empty_Machine)
    /\ lt && gt = false
    /\ Greater (Execute 0) (ast.Own 0 (ast.Number 3)) (ast.Own 1 (ast.Number 2))
               empty_Machine = (Normal gt, empty_Machine)
    /\ LessOrEqual (Execute 0) (ast.Own 0 (ast.Number 3)) (ast.Own 1 (ast.Number 2))
                   empty_Machine = (Normal (negb gt), empty_Machine)
    /\ GreaterOrEqual (Execute 0) (ast.Own 0 (ast.Number 3)) (ast.Own 1 (ast.Number 2))
                      empty_Machine = (Normal (negb lt), empty_Machine)
    /\ NotEqual (Execute 0) (ast.Own 0 (ast.Number 3)) (ast.Own 1 (ast.Number 2))
                empty_Machine = (Normal (lt || gt), empty_Machine)
    /\ Equal (Execute 0) (ast.Own 0 (ast.Number 3)) (ast.Own 1 (ast.Number 2))
             empty_Machine = (Normal (negb (lt || gt)), empty_Machine).
Proof.
  apply (comparators_determined_by_Less (Execute 0) (ast.Own 0 (ast.Number 3))
           (ast.Own 1 (ast.Number 2)) empty_Machine).
  reflexivity.
Defined.

(** X27.  When the left operand is no class instance and the two operands
    are not of the same primitive kind -- two empty holders included --
    [Less], [Greater], [LessOrEqual] and [GreaterOrEqual] raise a runtime
    error and leave the machine as it was. *)
Theorem ordering_raises_on_mixed_kinds exec (a b : ObjectHolder) (m : Machine) :
  TryAs_ClassInstance a = None ->
  same_primitive_kind a b = false ->
  let raised : outcome bool * Machine :=
    (Abrupt (runtime_error "Cannot compare objects for less"), m) in
  Less exec a b m = raised
  /\ Greater exec a b m = raised
  /\ LessOrEqual exec a b m = raised
  /\ GreaterOrEqual exec a b m = raised.
Proof.
  intros Hi Hk. cbv zeta.
  assert (HL : Less exec a b m
               = (Abrupt (runtime_error "Cannot compare objects for less"), m)).
  { revert Hi Hk.
    unfold same_primitive_kind, Less, TryAs_Bool, TryAs_Number, TryAs_String,
      TryAs_ClassInstance.
    destruct (Get a) as [[x|x|x|x|x cx]|], (Get b) as [[y|y|y|y|y cy]|];
      cbn; try discriminate; reflexivity. }
  unfold Greater, LessOrEqual, GreaterOrEqual, bind. rewrite HL.
  repeat split; reflexivity.
Qed.

Lemma ordering_raises_on_mixed_kinds_witness :
  LessOrEqual (Execute 0) ast.NoneHolder ast.NoneHolder empty_Machine
  = (Abrupt (runtime_error "Cannot compare objects for less"), empty_Machine).
Proof.
  apply (ordering_raises_on_mixed_kinds (Execute 0) ast.NoneHolder ast.NoneHolder
           empty_Machine); reflexivity.
Defined.

(** ** Field assignment, the target *)

(** X28.  When the target of a field assignment is no class instance, a
    runtime error is raised, the right-hand side is not executed and the
    machine is left as it was.  When it is an instance, the instance has the
    field afterwards however the statement ends: the field is created before
    the right-hand side is executed, and stays when that raises. *)
Theorem FieldAssignment_target (n : nat) (object_ : list string)
    (field_name_ : string) (r_value_ : Statement) (m : Machine)
    (holder : ObjectHolder) :
  Execute (S n) (ast.VariableValue object_) m = (Normal holder, m) ->
  match TryAs_ClassInstance holder with
  | None =>
      Execute (S n) (ast.FieldAssignment object_ field_name_ r_value_) m
      = (Abrupt (runtime_error
           "FieldAssignment::Execute. The object is not a custom type"), m)
  | Some (address, _) =>
      is_Some (Fields (snd (Execute (S n)
                              (ast.FieldAssignment object_ field_name_ r_value_) m))
                      address !! field_name_)
  end.
Proof.
  rewrite !Execute_S. cbn [Execute_node].
  unfold FieldAssignment_Execute, VariableValue_Execute, bind.
  intros [= Hv]. rewrite Hv.
  destruct (TryAs_ClassInstance holder) as [[address class_]|]; [|reflexivity].
  unfold Fields_subscript at 1. unfold modify at 1.
  set (m0 := match Fields m address !! field_name_ with
             | Some _ => m | None => _ end).
  assert (H0 : is_Some (Fields m0 address !! field_name_)).
  { subst m0. destruct (Fields m address !! field_name_) eqn:E.
    - rewrite E. eauto.
    - unfold Fields at 1. cbn [fields with_fields].
      rewrite lookup_insert_eq. cbn. rewrite lookup_insert_eq. eauto. }
  destruct (holding [holder] (Execute n r_value_) m0) as [[v|e] m1] eqn:E.
  - cbn. unfold Fields at 1. cbn [fields with_fields with_closure].
    rewrite lookup_insert_eq. cbn. rewrite lookup_insert_eq. eauto.
  - cbn [snd].
    pose proof (growing_holding [holder] _ (proj1 (Execute_growing n) r_value_))
      as Hg.
    exact (proj2 (proj2 (Hg _ _ _ E)) _ _ H0).
Qed.

Lemma FieldAssignment_target_witness :
  is_Some (Fields (snd (Execute 2 (ast.FieldAssignment ["self"] "f"
                                     (ast.VariableValue ["nope"]))
                          scenario.frame_v_w)) 0 !! "f")
  /\ fst (Execute 2 (ast.FieldAssignment ["self"] "f" (ast.VariableValue ["nope"]))
            scenario.frame_v_w)
     = Abrupt (runtime_error unexpected_VariableValue).
Proof.
  split; [|reflexivity].
  apply (FieldAssignment_target 1 ["self"] "f" (ast.VariableValue ["nope"])
           scenario.frame_v_w scenario.object).
  reflexivity.
Defined.

End RuntimeMore.

(* ===================================================================== *)
(** * Ownership: what a temporary holder takes with it                    *)
(* ===================================================================== *)

Section OwnershipFacts.
Import runtime.

(** ** Who owns an allocation *)

Lemma In_allocations (hs : list ObjectHolder) (a : nat) :
  In a (allocations hs) <-> exists h, In h hs /\ allocation h = Some a.
Proof.
  unfold allocations. rewrite <- list_elem_of_In, list_elem_of_omap. split.
  - intros (h & Hh & Ha). exists h. split; [now apply list_elem_of_In | exact Ha].
  - intros (h & Hh & Ha). exists h. split; [now apply list_elem_of_In | exact Ha].
Qed.

Lemma In_allocations_stored (c : gmap string ObjectHolder) (a : nat) :
  In a (allocations (stored c))
  <-> exists k h, c !! k = Some h /\ allocation h = Some a.
Proof.
  rewrite In_allocations. unfold stored. split.
  - intros (h & Hh & Ha).
    apply list_elem_of_In, list_elem_of_fmap in Hh as ([k h'] & -> & Hk).
    apply elem_of_map_to_list in Hk. now exists k, h'.
  - intros (k & h & Hk & Ha). exists h. split; [|exact Ha].
    apply list_elem_of_In, list_elem_of_fmap. exists (k, h).
    split; [reflexivity|]. now apply elem_of_map_to_list.
Qed.

Lemma Closure_owns_spec (c : gmap string ObjectHolder) (a : nat) :
  Closure_owns c a = true
  <-> exists k h, c !! k = Some h /\ allocation h = Some a.
Proof.
  rewrite <- In_allocations_stored. unfold Closure_owns.
  rewrite existsb_exists. split.
  - intros (b & Hin & Hb). apply Nat.eqb_eq in Hb. now subst b.
  - intros H. exists a. split; [assumption | apply Nat.eqb_refl].
Qed.

Lemma owned_spec (m : Machine) (a : nat) :
  owned m a = true
  <-> In a (held m)
      \/ (exists k h, closure m !! k = Some h /\ allocation h = Some a)
      \/ (exists address c k h,
            fields m !! address = Some c /\ c !! k = Some h
            /\ allocation h = Some a).
Proof.
  unfold owned. rewrite !orb_true_iff, Closure_owns_spec, !existsb_exists.
  split.
  - intros [[(b & Hin & Hb)|H]|([address c] & Hin & H)].
    + apply Nat.eqb_eq in Hb. subst b. now left.
    + right. now left.
    + right. right. apply list_elem_of_In, elem_of_map_to_list in Hin.
      apply Closure_owns_spec in H as (k & h & Hk & Ha).
      now exists address, c, k, h.
  - intros [H|[H|(address & c & k & h & Hc & Hk & Ha)]].
    + left. left. exists a. split; [assumption | apply Nat.eqb_refl].
    + left. now right.
    + right. exists (address, c). split.
      * now apply list_elem_of_In, elem_of_map_to_list.
      * apply Closure_owns_spec. now exists k, h.
Qed.

Lemma allocated_in_mono (m m' : Machine) (h : ObjectHolder) :
  (allocated m <= allocated m')%nat -> allocated_in m h -> allocated_in m' h.
Proof. intros Hle H a Ha. specialize (H a Ha). lia. Qed.

Lemma Forall_allocated_in_mono (m m' : Machine) (hs : list ObjectHolder) :
  (allocated m <= allocated m')%nat ->
  Forall (allocated_in m) hs -> Forall (allocated_in m') hs.
Proof.
  intros Hle H. eapply Forall_impl; [exact H|].
  intros h. now apply allocated_in_mono.
Qed.

Lemma allocated_in_Share (m : Machine) (o : Object) : allocated_in m (ast.Share o).
Proof. intros a [=]. Qed.

Lemma allocated_in_NoneHolder (m : Machine) : allocated_in m ast.NoneHolder.
Proof. intros a [=]. Qed.

Lemma allocated_in_known (m : Machine) (known : list ObjectHolder) (h : ObjectHolder) :
  Forall (allocated_in m) known -> In h known -> allocated_in m h.
Proof.
  intros H Hin. rewrite Forall_forall in H. apply H. now apply list_elem_of_In.
Qed.

(** What the closure in force or a field table stores is owned. *)
Lemma stored_is_allocated (m : Machine) (k : string) (h : ObjectHolder) :
  well_allocated m -> closure m !! k = Some h -> allocated_in m h.
Proof.
  intros Hw Hk a Ha. apply Hw, owned_spec. right. left. now exists k, h.
Qed.

Lemma field_is_allocated (m : Machine) (address : nat) (k : string)
    (h : ObjectHolder) :
  well_allocated m -> Fields m address !! k = Some h -> allocated_in m h.
Proof.
  intros Hw Hk a Ha. apply Hw, owned_spec. right. right.
  unfold Fields in Hk. destruct (fields m !! address) as [c|] eqn:E.
  - now exists address, c, k, h.
  - cbn in Hk. now rewrite lookup_empty in Hk.
Qed.


(** ** Machines that stay well allocated *)

Lemma well_allocated_closure_insert (m : Machine) (key : string)
    (value : ObjectHolder) :
  well_allocated m -> allocated_in m value ->
  well_allocated (with_closure m (<[key := value]> (closure m))).
Proof.
  intros Hw Hv a Ha. apply owned_spec in Ha. cbn in Ha.
  change (a < allocated m)%nat.
  destruct Ha as [H|[(k & h & H & Hh)|H]].
  - apply Hw, owned_spec. now left.
  - destruct (decide (key = k)) as [->|Hne].
    + rewrite lookup_insert_eq in H. inversion H; subst. now apply Hv.
    + rewrite lookup_insert_ne in H by assumption.
      apply Hw, owned_spec. right. left. now exists k, h.
  - apply Hw, owned_spec. now right; right.
Qed.

Lemma well_allocated_fields_insert (m : Machine) (address : nat) (f : string)
    (value : ObjectHolder) :
  well_allocated m -> allocated_in m value ->
  well_allocated
    (with_fields m (<[address := <[f := value]> (Fields m address)]> (fields m))).
Proof.
  intros Hw Hv a Ha. apply owned_spec in Ha. cbn in Ha.
  change (a < allocated m)%nat.
  destruct Ha as [H|[H|(address' & c & k & h & Hc & Hk & Hh)]].
  - apply Hw, owned_spec. now left.
  - apply Hw, owned_spec. right. now left.
  - destruct (decide (address = address')) as [->|Hne].
    + rewrite lookup_insert_eq in Hc. inversion Hc; subst c.
      destruct (decide (f = k)) as [->|Hne].
      * rewrite lookup_insert_eq in Hk. inversion Hk; subst. now apply Hv.
      * rewrite lookup_insert_ne in Hk by assumption.
        now apply (field_is_allocated m address' k h).
    + rewrite lookup_insert_ne in Hc by assumption.
      apply Hw, owned_spec. right. right. now exists address', c, k, h.
Qed.

Lemma well_allocated_with_held (m : Machine) (h : list nat) :
  well_allocated m -> (forall a, In a h -> (a < allocated m)%nat) ->
  well_allocated (with_held m h).
Proof.
  intros Hw Hh a Ha. apply owned_spec in Ha. cbn in Ha.
  change (a < allocated m)%nat.
  destruct Ha as [H|[H|H]].
  - now apply Hh.
  - apply Hw, owned_spec. right. now left.
  - apply Hw, owned_spec. now right; right.
Qed.

Lemma follows_In (known : list ObjectHolder) (h : ObjectHolder) :
  In h known -> follows known h.
Proof. intros Hin m H. now apply (allocated_in_known m known). Qed.

Lemma follows_Share (known : list ObjectHolder) (o : Object) :
  follows known (ast.Share o).
Proof. intros m _. apply allocated_in_Share. Qed.

Lemma follows_NoneHolder (known : list ObjectHolder) : follows known ast.NoneHolder.
Proof. intros m _. apply allocated_in_NoneHolder. Qed.

Ltac known_holder :=
  first [ apply follows_Share
        | apply follows_NoneHolder
        | solve [apply follows_In; cbn; repeat first [left; reflexivity | right]] ].

Section Allocation.
Variable exec : Statement -> M ObjectHolder.
Variable print : Object -> M string.
Hypothesis exec_keeps : forall s, keeps_allocation the_holder [] (exec s).
Hypothesis print_keeps : forall o, keeps_allocation no_holder [] (print o).

Lemma keeps_known {A : Type} (hs : A -> list ObjectHolder) known (x : M A) :
  keeps_allocation hs [] x -> keeps_allocation hs known x.
Proof. intros H m r m' E Hw _. now apply (H m r m' E Hw). Qed.

Lemma keeps_ret {A : Type} (hs : A -> list ObjectHolder) known (a : A) :
  Forall (follows known) (hs a) -> keeps_allocation hs known (ret a).
Proof.
  intros H m r m' [= <- <-] Hw Hk. split; [assumption|].
  split; [reflexivity|]. split; [lia|]. cbn.
  eapply Forall_impl; [exact H|]. intros h Hh. now apply Hh.
Qed.

Lemma keeps_throw {A : Type} (hs : A -> list ObjectHolder) known (e : abrupt) :
  match e with ReturnSignal result => follows known result | _ => True end ->
  keeps_allocation hs known (@throw A e).
Proof.
  intros H m r m' [= <- <-] Hw Hk. split; [assumption|].
  split; [reflexivity|]. split; [lia|]. cbn.
  destruct e; try exact I. now apply H.
Qed.

Lemma keeps_bind {A B : Type} (hsA : A -> list ObjectHolder)
    (hsB : B -> list ObjectHolder) known (x : M A) (k : A -> M B) :
  keeps_allocation hsA known x ->
  (forall a, keeps_allocation hsB (hsA a ++ known) (k a)) ->
  keeps_allocation hsB known (bind x k).
Proof.
  intros Hx Hk m r m'. unfold bind.
  destruct (x m) as [[a|e] m1] eqn:E; intros H Hw Hn.
  - destruct (Hx _ _ _ E Hw Hn) as (Hw1 & Hh1 & Hle1 & Ha). cbn in Ha.
    assert (Hn1 : Forall (allocated_in m1) (hsA a ++ known)).
    { apply Forall_app. split; [assumption|].
      now apply (Forall_allocated_in_mono m). }
    destruct (Hk a _ _ _ H Hw1 Hn1) as (Hw' & Hh' & Hle' & Hr).
    split; [assumption|]. split; [congruence|]. split; [lia | assumption].
  - inversion H; subst.
    destruct (Hx _ _ _ E Hw Hn) as (Hw1 & Hh1 & Hle1 & Ha).
    split; [assumption|]. split; [assumption|]. split; assumption.
Qed.

Lemma keeps_Own known (object : Object) :
  keeps_allocation the_holder known (Own object).
Proof.
  intros m r m' [= <- <-] Hw Hk. split; [|split; [reflexivity|split]].
  - intros a Ha. cbn. apply owned_spec in Ha. cbn in Ha.
    assert (owned m a = true) as H by (now apply owned_spec).
    specialize (Hw a H). lia.
  - cbn. lia.
  - cbn. constructor; [|constructor]. intros a Ha. cbn.
    destruct object; inversion Ha; subst; lia.
Qed.

Lemma keeps_modify known (f : Machine -> Machine) :
  (forall m, well_allocated m -> Forall (allocated_in m) known ->
             well_allocated (f m) /\ held (f m) = held m
             /\ allocated (f m) = allocated m) ->
  keeps_allocation no_holder known (modify f).
Proof.
  intros Hf m r m' [= <- <-] Hw Hk. destruct (Hf m Hw Hk) as (H1 & H2 & H3).
  split; [assumption|]. split; [assumption|]. split; [lia|]. constructor.
Qed.

Lemma keeps_closure_assign known key value :
  follows known value ->
  keeps_allocation no_holder known (closure_assign key value).
Proof.
  intros Hv. apply keeps_modify. intros m Hw Hk.
  split; [|split; reflexivity].
  apply well_allocated_closure_insert; [assumption | now apply Hv].
Qed.

Lemma keeps_Fields_subscript known address f :
  keeps_allocation no_holder known (Fields_subscript address f).
Proof.
  apply keeps_modify. intros m Hw Hk.
  destruct (Fields m address !! f); [now repeat split|].
  split; [|split; reflexivity].
  apply well_allocated_fields_insert;
    [assumption | apply allocated_in_NoneHolder].
Qed.

Lemma keeps_Fields_assign known address f value :
  follows known value ->
  keeps_allocation no_holder known (Fields_assign address f value).
Proof.
  intros Hv. apply keeps_modify. intros m Hw Hk.
  split; [|split; reflexivity].
  apply well_allocated_fields_insert; [assumption | now apply Hv].
Qed.

Lemma keeps_holding {A : Type} (hs : A -> list ObjectHolder) known locals
    (x : M A) :
  Forall (follows known) locals ->
  keeps_allocation hs known x -> keeps_allocation hs known (holding locals x).
Proof.
  intros Hl Hx m r m'. unfold holding.
  destruct (x _) as [r1 m1] eqn:E. intros [= <- <-] Hw Hk.
  assert (Hw0 : well_allocated (with_held m (allocations locals ++ held m))).
  { apply well_allocated_with_held; [assumption|].
    intros a Ha. apply in_app_or in Ha as [Ha|Ha].
    - apply In_allocations in Ha as (h & Hh & Ha).
      rewrite Forall_forall in Hl.
      apply (Hl h); [now apply list_elem_of_In | assumption | assumption].
    - apply Hw, owned_spec. now left. }
  destruct (Hx _ _ _ E Hw0 Hk) as (Hw1 & Hh1 & Hle1 & Hr). cbn in Hh1, Hle1.
  split; [|split; [reflexivity | split; [exact Hle1 | exact Hr]]].
  apply well_allocated_with_held; [assumption|].
  intros a Ha. apply Hw1, owned_spec. left. rewrite Hh1.
  apply in_or_app. now right.
Qed.

Lemma keeps_in_frame {A : Type} (hs : A -> list ObjectHolder) known frame
    (x : M A) :
  (forall k h, frame !! k = Some h -> follows known h) ->
  keeps_allocation hs known x -> keeps_allocation hs known (in_frame frame x).
Proof.
  intros Hf Hx m r m'. unfold in_frame.
  destruct (x _) as [r1 m1] eqn:E. intros [= <- <-] Hw Hk.
  set (m0 := with_held (with_closure m frame)
                       (allocations (stored (closure m)) ++ held m)) in *.
  assert (Hw0 : well_allocated m0).
  { intros a Ha. apply owned_spec in Ha. cbn in Ha.
    change (a < allocated m)%nat.
    destruct Ha as [H|[(k & h & H & Hh)|H]].
    - apply in_app_or in H as [H|H].
      + apply In_allocations_stored in H. apply Hw, owned_spec. right. now left.
      + apply Hw, owned_spec. now left.
    - now apply (Hf k _ H m Hk).
    - apply Hw, owned_spec. now right; right. }
  destruct (Hx _ _ _ E Hw0 Hk) as (Hw1 & Hh1 & Hle1 & Hr). cbn in Hh1, Hle1.
  split; [|split; [reflexivity | split; [exact Hle1 | exact Hr]]].
  intros a Ha. apply owned_spec in Ha. cbn in Ha.
  change (a < allocated m1)%nat.
  destruct Ha as [H|[H|H]].
  - apply Hw1, owned_spec. left. rewrite Hh1. apply in_or_app. now right.
  - apply Hw1, owned_spec. left. rewrite Hh1. apply in_or_app. left.
    now apply In_allocations_stored.
  - apply Hw1, owned_spec. now right; right.
Qed.

Lemma keeps_through_pointer_of {A : Type} (hs : A -> list ObjectHolder) known
    holder (x : M A) :
  keeps_allocation hs known x ->
  keeps_allocation hs known (through_pointer_of holder x).
Proof.
  intros Hx m r m'. unfold through_pointer_of.
  destruct (destroyed_with holder m); [|apply Hx].
  intros [= <- <-] Hw Hk. split; [assumption|].
  split; [reflexivity|]. split; [lia | exact I].
Qed.

Ltac keep_step :=
  first [ apply keeps_Own
        | apply keeps_ret; repeat constructor; known_holder
        | apply keeps_throw; first [exact I | known_holder]
        | apply keeps_known, exec_keeps
        | apply keeps_known, print_keeps
        | apply keeps_closure_assign; known_holder
        | apply keeps_Fields_subscript
        | apply keeps_Fields_assign; known_holder
        | apply keeps_holding; [repeat constructor; known_holder|]
        | apply keeps_through_pointer_of
        | apply (keeps_ret no_holder); constructor
        | eapply keeps_bind; [|intros ?]
        | match goal with
          | |- keeps_allocation _ _ (if ?b then _ else _) => destruct b
          | |- keeps_allocation _ _ (match ?o with _ => _ end) => destruct o
          | |- keeps_allocation _ _ (let (_, _) := ?p in _) => destruct p
          end ].

Lemma bind_formal_params_stored (params : list string) :
  forall actual_args frame k h,
    bind_formal_params params actual_args frame !! k = Some h ->
    In h actual_args \/ frame !! k = Some h.
Proof.
  induction params as [|p params IH]; intros actual_args frame k h H;
    cbn [bind_formal_params] in H; [now right|].
  destruct actual_args as [|a actual_args]; [now right|].
  apply IH in H as [H|H]; [left; now right|].
  destruct (decide (p = k)) as [->|Hne].
  - rewrite lookup_insert_eq in H. inversion H; subst. left. now left.
  - rewrite lookup_insert_ne in H by assumption. now right.
Qed.

Lemma keeps_Call known address class_ method actual_args :
  Forall (follows known) actual_args ->
  keeps_allocation the_holder known
    (Call exec address class_ method actual_args).
Proof.
  intros Ha. unfold Call.
  destruct (negb _); [apply keeps_throw; exact I|].
  destruct (GetMethod class_ method) as [method_ptr|];
    [|apply keeps_throw; exact I].
  destruct (_ <? _)%nat; [apply keeps_throw; exact I|].
  apply keeps_in_frame; [|apply keeps_known, exec_keeps].
  intros k h H. apply bind_formal_params_stored in H as [H|H].
  - rewrite Forall_forall in Ha. apply Ha. now apply list_elem_of_In.
  - destruct (decide ("self" = k)) as [<-|Hne].
    + rewrite lookup_insert_eq in H. inversion H; subst. apply follows_Share.
    + rewrite lookup_insert_ne, lookup_empty in H by assumption. discriminate.
Qed.

Lemma keeps_Object_Print known o :
  keeps_allocation no_holder known (Object_Print exec print o).
Proof.
  unfold Object_Print.
  destruct o; try (apply keeps_ret; constructor).
  destruct (HasMethod _ _ _); [|apply keeps_ret; constructor].
  eapply keeps_bind; [apply keeps_Call; constructor|intros r].
  destruct (Get r); [|apply keeps_throw; exact I].
  apply keeps_holding; [repeat constructor; known_holder|].
  apply keeps_known, print_keeps.
Qed.

Lemma keeps_Equal known lhs rhs :
  follows known rhs -> keeps_allocation no_holder known (Equal exec lhs rhs).
Proof.
  intros Hr. unfold Equal.
  repeat first
    [ apply keeps_ret; constructor
    | match goal with
      | |- keeps_allocation _ _ (bind (Call _ _ _ _ _) _) =>
          eapply keeps_bind;
          [apply keeps_Call; repeat constructor; exact Hr | intros ?]
      end
    | keep_step ].
Qed.

Lemma keeps_Less known lhs rhs :
  follows known rhs -> keeps_allocation no_holder known (Less exec lhs rhs).
Proof.
  intros Hr. unfold Less.
  repeat first
    [ apply keeps_ret; constructor
    | match goal with
      | |- keeps_allocation _ _ (bind (Call _ _ _ _ _) _) =>
          eapply keeps_bind;
          [apply keeps_Call; repeat constructor; exact Hr | intros ?]
      end
    | keep_step ].
Qed.

Lemma follows_more (known : list ObjectHolder) (extra : list ObjectHolder)
    (h : ObjectHolder) :
  follows known h -> follows (extra ++ known) h.
Proof.
  intros H m Hk. apply H. now apply Forall_app in Hk as [_ Hk].
Qed.

Lemma keeps_Comparator known cmp lhs rhs :
  follows known rhs ->
  keeps_allocation no_holder known (apply_Comparator exec cmp lhs rhs).
Proof.
  intros Hr.
  destruct cmp; cbn [apply_Comparator];
    unfold NotEqual, Greater, LessOrEqual, GreaterOrEqual, NotEqual;
    repeat first
      [ apply keeps_Equal; repeat apply (follows_more _ [_]); exact Hr
      | apply keeps_Less; repeat apply (follows_more _ [_]); exact Hr
      | apply keeps_ret; constructor
      | match goal with
        | |- keeps_allocation _ _ (bind _ _) =>
            eapply (keeps_bind no_holder); [|intros ?]
        | |- keeps_allocation _ _ (if ?b then _ else _) => destruct b
        end ].
Qed.

Lemma VariableValue_loop_allocated (m : Machine) (ids : list string) :
  well_allocated m ->
  forall (c : gmap string ObjectHolder) (h : ObjectHolder),
    (forall k h', c !! k = Some h' -> allocated_in m h') ->
    VariableValue_loop m ids c = Normal h -> allocated_in m h.
Proof.
  intros Hw. induction ids as [|id rest IH]; intros c h Hc; cbn [VariableValue_loop];
    [discriminate|].
  destruct (c !! id) as [holder|] eqn:E; [|now apply IH].
  destruct rest as [|id' rest].
  - intros [= <-]. now apply (Hc id).
  - destruct (TryAs_ClassInstance holder) as [[address class_]|];
      [|now apply IH].
    apply IH. intros k h' Hk. now apply (field_is_allocated m address k).
Qed.

Lemma VariableValue_loop_Abrupt (m : Machine) (ids : list string) :
  forall (c : gmap string ObjectHolder) (e : abrupt),
    VariableValue_loop m ids c = Abrupt e ->
    e = runtime_error unexpected_VariableValue.
Proof.
  induction ids as [|id rest IH]; intros c e; cbn [VariableValue_loop].
  - now intros [= <-].
  - destruct (c !! id) as [holder|]; [|apply IH].
    destruct rest as [|id' rest]; [discriminate|].
    destruct (TryAs_ClassInstance holder) as [[address class_]|]; apply IH.
Qed.

Lemma keeps_VariableValue known ids :
  keeps_allocation the_holder known (VariableValue_Execute ids).
Proof.
  intros m r m'. unfold VariableValue_Execute. intros [= <- <-] Hw Hk.
  split; [assumption|]. split; [reflexivity|]. split; [lia|].
  destruct (VariableValue_loop m ids (closure m)) as [h|e] eqn:E.
  - constructor; [|constructor].
    apply (VariableValue_loop_allocated m ids Hw (closure m)); [|exact E].
    intros k h' Hc. now apply (stored_is_allocated m k).
  - now rewrite (VariableValue_loop_Abrupt m ids _ _ E).
Qed.

Lemma keeps_Print_loop args : forall known first os,
  keeps_allocation no_holder known (Print_loop exec print args first os).
Proof.
  induction args as [|arg rest IH]; intros known first os; cbn [Print_loop].
  - apply keeps_ret. constructor.
  - eapply keeps_bind; [apply keeps_known, exec_keeps|intros oh].
    eapply (keeps_bind no_holder); [|intros text; apply IH].
    destruct (Get oh); [|apply keeps_ret; constructor].
    apply keeps_holding; [repeat constructor; known_holder|].
    apply keeps_known, print_keeps.
Qed.

Lemma keeps_Execute_args args : forall known,
  keeps_allocation the_holders known (Execute_args exec args).
Proof.
  induction args as [|arg rest IH]; intros known; cbn [Execute_args].
  - apply keeps_ret. constructor.
  - eapply keeps_bind; [apply keeps_known, exec_keeps|intros v].
    eapply keeps_bind.
    + apply keeps_holding; [repeat constructor; known_holder | apply IH].
    + intros vs. apply keeps_ret. unfold the_holders, the_holder.
      constructor.
      * apply follows_In, in_or_app. right. now left.
      * apply Forall_forall. intros h Hh. apply follows_In.
        apply list_elem_of_In in Hh. apply in_or_app. left. exact Hh.
Qed.

Lemma keeps_Compound statements : forall known,
  keeps_allocation the_holder known (Compound_Execute exec statements).
Proof.
  induction statements as [|st rest IH]; intros known; cbn [Compound_Execute].
  - apply keeps_ret. repeat constructor. known_holder.
  - eapply keeps_bind; [apply keeps_known, exec_keeps|intros v; apply IH].
Qed.

Lemma keeps_MethodBody known body_ :
  keeps_allocation the_holder known (MethodBody_Execute exec body_).
Proof.
  intros m r m'. unfold MethodBody_Execute.
  destruct (exec body_ m) as [[v|[res|w|w|]] m1] eqn:E; intros [= <- <-] Hw Hk;
    destruct (exec_keeps _ _ _ _ E Hw (Forall_nil_2 _)) as (H1 & H2 & H3 & H4);
    repeat split; try assumption.
  cbn in H4 |- *. constructor; [assumption | constructor].
Qed.

Lemma keeps_Print_Execute known args :
  keeps_allocation the_holder known (Print_Execute exec print args).
Proof.
  unfold Print_Execute.
  eapply keeps_bind; [apply keeps_Print_loop|intros os].
  eapply keeps_bind; [|intros u; apply keeps_Own].
  apply keeps_modify. intros m Hw Hk. split; [|split; reflexivity].
  intros a Ha. apply owned_spec in Ha. cbn in Ha. apply Hw, owned_spec.
  exact Ha.
Qed.

Lemma Forall_follows_held known (actual_args : list ObjectHolder) :
  Forall (follows (the_holders actual_args ++ known)) actual_args.
Proof.
  apply Forall_forall. intros h Hh. apply follows_In.
  apply list_elem_of_In in Hh. apply in_or_app. now left.
Qed.

Lemma follows_Class known (class_ : ObjectHolder) (cls : Class) :
  TryAs_Class class_ = Some cls -> follows known class_.
Proof.
  intros H m _ a Ha. destruct class_ as [|a' [v|v|v|c|address c]|o];
    discriminate.
Qed.

Lemma keeps_ClassDefinition known class_ :
  keeps_allocation the_holder known (ClassDefinition_Execute class_).
Proof.
  unfold ClassDefinition_Execute, GetName.
  destruct (TryAs_Class class_) as [cls|] eqn:E; [|apply keeps_throw; exact I].
  eapply (keeps_bind no_holder).
  - destruct (String.eqb _ _);
      [apply keeps_throw; exact I | apply keeps_ret; constructor].
  - intros key. eapply (keeps_bind no_holder).
    + apply keeps_closure_assign. now apply (follows_Class _ _ cls).
    + intros u. apply keeps_ret. constructor; [|constructor].
      now apply (follows_Class _ _ cls).
Qed.

Lemma keeps_Execute_node s :
  keeps_allocation the_holder [] (Execute_node exec print s).
Proof.
  destruct s; cbn [Execute_node];
    try apply keeps_VariableValue; try apply keeps_Print_Execute;
    try apply keeps_MethodBody; try apply keeps_Compound;
    try apply keeps_ClassDefinition;
    unfold Assignment_Execute, FieldAssignment_Execute, None_Execute,
      MethodCall_Execute, NewInstance_Execute, Stringify_Execute,
      Add_Execute, Sub_Execute, Mult_Execute, Div_Execute, arithmetic,
      Or_Execute, And_Execute, Not_Execute, Return_Execute,
      ClassDefinition_Execute, IfElse_Execute, Comparison_Execute, GetName,
      is_true_Bool_of_temporary;
    repeat first
      [ apply keeps_VariableValue
      | apply keeps_Execute_args
      | apply keeps_Call; first [apply Forall_follows_held
                                | repeat constructor; known_holder]
      | apply keeps_Comparator; known_holder
      | apply keeps_holding; [apply Forall_follows_held|]
      | keep_step ].
Qed.

End Allocation.

(** From a well allocated machine every statement leaves a well allocated
    machine, with [held] as it was, and the holder that it returns or throws
    is allocated. *)
Lemma Execute_keeps_allocation (n : nat) :
  (forall s, keeps_allocation the_holder [] (Execute n s))
  /\ (forall o, keeps_allocation no_holder [] (ObjectPrint n o)).
Proof.
  induction n as [|n [IHe IHp]].
  - split; intros x; apply keeps_throw; exact I.
  - split.
    + intros s. rewrite Execute_S. now apply keeps_Execute_node.
    + intros o. rewrite ObjectPrint_S. apply keeps_Object_Print; assumption.
Qed.

Lemma well_allocated_empty : well_allocated empty_Machine.
Proof. intros a Ha. vm_compute in Ha. discriminate. Qed.

(** ** Values that only a temporary owns *)

Section Unowned.
Variable exec : Statement -> M ObjectHolder.
Hypothesis exec_keeps : forall s, keeps_allocation the_holder [] (exec s).

Lemma unowned_Own known (v : bool) : builds_unowned_Bool known (Own (ast.Bool v)).
Proof.
  intros m h m' [= <- <-] Hw _. exists (allocated m), v. split; [reflexivity|].
  destruct (owned _ _) eqn:E; [|reflexivity].
  assert (H : owned m (allocated m) = true).
  { apply owned_spec. apply owned_spec in E. exact E. }
  specialize (Hw _ H). lia.
Qed.

Lemma unowned_bind {A : Type} (hsA : A -> list ObjectHolder) known (x : M A)
    (k : A -> M ObjectHolder) :
  keeps_allocation hsA known x ->
  (forall a, builds_unowned_Bool (hsA a ++ known) (k a)) ->
  builds_unowned_Bool known (bind x k).
Proof.
  intros Hx Hk m h m'. unfold bind.
  destruct (x m) as [[a|e] m1] eqn:E; [|discriminate]. intros H Hw Hn.
  destruct (Hx _ _ _ E Hw Hn) as (Hw1 & _ & Hle & Ha). cbn in Ha.
  apply (Hk a m1 h m' H Hw1). apply Forall_app. split; [assumption|].
  now apply (Forall_allocated_in_mono m).
Qed.

Lemma unowned_through_pointer_of known holder (x : M ObjectHolder) :
  builds_unowned_Bool known x ->
  builds_unowned_Bool known (through_pointer_of holder x).
Proof.
  intros Hx m h m'. unfold through_pointer_of.
  destruct (destroyed_with holder m); [discriminate | apply Hx].
Qed.

Lemma unowned_throw known (e : abrupt) : builds_unowned_Bool known (throw e).
Proof. intros m h m'. discriminate. Qed.

Lemma keeps_is_true_Bool_of_temporary known holder :
  keeps_allocation no_holder known (is_true_Bool_of_temporary holder).
Proof.
  unfold is_true_Bool_of_temporary.
  destruct (TryAs_Bool holder);
    [apply keeps_through_pointer_of|]; apply keeps_ret; constructor.
Qed.

Lemma unowned_Execute_node (print : Object -> M string) (s : Statement) :
  builds_Bool s = true ->
  builds_unowned_Bool [] (Execute_node exec print s).
Proof.
  destruct s; try discriminate; intros _; cbn [Execute_node].
  - unfold Or_Execute.
    eapply unowned_bind; [apply exec_keeps|intros lhs].
    eapply unowned_bind; [apply keeps_is_true_Bool_of_temporary|intros [|]];
      [apply unowned_Own|].
    eapply unowned_bind; [apply keeps_known, exec_keeps|intros rhs].
    eapply unowned_bind; [apply keeps_is_true_Bool_of_temporary|intros [|]];
      apply unowned_Own.
  - unfold And_Execute.
    eapply unowned_bind; [apply exec_keeps|intros lhs].
    eapply unowned_bind; [apply keeps_is_true_Bool_of_temporary|intros [|]];
      cbn [negb]; [|apply unowned_Own].
    eapply unowned_bind; [apply keeps_known, exec_keeps|intros rhs].
    eapply unowned_bind; [apply keeps_is_true_Bool_of_temporary|intros [|]];
      apply unowned_Own.
  - unfold Not_Execute.
    eapply unowned_bind; [apply exec_keeps|intros arg].
    destruct (TryAs_Bool arg); [|apply unowned_throw].
    apply unowned_through_pointer_of, unowned_Own.
  - unfold Comparison_Execute.
    eapply unowned_bind; [apply exec_keeps|intros lhs].
    eapply unowned_bind.
    { apply keeps_holding; [repeat constructor; known_holder|].
      apply keeps_known, exec_keeps. }
    intros rhs. eapply unowned_bind; [|intros result; apply unowned_Own].
    apply keeps_holding; [repeat constructor; known_holder|].
    apply keeps_Comparator; [exact exec_keeps | known_holder].
Qed.

End Unowned.

(** The [Bool] that a comparison or a logic node returns is owned by the
    holder returned and by nothing else. *)
Lemma Execute_builds_unowned_Bool (n : nat) (s : Statement) :
  builds_Bool s = true -> builds_unowned_Bool [] (Execute n s).
Proof.
  intros Hs. destruct n as [|n]; [intros m h m'; discriminate|].
  rewrite Execute_S. apply unowned_Execute_node; [|exact Hs].
  apply (Execute_keeps_allocation n).
Qed.

(** ** Logic nodes *)

(** C8.  [Or], [And] and [Not] take a pointer to the [Bool] out of the
    temporary holder that the operand returns and read the [Bool] after that
    holder is destroyed.  When the operand is a comparison or a logic node
    -- which return a [Bool] of their own making -- the [Bool] is destroyed
    with the holder, and the node ends in a read of the destroyed object; no
    [Bool] is returned, and the right operand is not executed. *)
Theorem Or_And_read_destroyed_Bool (n : nat) (lhs_ rhs_ : Statement)
    (m m1 : Machine) (lhs : ObjectHolder) :
  well_allocated m ->
  builds_Bool lhs_ = true ->
  Execute n lhs_ m = (Normal lhs, m1) ->
  Execute (S n) (ast.Or lhs_ rhs_) m = (Abrupt read_after_destruction, m1)
  /\ Execute (S n) (ast.And lhs_ rhs_) m = (Abrupt read_after_destruction, m1)
  /\ Execute (S n) (ast.Not lhs_) m = (Abrupt read_after_destruction, m1).
Proof.
  intros Hw Hs He.
  destruct (Execute_builds_unowned_Bool n lhs_ Hs m lhs m1 He Hw (Forall_nil_2 _))
    as (a & v & -> & Ho).
  rewrite !Execute_S. cbn [Execute_node].
  unfold Or_Execute, And_Execute, Not_Execute, bind. rewrite He.
  unfold is_true_Bool_of_temporary, through_pointer_of, destroyed_with.
  cbn. rewrite Ho. cbn. repeat split; reflexivity.
Qed.

(** [x < y or f] with [x = 1], [y = 2]: the comparison returns [True], and
    [Or] reads it after it is gone. *)
Lemma Or_And_read_destroyed_Bool_witness :
  Execute 2 scenario.x_lt_y scenario.x_y_f
    = (Normal (ast.Own 3 (ast.Bool true)), with_allocated scenario.x_y_f 4)
  /\ Execute 3 scenario.x_lt_y_or_f scenario.x_y_f
     = (Abrupt read_after_destruction, with_allocated scenario.x_y_f 4).
Proof.
  split; [vm_compute; reflexivity|].
  apply (Or_And_read_destroyed_Bool 2 scenario.x_lt_y (ast.VariableValue ["f"])
           scenario.x_y_f (with_allocated scenario.x_y_f 4)
           (ast.Own 3 (ast.Bool true))).
  - intros a Ha. vm_compute in Ha.
    destruct a as [|[|[|a]]]; cbn; try lia; discriminate.
  - reflexivity.
  - vm_compute. reflexivity.
Defined.

(** An operand that a variable holds is read while the closure still owns
    it: [f or f] returns a [Bool]. *)
Example Or_of_variables_returns :
  Execute 2 (ast.Or (ast.VariableValue ["f"]) (ast.VariableValue ["f"]))
          scenario.x_y_f
  = (Normal (ast.Own 3 (ast.Bool false)), with_allocated scenario.x_y_f 4).
Proof. vm_compute. reflexivity. Qed.

(** ** Print and Stringify *)

(** X29.  For an argument whose value prints without running a method,
    [print x] writes the text of the value and a line feed, and returns the
    text as a new [String].  [str(x)] returns that same [String] when the
    object is still owned once the temporary holder of the argument is
    destroyed; when the temporary was its only owner, [Print] is called on
    the destroyed object. *)
Theorem Print_and_Stringify_render_alike (n : nat) (argument : Statement)
    (m m1 : Machine) (oh : ObjectHolder) :
  Execute (S n) argument m = (Normal oh, m1) ->
  match Get oh with Some obj => prints_plainly obj = true | None => True end ->
  let out := match Get oh with Some obj => plain_text obj | None => "None" end in
  let text := ast.Own (allocated m1) (ast.String out) in
  Execute (S (S n)) (ast.Print [argument]) m
    = (Normal text,
       with_allocated (with_output m1 (output m1 +:+ out +:+ endl))
                      (S (allocated m1)))
  /\ Execute (S (S n)) (ast.Stringify argument) m
     = if destroyed_with oh m1 then (Abrupt read_after_destruction, m1)
       else (Normal text, with_allocated m1 (S (allocated m1))).
Proof.
  intros He Hp. cbv zeta. split.
  - rewrite (Execute_S (S n)). cbn [Execute_node].
    unfold Print_Execute. cbn [Print_loop]. unfold bind at 1 2. rewrite He.
    destruct (Get oh) as [obj|].
    + unfold bind, holding. rewrite (ObjectPrint_plain n obj _ Hp).
      unfold ret, modify, Own. destruct m1. reflexivity.
    + reflexivity.
  - rewrite (Execute_S (S n)). cbn [Execute_node].
    unfold Stringify_Execute, through_pointer_of, bind. rewrite He.
    destruct (Get oh) as [obj|] eqn:Eg.
    + destruct (destroyed_with oh m1); [reflexivity|].
      now rewrite (ObjectPrint_plain n obj _ Hp).
    + unfold destroyed_with, allocation.
      destruct oh as [|a o|o]; try discriminate. reflexivity.
Qed.

(** [print x + y] writes 3; [str(x + y)] reads the sum after it is gone. *)
Lemma Print_and_Stringify_render_alike_witness :
  let m1 := with_allocated scenario.x_y_f 4 in
  Execute 2 scenario.x_plus_y scenario.x_y_f = (Normal (ast.Own 3 (ast.Number 3)), m1)
  /\ Execute 3 (ast.Print [scenario.x_plus_y]) scenario.x_y_f
     = (Normal (ast.Own 4 (ast.String "3")),
        with_allocated (with_output m1 ("3" +:+ endl)) 5)
  /\ Execute 3 (ast.Stringify scenario.x_plus_y) scenario.x_y_f
     = (Abrupt read_after_destruction, m1).
Proof.
  cbv zeta. split; [vm_compute; reflexivity|].
  apply (Print_and_Stringify_render_alike 1 scenario.x_plus_y scenario.x_y_f
           (with_allocated scenario.x_y_f 4) (ast.Own 3 (ast.Number 3)));
    vm_compute; reflexivity.
Defined.

(** [str(x)] returns the text of [x], which the closure still owns. *)
Example Stringify_of_a_variable :
  Execute 2 (ast.Stringify (ast.VariableValue ["x"])) scenario.x_y_f
  = (Normal (ast.Own 3 (ast.String "1")), with_allocated scenario.x_y_f 4).
Proof. vm_compute. reflexivity. Qed.

End OwnershipFacts.

(* ===================================================================== *)
(** * Non-local return                                                    *)
(* ===================================================================== *)

Section ReturnFacts.
Import runtime.



(** A runtime error raised three statements deep leaves the method body
    unchanged. *)
Example runtime_error_leaves_MethodBody :
  Execute 4 (ast.MethodBody
               (ast.Compound [ast.Assignment "a" (ast.VariableValue ["r"]);
                              ast.VariableValue ["nope"]; ast.Print []]))
          scenario.frame_t_r
  = (Abrupt (runtime_error unexpected_VariableValue),
     with_closure scenario.frame_t_r
       (<["a" := ast.Own 1 (ast.Number 7)]> (closure scenario.frame_t_r))).
Proof. vm_compute. reflexivity. Qed.

End ReturnFacts.
